(** * Particle effects of the enhanced uptime graph (enhanced_graph.py)

    A shallow embedding of [Particle], [ParticleSystem] and
    [EnhancedGraphWidget] (its state, [update_with_effects],
    [update_effects] and [clear_graph]), followed by the properties of
    the animation core and of the widget that drives it.

    The source computes on Python floats.  The embedding is written once,
    over an interface [Arith] of the arithmetic the source uses, and is run
    at two instances:
    - [binary64]: IEEE 754 double precision (primitive floats), which is
      what the interpreter executes, bit for bit;
    - [exact]: the rationals, the arithmetic in which formulas such as
      [life = 1 - 2*n*dt] are read.
    Theorems stated for every [Arith] hold at both.  Order properties in
    binary64 rest on the monotonicity of its rounding, which is proved
    here from the specification of the operations ([SpecFloat]). *)

From Stdlib Require Import ZArith QArith Qround Qabs List String Bool Lia Lqa
  Sorted Floats.
Import ListNotations.

Set Implicit Arguments.

(** ** Arithmetic *)

(** The operations of a Python [float] that the module uses.  [lit] is the
    value of a numeric literal of the source (an [int] literal mixed into
    float arithmetic is converted the same way), [value] the number a float
    stands for, with [None] for an infinity or a NaN. *)
Class Arith (F : Type) : Type := {
  lit : Q -> F;
  fadd : F -> F -> F;
  fsub : F -> F -> F;
  fmul : F -> F -> F;
  fdiv : F -> F -> F;
  fltb : F -> F -> bool;
  value : F -> option Q
}.
Arguments lit {F _} q%_Q.

Declare Scope arith_scope.
Delimit Scope arith_scope with ar.
Notation "a + b" := (fadd a b) : arith_scope.
Notation "a - b" := (fsub a b) : arith_scope.
Notation "a * b" := (fmul a b) : arith_scope.
Notation "a / b" := (fdiv a b) : arith_scope.
Notation "a <? b" := (fltb a b) : arith_scope.

(** Truncation toward zero, and rounding to the nearest integer with ties
    to the even one (Python's [round]), of a rational. *)
Definition Qtrunc (q : Q) : Z := Z.quot (Qnum q) (Zpos (Qden q)).

Definition Qround_half_even (q : Q) : Z :=
  let f := Qfloor q in
  match Qcompare (q - inject_Z f) (1 # 2) with
  | Lt => f
  | Gt => (f + 1)%Z
  | Eq => if Z.even f then f else (f + 1)%Z
  end.

(** Python's [int(f)] on a float: the value truncated toward zero;
    [None] stands for the exception raised on an infinity ([OverflowError])
    or a NaN ([ValueError]). *)
Definition int {F : Type} `{Arith F} (f : F) : option Z :=
  option_map Qtrunc (value f).

(** *** IEEE 754 double precision *)

Module Binary64.

Definition of_Z (z : Z) : float :=
  SF2Prim (binary_normalize prec emax z 0 false).

(** A literal denotes the double nearest to it: the correctly rounded
    quotient of numerator and denominator, both of which are exact for
    the literals of the source. *)
Definition of_literal (q : Q) : float :=
  PrimFloat.div (of_Z (Qnum q)) (of_Z (Zpos (Qden q))).

Definition Qpow2 (e : Z) : Q :=
  match e with
  | Z0 => 1
  | Zpos p => inject_Z (Z.pow_pos 2 p)
  | Zneg p => 1 # Pos.pow 2 p
  end.

Definition SF2Q (x : spec_float) : option Q :=
  match x with
  | S754_zero _ => Some 0
  | S754_finite s m e =>
      Some ((if s then inject_Z (Zneg m) else inject_Z (Zpos m)) * Qpow2 e)
  | S754_infinity _ | S754_nan => None
  end.

Definition to_Q (f : float) : option Q := SF2Q (Prim2SF f).

(** [a <= b] as the interpreter evaluates it. *)
Definition le (a b : float) : Prop := PrimFloat.leb a b = true.

(** [r] carries the sign [s], or is a NaN. *)
Definition signed (s : bool) (r : spec_float) : Prop :=
  match r with
  | S754_nan => True
  | S754_zero s' | S754_infinity s' | S754_finite s' _ _ => s' = s
  end.

End Binary64.

#[export] Instance binary64 : Arith float := {
  lit := Binary64.of_literal;
  fadd := PrimFloat.add;
  fsub := PrimFloat.sub;
  fmul := PrimFloat.mul;
  fdiv := PrimFloat.div;
  fltb := PrimFloat.ltb;
  value := Binary64.to_Q
}.

(** *** Exact arithmetic *)

Definition Qltb (a b : Q) : bool := negb (Qle_bool b a).

#[export] Instance exact : Arith Q := {
  lit := fun q => q;
  fadd := Qplus;
  fsub := Qminus;
  fmul := Qmult;
  fdiv := Qdiv;
  fltb := Qltb;
  value := fun q => Some q
}.

(** ** PyQt

    An [int] passed to a method of Qt must fit the C type [int]; PyQt
    raises [OverflowError] when it does not. *)
Definition c_int (z : Z) : bool :=
  ((-2147483648 <=? z) && (z <=? 2147483647))%Z.

(** *** QColor

    The colour, as the four channels the module sets and reads.
    [setAlpha(a)] raises ([None]) when [a] is not a C [int]; otherwise
    Qt stores the channel, which it keeps within 0..255: a larger [a]
    gives 255, a negative one 0. *)
Module QColor.

Record t : Type := { red : Z; green : Z; blue : Z; alpha : Z }.

Definition setAlpha (a : Z) (c : t) : option t :=
  if c_int a then
    Some {| red := red c; green := green c; blue := blue c;
            alpha := Z.max 0 (Z.min a 255) |}
  else None.

End QColor.

(** ** Randomness: the results [random.random()] will return, in order. *)
Definition Random (F : Type) : Type := nat -> F.

Definition random {F : Type} (rng : Random F) : F * Random F :=
  (rng 0%nat, fun n => rng (S n)).

(** ** Particle *)

Module Particle.

Section Model.
Context {F : Type} `{Arith F}.
Local Open Scope string_scope.
Local Open Scope arith_scope.

Record t : Type := {
  x : F;
  y : F;
  start_x : F;
  start_y : F;
  effect_type : string;
  life : F;
  max_life : F;
  size : F;
  velocity_x : F;
  velocity_y : F;
  color : QColor.t
}.

(** Attribute assignments [self.<field> = v]. *)
Definition set_x (self : t) (v : F) : t :=
  {| x := v; y := y self; start_x := start_x self; start_y := start_y self;
     effect_type := effect_type self; life := life self;
     max_life := max_life self; size := size self;
     velocity_x := velocity_x self; velocity_y := velocity_y self;
     color := color self |}.

Definition set_y (self : t) (v : F) : t :=
  {| x := x self; y := v; start_x := start_x self; start_y := start_y self;
     effect_type := effect_type self; life := life self;
     max_life := max_life self; size := size self;
     velocity_x := velocity_x self; velocity_y := velocity_y self;
     color := color self |}.

Definition set_life (self : t) (v : F) : t :=
  {| x := x self; y := y self; start_x := start_x self;
     start_y := start_y self; effect_type := effect_type self; life := v;
     max_life := max_life self; size := size self;
     velocity_x := velocity_x self; velocity_y := velocity_y self;
     color := color self |}.

Definition set_size (self : t) (v : F) : t :=
  {| x := x self; y := y self; start_x := start_x self;
     start_y := start_y self; effect_type := effect_type self;
     life := life self; max_life := max_life self; size := v;
     velocity_x := velocity_x self; velocity_y := velocity_y self;
     color := color self |}.

Definition set_velocity_x (self : t) (v : F) : t :=
  {| x := x self; y := y self; start_x := start_x self;
     start_y := start_y self; effect_type := effect_type self;
     life := life self; max_life := max_life self; size := size self;
     velocity_x := v; velocity_y := velocity_y self;
     color := color self |}.

Definition set_velocity_y (self : t) (v : F) : t :=
  {| x := x self; y := y self; start_x := start_x self;
     start_y := start_y self; effect_type := effect_type self;
     life := life self; max_life := max_life self; size := size self;
     velocity_x := velocity_x self; velocity_y := v;
     color := color self |}.

Definition set_color (self : t) (c : QColor.t) : t :=
  {| x := x self; y := y self; start_x := start_x self;
     start_y := start_y self; effect_type := effect_type self;
     life := life self; max_life := max_life self; size := size self;
     velocity_x := velocity_x self; velocity_y := velocity_y self;
     color := c |}.

(** [Particle(x, y, effect_type)].  The celebration and sparkle branches
    draw three random numbers each, in the order of the assignments. *)
Definition __init__ (x0 y0 : F) (effect_type0 : string) (rng : Random F)
  : t * Random F :=
  let self :=
    {| x := x0; y := y0; start_x := x0; start_y := y0;
       effect_type := effect_type0;
       life := lit 1.0; max_life := lit 1.0; size := lit 3.0;
       velocity_x := lit 0; velocity_y := lit 0;
       color := {| QColor.red := 102; QColor.green := 187;
                   QColor.blue := 106; QColor.alpha := 255 |} |} in
  if effect_type0 =? "celebration" then
    let (r1, rng) := random rng in
    let self := set_velocity_x self ((lit 0.5 - r1) * lit 20) in
    let (r2, rng) := random rng in
    let self := set_velocity_y self (lit (-10) - r2 * lit 15) in
    let (r3, rng) := random rng in
    let self := set_size self (lit 4.0 + r3 * lit 3) in
    (set_color self {| QColor.red := 255; QColor.green := 215;
                       QColor.blue := 0; QColor.alpha := 255 |}, rng)
  else if effect_type0 =? "sparkle" then
    let (r1, rng) := random rng in
    let self := set_velocity_x self ((lit 0.5 - r1) * lit 5) in
    let (r2, rng) := random rng in
    let self := set_velocity_y self ((lit 0.5 - r2) * lit 5) in
    let (r3, rng) := random rng in
    (set_size self (lit 2.0 + r3 * lit 2), rng)
  else if effect_type0 =? "pulse" then
    let self := set_size self (lit 8.0) in
    (set_color self {| QColor.red := 102; QColor.green := 187;
                       QColor.blue := 106; QColor.alpha := 200 |}, rng)
  else (self, rng).

(** The motion and pulse branches of [update], after [life] has been
    decremented.  The second component is [None] when [int] or
    [setAlpha] raised; the first is the particle as the branch left
    it. *)
Definition update_effect (self : t) (dt : F) : t * option unit :=
  if effect_type self =? "celebration" then
    let self := set_x self (x self + velocity_x self * dt) in
    let self := set_y self (y self + velocity_y self * dt) in
    (set_velocity_y self (velocity_y self + lit 30 * dt), Some tt)
  else if effect_type self =? "sparkle" then
    let self := set_x self (x self + velocity_x self * dt) in
    (set_y self (y self + velocity_y self * dt), Some tt)
  else if effect_type self =? "pulse" then
    let pulse_progress := lit 1.0 - life self in
    let self := set_size self (lit 8.0 + pulse_progress * lit 20) in
    match int (lit 200 * life self) with
    | Some alpha =>
        match QColor.setAlpha (Z.max 0 alpha) (color self) with
        | Some c => (set_color self c, Some tt)
        | None => (self, None)
        end
    | None => (self, None)
    end
  else (self, Some tt).

(** [Particle.update(dt)]: the particle after the call, and the value
    returned, [None] when the call raised.  The particle is mutated in
    place, so the state reached at a raise is kept. *)
Definition update (self : t) (dt : F) : t * option bool :=
  let self := set_life self (life self - dt * lit 2.0) in
  match update_effect self dt with
  | (self, None) => (self, None)
  | (self, Some _) =>
      if negb (effect_type self =? "pulse") then
        match int (lit 255 * life self) with
        | Some alpha =>
            match QColor.setAlpha (Z.max 0 alpha) (color self) with
            | Some c =>
                let self := set_color self c in
                (self, Some (lit 0 <? life self))
            | None => (self, None)
            end
        | None => (self, None)
        end
      else (self, Some (lit 0 <? life self))
  end.

(** The default of [update]'s parameter, [dt=0.016]; every call in the
    module passes [dt]. *)
Definition default_dt : F := lit 0.016.

(** [n] successive calls [update(dt)] on one particle: the particle
    after them. *)
Fixpoint updates (n : nat) (self : t) (dt : F) : t :=
  match n with
  | O => self
  | S k => updates k (fst (update self dt)) dt
  end.

(** What the [n]-th of these calls returns ([n] from 1). *)
Definition nth_update (n : nat) (self : t) (dt : F) : option bool :=
  snd (update (updates (pred n) self dt) dt).

End Model.

Arguments t F : clear implicits.

End Particle.

(** ** Collaborators of [ParticleSystem.draw]

    The painter is the list of the calls it has carried out, oldest
    first; [drawEllipse(x, y, w, h)] raises unless its four arguments
    are C [int]s.  The view box is its method [mapViewToDevice], which returns a device
    point, returns [None], or raises.  A plot widget either has no
    attribute [getViewBox], or has one that returns a view box or [None]. *)
Module QPainter.

Inductive command : Type :=
| setPen (c : QColor.t) (width : Z)
| setBrush (c : QColor.t)
| drawEllipse (x y w h : Z).

Definition t : Type := list command.

(** The arguments [drawEllipse] accepts. *)
Definition accepts (x y w h : Z) : bool :=
  c_int x && c_int y && c_int w && c_int h.

End QPainter.

Module ViewBox.

Inductive mapped (F : Type) : Type :=
| point (px py : F)
| none
| raises.
Arguments none {F}.
Arguments raises {F}.

Definition t (F : Type) : Type := F -> F -> mapped F.

End ViewBox.

Module PlotWidget.

Inductive t (F : Type) : Type :=
| without_getViewBox
| getViewBox (view_box : option (ViewBox.t F)).
Arguments without_getViewBox {F}.

End PlotWidget.

(** ** ParticleSystem *)

Module ParticleSystem.

Section Model.
Context {F : Type} `{Arith F}.
Local Open Scope string_scope.
Local Open Scope arith_scope.

(** The list holds the particles themselves.  Every element is an object
    of its own: [add_celebration_burst], [add_sparkles] and [add_pulse]
    append newly constructed particles and nothing in the module inserts
    one a second time, so a particle updated in place is one element of
    the list and nothing else. *)
Record t : Type := {
  particles : list (Particle.t F);
  last_update : F
}.

(** [ParticleSystem()]; [now] is what [time.time()] returns. *)
Definition __init__ (now : F) : t :=
  {| particles := []; last_update := now |}.

(** [self.particles.append(p)]. *)
Definition append (self : t) (p : Particle.t F) : t :=
  {| particles := (particles self ++ [p])%list; last_update := last_update self |}.

(** [for _ in range(count): body], on the state the body changes. *)
Fixpoint for_range {S : Type} (count : nat) (body : S -> S) (s : S) : S :=
  match count with
  | O => s
  | S k => for_range k body (body s)
  end.

Definition range (count : Z) : nat := Z.to_nat count.

Definition spawn (x y : F) (effect_type : string) (s : t * Random F)
  : t * Random F :=
  let (p, rng) := Particle.__init__ x y effect_type (snd s) in
  (append (fst s) p, rng).

(** [add_celebration_burst(x, y, count=8)]; [count] is [None] when the
    caller leaves it out. *)
Definition add_celebration_burst (self : t) (x y : F) (count : option Z)
    (rng : Random F) : t * Random F :=
  let count := match count with Some c => c | None => 8%Z end in
  for_range (range count) (spawn x y "celebration") (self, rng).

(** [add_sparkles(x, y, count=3)]. *)
Definition add_sparkles (self : t) (x y : F) (count : option Z)
    (rng : Random F) : t * Random F :=
  let count := match count with Some c => c | None => 3%Z end in
  for_range (range count) (spawn x y "sparkle") (self, rng).

(** [add_pulse(x, y)]. *)
Definition add_pulse (self : t) (x y : F) (rng : Random F)
  : t * Random F :=
  spawn x y "pulse" (self, rng).

(** [[p for p in particles if p.update(dt)]].  The particles are
    updated in place, in order.  The first component is the list that
    was iterated over, as the updates left its particles; the second
    the list built, [None] when an update raised (the particles after
    the raising one are then untouched). *)
Fixpoint comprehension (ps : list (Particle.t F)) (dt : F)
  : list (Particle.t F) * option (list (Particle.t F)) :=
  match ps with
  | [] => ([], Some [])
  | p :: rest =>
      match Particle.update p dt with
      | (p', None) => (p' :: rest, None)
      | (p', Some alive) =>
          let (rest', built) := comprehension rest dt in
          (p' :: rest',
           option_map (fun kept => if alive then p' :: kept else kept)
                      built)
      end
  end.

(** [update()]; [now] is what [time.time()] returns.  The result is
    [None] when the call raised: [last_update] is then already set and
    [particles] is still the old list. *)
Definition update (self : t) (now : F) : t * option unit :=
  let current_time := now in
  let dt := current_time - last_update self in
  match comprehension (particles self) dt with
  | (_, Some built) =>
      ({| particles := built; last_update := current_time |}, Some tt)
  | (old, None) =>
      ({| particles := old; last_update := current_time |}, None)
  end.

(** The body of [draw]'s loop for one particle.  Whatever is raised
    inside [try] (by the mapping, by [int] on the ellipse's arguments,
    which are evaluated after the pen and brush are set, or by
    [drawEllipse] on an argument it does not accept) is caught, and the
    loop continues. *)
Definition draw_particle (painter : QPainter.t) (view_box : ViewBox.t F)
    (particle : Particle.t F) : QPainter.t :=
  match view_box (Particle.x particle) (Particle.y particle) with
  | ViewBox.raises => painter
  | ViewBox.none => painter
  | ViewBox.point px py =>
      let pen := QPainter.setPen (Particle.color particle) 1 in
      let brush := QPainter.setBrush (Particle.color particle) in
      let painter := ((painter ++ [pen]) ++ [brush])%list in
      if Particle.effect_type particle =? "pulse" then
        match int (px - Particle.size particle / lit 2),
              int (py - Particle.size particle / lit 2),
              int (Particle.size particle),
              int (Particle.size particle) with
        | Some a, Some b, Some c, Some d =>
            if QPainter.accepts a b c d
            then (painter ++ [QPainter.drawEllipse a b c d])%list
            else painter
        | _, _, _, _ => painter
        end
      else
        match int (px - Particle.size particle / lit 2),
              int (py - Particle.size particle / lit 2),
              int (Particle.size particle),
              int (Particle.size particle) with
        | Some a, Some b, Some c, Some d =>
            if QPainter.accepts a b c d
            then (painter ++ [QPainter.drawEllipse a b c d])%list
            else painter
        | _, _, _, _ => painter
        end
  end.

(** [draw(painter, plot_widget)]: the particle system and the painter
    after the call. *)
Definition draw (self : t) (painter : QPainter.t)
    (plot_widget : PlotWidget.t F) : t * QPainter.t :=
  match plot_widget with
  | PlotWidget.without_getViewBox => (self, painter)
  | PlotWidget.getViewBox None => (self, painter)
  | PlotWidget.getViewBox (Some view_box) =>
      (self,
       fold_left (fun painter particle =>
                    draw_particle painter view_box particle)
                 (particles self) painter)
  end.

End Model.

Arguments t F : clear implicits.

End ParticleSystem.

(** ** EnhancedGraphWidget: the state [clear_graph] touches

    [uptime_line] is the data of the plotted line, [None] while the line
    has not been created. *)
Module EnhancedGraphWidget.

Section Model.
Context {F : Type} `{Arith F}.

Record t : Type := {
  particle_system : ParticleSystem.t F;
  uptime_history : list F;
  time_points : list Z;
  uptime_line : option (list Z * list F)
}.

(** [clear_graph()]; the module constant [HAS_ENHANCED_GRAPHICS] is a
    parameter.  [list.clear()] empties the list the particle system
    holds. *)
Definition clear_graph (HAS_ENHANCED_GRAPHICS : bool) (self : t) : t :=
  if negb HAS_ENHANCED_GRAPHICS then self
  else
    let system := particle_system self in
    {| uptime_history := [];
       time_points := [];
       particle_system :=
         {| ParticleSystem.particles := [];
            ParticleSystem.last_update :=
              ParticleSystem.last_update system |};
       uptime_line :=
         match uptime_line self with
         | Some _ => Some ([], [])
         | None => None
         end |}.

(** [update_effects()], the timer's callback: the widget after it, and
    whether a repaint was requested. *)
Definition update_effects (HAS_ENHANCED_GRAPHICS : bool) (self : t)
    (now : F) : t * option bool :=
  if negb HAS_ENHANCED_GRAPHICS then (self, Some false)
  else
    let (system, r) := ParticleSystem.update (particle_system self) now in
    let self :=
      {| particle_system := system;
         uptime_history := uptime_history self;
         time_points := time_points self;
         uptime_line := uptime_line self |} in
    match r with
    | None => (self, None)
    | Some _ =>
        (self,
         Some (match ParticleSystem.particles system with
               | [] => false
               | _ :: _ => true
               end))
    end.

End Model.

Arguments t F : clear implicits.

End EnhancedGraphWidget.

(** ** The plot items of [EnhancedGraphWidget]

    A pen as [pg.mkPen] and the two setters leave it, and the fill
    between two curves.  The first curve of the fill is at first the
    plotted line itself, later a curve of its own. *)
Module Pen.

Record t (F : Type) : Type := {
  color : string;
  width : F;
  round_cap : bool;
  round_join : bool
}.

End Pen.

Module FillBetweenItem.

Inductive curve (F : Type) : Type :=
| uptime_line
| PlotCurveItem (x : list Z) (y : list F).
Arguments uptime_line {F}.

Record t (F : Type) : Type := {
  curve1 : curve F;
  curve2 : curve F;
  brush : QColor.t
}.

End FillBetweenItem.

(** ** EnhancedGraphWidget: the whole state

    The state [clear_graph] touches, together with the pen of the line,
    the gradient fill, the glow and the last status, and with the style
    sheet the widget is given without the enhanced graphics. *)
Module EnhancedGraph.

Section Model.
Context {F : Type} `{Arith F}.
Local Open Scope string_scope.
Local Open Scope arith_scope.

Record t : Type := {
  graph : EnhancedGraphWidget.t F;
  line_pen : option (Pen.t F);
  gradient_fill : option (FillBetweenItem.t F);
  last_status : option bool;
  current_glow_intensity : F;
  target_glow_intensity : F;
  style_sheet : string
}.

Definition set_graph (self : t) (g : EnhancedGraphWidget.t F) : t :=
  {| graph := g; line_pen := line_pen self;
     gradient_fill := gradient_fill self; last_status := last_status self;
     current_glow_intensity := current_glow_intensity self;
     target_glow_intensity := target_glow_intensity self;
     style_sheet := style_sheet self |}.

(** An [int] used where the module computes on floats. *)
Definition of_int (z : Z) : F := lit (inject_Z z).

(** [setup_plot_elements()]: with the enhanced graphics it creates the
    line, with its pen, and the fill between the line and an empty
    curve. *)
Definition setup_plot_elements (HAS_ENHANCED_GRAPHICS : bool) (self : t)
  : t :=
  if negb HAS_ENHANCED_GRAPHICS then self
  else
  let glow_pen :=
    {| Pen.color := "#66bb6a"; Pen.width := lit 4;
       Pen.round_cap := true; Pen.round_join := true |} in
  let g := graph self in
  {| graph :=
       {| EnhancedGraphWidget.particle_system :=
            EnhancedGraphWidget.particle_system g;
          EnhancedGraphWidget.uptime_history :=
            EnhancedGraphWidget.uptime_history g;
          EnhancedGraphWidget.time_points :=
            EnhancedGraphWidget.time_points g;
          EnhancedGraphWidget.uptime_line := Some ([], []) |};
     line_pen := Some glow_pen;
     gradient_fill :=
       Some {| FillBetweenItem.curve1 := FillBetweenItem.uptime_line;
               FillBetweenItem.curve2 := FillBetweenItem.PlotCurveItem [] [];
               FillBetweenItem.brush :=
                 {| QColor.red := 102; QColor.green := 187;
                    QColor.blue := 106; QColor.alpha := 50 |} |};
     last_status := last_status self;
     current_glow_intensity := current_glow_intensity self;
     target_glow_intensity := target_glow_intensity self;
     style_sheet := style_sheet self |}.

(** [EnhancedGraphWidget()] with the enhanced graphics (without them the
    constructor returns before it creates any of this state); [now] is
    what [time.time()] returns to the particle system. *)
Definition __init__ (now : F) : t :=
  setup_plot_elements true
    {| graph :=
         {| EnhancedGraphWidget.particle_system :=
              ParticleSystem.__init__ now;
            EnhancedGraphWidget.uptime_history := [];
            EnhancedGraphWidget.time_points := [];
            EnhancedGraphWidget.uptime_line := None |};
       line_pen := None;
       gradient_fill := None;
       last_status := None;
       current_glow_intensity := lit 0.3;
       target_glow_intensity := lit 0.3;
       style_sheet := "" |}.

(** The particles of a status change and the occasional sparkles, the
    last part of [update_with_effects]. *)
Definition status_effects (system : ParticleSystem.t F)
    (time_points : list Z) (uptime_history : list F)
    (status_changed is_up : bool) (rng : Random F)
  : ParticleSystem.t F * Random F :=
  let current_x := of_int (last time_points 0%Z) in
  let current_y := last uptime_history (lit 0) in
  let (system, rng) :=
    if status_changed && (0 <? List.length time_points)%nat then
      if is_up then
        let (system, rng) :=
          ParticleSystem.add_celebration_burst system current_x current_y
            (Some 12%Z) rng in
        ParticleSystem.add_pulse system current_x current_y rng
      else (system, rng)
    else (system, rng) in
  if is_up && (1 <? List.length time_points)%nat then
    let (r, rng) := random rng in
    if r <? lit 0.3 then
      ParticleSystem.add_sparkles system current_x current_y (Some 2%Z) rng
    else (system, rng)
  else (system, rng).

(** [update_with_effects(uptime_data, status_changed, is_up)]: the
    widget and the random source after the call, and [None] when the call
    raised, which it does on a widget whose line or fill is [None].  A
    flag the caller leaves out is [False]. *)
Definition update_with_effects (HAS_ENHANCED_GRAPHICS : bool) (self : t)
    (uptime_data : list F) (status_changed is_up : bool) (rng : Random F)
  : t * Random F * option unit :=
  if negb HAS_ENHANCED_GRAPHICS then
    let color := if is_up then "#1a4a1a" else "#1e1e1e" in
    ({| graph := graph self; line_pen := line_pen self;
        gradient_fill := gradient_fill self;
        last_status := last_status self;
        current_glow_intensity := current_glow_intensity self;
        target_glow_intensity := target_glow_intensity self;
        style_sheet :=
          "background-color: " ++ color ++ "; border: 1px solid #555555;" |},
     rng, Some tt)
  else
    match uptime_data with
    | [] => (self, rng, Some tt)
    | _ :: _ =>
        let uptime_history := uptime_data in
        let time_points :=
          map Z.of_nat (seq 0 (List.length uptime_data)) in
        let target := if is_up then lit 1.0 else lit 0.3 in
        let line_color := if is_up then "#66bb6a" else "#424242" in
        let fill_color :=
          if is_up
          then {| QColor.red := 102; QColor.green := 187;
                  QColor.blue := 106; QColor.alpha := 80 |}
          else {| QColor.red := 66; QColor.green := 66;
                  QColor.blue := 66; QColor.alpha := 30 |} in
        let current :=
          current_glow_intensity self
          + (target - current_glow_intensity self) * lit 0.1 in
        let glow_width := lit 2 + current * lit 3 in
        let glow_pen :=
          {| Pen.color := line_color; Pen.width := glow_width;
             Pen.round_cap := true; Pen.round_join := false |} in
        let system := EnhancedGraphWidget.particle_system (graph self) in
        let stored (line : option (list Z * list F))
            (pen : option (Pen.t F))
            (fill : option (FillBetweenItem.t F))
            (system : ParticleSystem.t F) (status : option bool) :=
          {| graph :=
               {| EnhancedGraphWidget.particle_system := system;
                  EnhancedGraphWidget.uptime_history := uptime_history;
                  EnhancedGraphWidget.time_points := time_points;
                  EnhancedGraphWidget.uptime_line := line |};
             line_pen := pen;
             gradient_fill := fill;
             last_status := status;
             current_glow_intensity := current;
             target_glow_intensity := target;
             style_sheet := style_sheet self |} in
        match EnhancedGraphWidget.uptime_line (graph self) with
        | None =>
            (stored None (line_pen self) (gradient_fill self) system
               (last_status self), rng, None)
        | Some _ =>
            let line := Some (time_points, uptime_history) in
            match gradient_fill self with
            | None =>
                (stored line (Some glow_pen) None system (last_status self),
                 rng, None)
            | Some _ =>
                let zero_line :=
                  repeat (lit 0) (List.length uptime_history) in
                let fill :=
                  {| FillBetweenItem.curve1 :=
                       FillBetweenItem.PlotCurveItem time_points
                         uptime_history;
                     FillBetweenItem.curve2 :=
                       FillBetweenItem.PlotCurveItem time_points zero_line;
                     FillBetweenItem.brush := fill_color |} in
                let (system, rng) :=
                  status_effects system time_points uptime_history
                    status_changed is_up rng in
                (stored line (Some glow_pen) (Some fill) system
                   (Some is_up), rng, Some tt)
            end
        end
    end.

(** [update_effects()] and [clear_graph()], which touch the state above
    only. *)
Definition update_effects (HAS_ENHANCED_GRAPHICS : bool) (self : t)
    (now : F) : t * option bool :=
  let (g, r) :=
    EnhancedGraphWidget.update_effects HAS_ENHANCED_GRAPHICS (graph self)
      now in
  (set_graph self g, r).

Definition clear_graph (HAS_ENHANCED_GRAPHICS : bool) (self : t) : t :=
  set_graph self
    (EnhancedGraphWidget.clear_graph HAS_ENHANCED_GRAPHICS (graph self)).

End Model.

Arguments t F : clear implicits.

End EnhancedGraph.

(** ** Vocabulary of the properties *)

Section Vocabulary.
Context {F : Type} `{Arith F}.
Local Open Scope string_scope.
Local Open Scope arith_scope.

(** [life > 0], the test [update] returns. *)
Definition alive (p : Particle.t F) : bool := lit 0 <? Particle.life p.

(** The factor of the alpha formula [update] applies to a particle. *)
Definition alpha_scale (p : Particle.t F) : F :=
  if Particle.effect_type p =? "pulse" then lit 200 else lit 255.

(** The size [update] gives a pulse particle whose life is [l]. *)
Definition pulse_size (l : F) : F := lit 8.0 + (lit 1.0 - l) * lit 20.

(** A particle of a type the constructor does not know. *)
Definition unknown_type (effect_type : string) : Prop :=
  effect_type <> "celebration" /\ effect_type <> "sparkle"
  /\ effect_type <> "pulse".

(** The particle [update(dt)] leaves behind. *)
Definition updated (dt : F) (p : Particle.t F) : Particle.t F :=
  fst (Particle.update p dt).

(** A particle of type [effect_type] positioned at [(x, y)]. *)
Definition spawned_at (x y : F) (effect_type : string) (p : Particle.t F)
  : Prop :=
  Particle.effect_type p = effect_type
  /\ Particle.x p = x /\ Particle.y p = y.

(** The sizes a particle takes over successive calls [update(dt)], one
    [dt] of the list per call. *)
Fixpoint sizes (p : Particle.t F) (dts : list F) : list F :=
  match dts with
  | [] => []
  | dt :: rest => Particle.size (updated dt p) :: sizes (updated dt p) rest
  end.

(** The colour a particle of an unknown type is given. *)
Definition default_green : QColor.t :=
  {| QColor.red := 102; QColor.green := 187; QColor.blue := 106;
     QColor.alpha := 255 |}.

End Vocabulary.

(** [kept] is [l] with some elements left out, the others in the order
    they have in [l]. *)
Inductive Subsequence {A : Type} : list A -> list A -> Prop :=
| Subsequence_nil : Subsequence [] []
| Subsequence_keep a kept l :
    Subsequence kept l -> Subsequence (a :: kept) (a :: l)
| Subsequence_drop a kept l :
    Subsequence kept l -> Subsequence kept (a :: l).

(** The number of calls within which the specification says a new particle
    dies, [ceil(0.5 / (2*dt))], and the number of calls a life of 1.0
    decremented by [2*dt] takes, [ceil(0.5 / dt)]. *)
Definition stated_calls (dt : Q) : Z := Qceiling (0.5 / (2 * dt)).
Definition lifetime_calls (dt : Q) : Z := Qceiling (0.5 / dt).

(** The bound in binary64, where the rounding of [life - dt*2.0] can
    leave a residue above 0 for one more call: [ceil(0.5 / dt) + 1], of
    the number [dt] stands for. *)
Definition lifetime_calls64 (dt : float) : Z :=
  match Binary64.to_Q dt with
  | Some q => lifetime_calls q + 1
  | None => 0
  end.

(** The alpha the specification states: [round(c * life)], clamped below
    at 0. *)
Definition stated_alpha (c life : Q) : Z :=
  Z.max 0 (Qround_half_even (c * life)).

(** ** Vocabulary of the properties of drawing and of time *)

Section MoreVocabulary.
Context {F : Type} `{Arith F}.

(** Two particles that agree on what [draw] reads. *)
Definition same_look (p q : Particle.t F) : Prop :=
  Particle.x p = Particle.x q /\ Particle.y p = Particle.y q
  /\ Particle.size p = Particle.size q
  /\ Particle.color p = Particle.color q.

(** The calls one particle adds to the painter in a frame: none when its
    mapping fails; the pen and the brush alone when a conversion of the
    ellipse's arguments fails or the painter does not accept them;
    otherwise pen, brush and a circle of diameter [int(size)]. *)
Definition strokes (view_box : ViewBox.t F) (p : Particle.t F)
  : list QPainter.command :=
  let pen := QPainter.setPen (Particle.color p) 1 in
  let brush := QPainter.setBrush (Particle.color p) in
  match view_box (Particle.x p) (Particle.y p) with
  | ViewBox.point px py =>
      match int (fsub px (fdiv (Particle.size p) (lit 2))),
            int (fsub py (fdiv (Particle.size p) (lit 2))),
            int (Particle.size p) with
      | Some a, Some b, Some d =>
          if QPainter.accepts a b d d
          then [pen; brush; QPainter.drawEllipse a b d d]
          else [pen; brush]
      | _, _, _ => [pen; brush]
      end
  | _ => []
  end.

End MoreVocabulary.

(** [lo <= v <= hi] in binary64, as the interpreter compares. *)
Definition within64 (lo : Q) (v : float) (hi : Q) : Prop :=
  Binary64.le (lit lo) v /\ Binary64.le v (lit hi).

(** A clock that does not run backwards, read at most 1e299 seconds
    after the last reading. *)
Definition steady_clock (last now : float) : Prop :=
  within64 0 (fsub now last) 1e299.

(** What holds of every particle of a widget under such a clock. *)
Definition healthy (p : Particle.t float) : Prop :=
  alive p = true /\ Binary64.le (Particle.life p) (lit 1.0)
  /\ (0 <= QColor.alpha (Particle.color p) <= 255)%Z.

(** ** Vocabulary of the widget's properties *)

Section WidgetVocabulary.
Context {F : Type} `{Arith F}.
Local Open Scope string_scope.

(** The particles a widget holds. *)
Definition particles_of (self : EnhancedGraph.t F) : list (Particle.t F) :=
  ParticleSystem.particles
    (EnhancedGraphWidget.particle_system (EnhancedGraph.graph self)).

(** The time of the last update of the particles of a widget. *)
Definition clock_of (self : EnhancedGraph.t F) : F :=
  ParticleSystem.last_update
    (EnhancedGraphWidget.particle_system (EnhancedGraph.graph self)).

(** The states of a widget with the enhanced graphics: the constructed
    widget, and what the calls of its methods make of it, whether they
    return or raise.  [tick last now] is what is assumed of the clock
    when [update_effects] reads [now] after [last]. *)
Inductive reachable (tick : F -> F -> Prop) : EnhancedGraph.t F -> Prop :=
| reachable_init (now : F) : reachable tick (EnhancedGraph.__init__ now)
| reachable_update_with_effects (self : EnhancedGraph.t F)
    (uptime_data : list F) (status_changed is_up : bool) (rng : Random F) :
    reachable tick self ->
    reachable tick
      (fst (fst (EnhancedGraph.update_with_effects true self uptime_data
                   status_changed is_up rng)))
| reachable_update_effects (self : EnhancedGraph.t F) (now : F) :
    reachable tick self -> tick (clock_of self) now ->
    reachable tick (fst (EnhancedGraph.update_effects true self now))
| reachable_clear_graph (self : EnhancedGraph.t F) :
    reachable tick self ->
    reachable tick (EnhancedGraph.clear_graph true self).

(** No assumption on the clock. *)
Definition any_clock (last now : F) : Prop := True.

(** The hue of a colour, and the hue the constructor gives each type. *)
Definition hue (c : QColor.t) : Z * Z * Z :=
  (QColor.red c, QColor.green c, QColor.blue c).

Definition styled (p : Particle.t F) : Prop :=
  (Particle.effect_type p = "celebration"
   /\ hue (Particle.color p) = (255, 215, 0)%Z)
  \/ ((Particle.effect_type p = "sparkle"
       \/ Particle.effect_type p = "pulse")
      /\ hue (Particle.color p) = (102, 187, 106)%Z).

(** A particle built at [(x, y)] with one of the three types. *)
Definition born_at (x y : F) (p : Particle.t F) : Prop :=
  exists effect_type rng,
    p = fst (Particle.__init__ x y effect_type rng)
    /\ (effect_type = "celebration" \/ effect_type = "sparkle"
        \/ effect_type = "pulse").

(** The abscissas [range(n)] of a history of [n] values. *)
Definition abscissas (n : nat) : list Z := map Z.of_nat (seq 0 n).

End WidgetVocabulary.

(** ** Sample inputs *)

Module Sample.

Local Open Scope string_scope.

(** Every draw of the generator is 0.25. *)
Definition draws {F : Type} `{Arith F} : Random F := fun _ => lit 0.25.

Definition particle {F : Type} `{Arith F} (effect_type : string)
  : Particle.t F :=
  fst (Particle.__init__ (lit 10) (lit 20) effect_type draws).

(** A system holding a sparkle, a pulse and a celebration particle, the
    sparkle near the end of its life. *)
Definition system {F : Type} `{Arith F} : ParticleSystem.t F :=
  {| ParticleSystem.particles :=
       [ Particle.set_life (particle "sparkle") (lit 0.5);
         particle "pulse"; particle "celebration" ];
     ParticleSystem.last_update := lit 100 |}.

Definition widget {F : Type} `{Arith F} : EnhancedGraphWidget.t F :=
  {| EnhancedGraphWidget.particle_system := system;
     EnhancedGraphWidget.uptime_history := [lit 99.5; lit 100];
     EnhancedGraphWidget.time_points := [0%Z; 1%Z];
     EnhancedGraphWidget.uptime_line := Some ([0%Z; 1%Z], [lit 99.5; lit 100]) |}.

(** Three particles, the middle one moved to abscissa 11. *)
Definition scene : ParticleSystem.t Q :=
  {| ParticleSystem.particles :=
       [ particle "sparkle"; Particle.set_x (particle "pulse") 11;
         particle "celebration" ];
     ParticleSystem.last_update := 100 |}.

(** The samples in binary64. *)
Definition sparkle64 : Particle.t float := particle "sparkle".
Definition pulse64 : Particle.t float := particle "pulse".
Definition celebration64 : Particle.t float := particle "celebration".
Definition system64 : ParticleSystem.t float := system.

(** A view box that maps a point to itself, except that it raises on
    the points whose abscissa is [bad]. *)
Definition view_box (bad : Q) : ViewBox.t Q :=
  fun px py => if Qeq_bool px bad then ViewBox.raises
               else ViewBox.point px py.

(** The same in binary64, and a view box zoomed in so far that every
    device abscissa is 1e10. *)
Definition scene64 : ParticleSystem.t float :=
  {| ParticleSystem.particles :=
       [ sparkle64; Particle.set_x pulse64 (lit 11); celebration64 ];
     ParticleSystem.last_update := lit 100 |}.

Definition view_box64 (bad : float) : ViewBox.t float :=
  fun px py => if PrimFloat.eqb px bad then ViewBox.raises
               else ViewBox.point px py.

Definition zoomed64 : ViewBox.t float :=
  fun _ py => ViewBox.point (lit 1e10) py.

(** A system whose second particle has a life that is not a number. *)
Definition broken64 : ParticleSystem.t float :=
  {| ParticleSystem.particles :=
       [ sparkle64; Particle.set_life pulse64 PrimFloat.nan;
         celebration64 ];
     ParticleSystem.last_update := lit 100 |}.

(** A sparkle with the position, the size and the colour of the sample
    pulse. *)
Definition disguised {F : Type} `{Arith F} : Particle.t F :=
  Particle.set_color (Particle.set_size (particle "sparkle") (lit 8.0))
    (Particle.color (particle "pulse")).

(** A widget as constructed at time 100, and after it has been shown two
    values at the moment the server came up. *)
Definition fresh {F : Type} `{Arith F} : EnhancedGraph.t F :=
  EnhancedGraph.__init__ (lit 100).

Definition shown {F : Type} `{Arith F} : EnhancedGraph.t F :=
  fst (fst (EnhancedGraph.update_with_effects true fresh
              [lit 99.5; lit 100] true true draws)).

Definition fresh64 : EnhancedGraph.t float := fresh.
Definition shown64 : EnhancedGraph.t float := shown.
Definition shownQ : EnhancedGraph.t Q := shown.

End Sample.

(** ** Rounding in binary64, on integers

    The value of every binary64 float, and of every exact sum or product
    of two floats, is an integer multiple of [2^-scale].  [rank] is the
    value of a float in that unit, an infinity counting as [top], the
    first power of two past the largest float.  [fl] rounds a non-negative
    exact value to the nearest float, ties to the even mantissa, as
    [SpecFloat.binary_round_aux] does; [rounded] is its extension to
    signed values with overflow to the infinities. *)
Module Rounding.

Local Open Scope Z_scope.

(** The unit is [2^-scale]; [top] is [2^1024] in that unit. *)
Definition scale : Z := 2200.
Definition top : Z := 2 ^ (1024 + scale).

(** [a / 2^n] rounded to the nearest integer, ties to even. *)
Definition rne (a n : Z) : Z :=
  let q := a / 2 ^ n in
  match 2 * (a mod 2 ^ n) ?= 2 ^ n with
  | Lt => q
  | Eq => if Z.even q then q else q + 1
  | Gt => q + 1
  end.

(** The exponent, in the unit, of the floats around [v]. *)
Definition grid (v : Z) : Z := Z.max (Z.log2 v + 1 - 53) (scale - 1074).

(** [v] rounded to a float, overflow aside. *)
Definition fl (v : Z) : Z := rne v (grid v) * 2 ^ grid v.

(** A signed [v] rounded to a float or an infinity. *)
Definition rounded (v : Z) : Z :=
  if 0 <=? v then Z.min (fl v) top else - Z.min (fl (- v)) top.

(** The round bit [r] and the sticky bit [s] locate the remainder [rem]
    of a division by [pw] with respect to [pw / 2]. *)
Definition located (r s : bool) (rem pw : Z) : Prop :=
  match r, s with
  | false, false => rem = 0
  | false, true => 0 < 2 * rem < pw
  | true, false => 2 * rem = pw
  | true, true => pw < 2 * rem
  end.

(** [mrs] is [a] shifted right by [n] bits. *)
Definition shifted (a n : Z) (mrs : shr_record) : Prop :=
  0 <= shr_m mrs
  /\ exists rem,
       a = shr_m mrs * 2 ^ n + rem /\ 0 <= rem < 2 ^ n
       /\ located (shr_r mrs) (shr_s mrs) rem (2 ^ n).

(** The value of a float in the unit. *)
Definition rank (x : spec_float) : Z :=
  match x with
  | S754_zero _ => 0
  | S754_finite s m e => cond_Zopp s (Zpos m * 2 ^ (e + scale))
  | S754_infinity s => cond_Zopp s top
  | S754_nan => 0
  end.

Definition not_nan (x : spec_float) : Prop :=
  match x with S754_nan => False | _ => True end.

Definition finite_or_zero (x : spec_float) : Prop :=
  match x with
  | S754_zero _ | S754_finite _ _ _ => True
  | S754_infinity _ | S754_nan => False
  end.

(** A function of the rank of a finite float, extended to the
    infinities. *)
Definition lift (S : Z -> Z) (y : spec_float) : Z :=
  match y with
  | S754_infinity s => cond_Zopp s top
  | _ => S (rank y)
  end.

(** The rank of the product by the float [mc * 2^ec], from the rank of
    the other factor. *)
Definition scaled_by (mc : positive) (ec : Z) (r : Z) : Z :=
  rounded (r * (Zpos mc * 2 ^ (ec + scale)) / 2 ^ scale).

(** Rank of a primitive float, and the floats that compare: all but the
    NaNs. *)
Definition frank (f : float) : Z := rank (Prim2SF f).
Definition ordered (f : float) : Prop := not_nan (Prim2SF f).

End Rounding.

Ltac unfold_shifted :=
  unfold Rounding.shifted, Rounding.located in *;
  cbn [shr_1 shr_m shr_r shr_s orb] in *.

Ltac decide_compare :=
  f_equal; symmetry;
  first [ apply Z.compare_eq_iff; lia
        | apply Z.compare_lt_iff; lia
        | apply Z.compare_gt_iff; lia ].

Unset Implicit Arguments.

(** ** Particle.update: the shape of a call *)

Section ParticleUpdate.
Context {F : Type} `{Arith F}.
Local Open Scope string_scope.
Local Open Scope arith_scope.

Ltac resolve_effect :=
  cbn;
  repeat match goal with
         | E : Particle.effect_type ?p = _
           |- context [Particle.effect_type ?p =? _] => rewrite !E; cbn
         | E : Particle.effect_type ?p <> ?s
           |- context [Particle.effect_type ?p =? ?s] =>
             rewrite (proj2 (String.eqb_neq (Particle.effect_type p) s) E);
             cbn
         end.

Ltac by_effect p :=
  unfold Particle.update, Particle.update_effect, QColor.setAlpha,
    alpha_scale, int;
  destruct (String.eqb_spec (Particle.effect_type p) "celebration")
    as [Etype|Ecelebration];
  [ | destruct (String.eqb_spec (Particle.effect_type p) "sparkle")
        as [Etype|Esparkle];
      [ | destruct (String.eqb_spec (Particle.effect_type p) "pulse")
            as [Etype|Epulse] ] ];
  resolve_effect.

Ltac by_cases_of_update :=
  repeat (match goal with
          | |- context [value ?e] => destruct (value e)
          | |- context [c_int ?a] => destruct (c_int a)
          end; resolve_effect).

Lemma update_life (p : Particle.t F) (dt : F) :
  Particle.life (updated dt p) = Particle.life p - dt * lit 2.0.
Proof.
  unfold updated. by_effect p; by_cases_of_update; reflexivity.
Qed.

Lemma update_effect_type (p : Particle.t F) (dt : F) :
  Particle.effect_type (updated dt p) = Particle.effect_type p.
Proof.
  unfold updated. by_effect p; by_cases_of_update; congruence.
Qed.

(** The call returns exactly when [int] succeeds on the product of the
    alpha formula and [setAlpha] accepts the result, and then returns
    [life > 0]. *)
Lemma update_result (p : Particle.t F) (dt : F) :
  snd (Particle.update p dt)
  = match int (alpha_scale p * Particle.life (updated dt p)) with
    | Some a =>
        if c_int (Z.max 0 a) then Some (alive (updated dt p)) else None
    | None => None
    end.
Proof.
  rewrite update_life. unfold updated, alive.
  by_effect p; by_cases_of_update; reflexivity.
Qed.

Lemma update_returns_alive (p : Particle.t F) (dt : F) (b : bool) :
  snd (Particle.update p dt) = Some b -> b = alive (updated dt p).
Proof.
  rewrite update_result. destruct (int _); [ | discriminate].
  destruct (c_int _); congruence.
Qed.

Lemma update_alpha (p : Particle.t F) (dt : F) (b : bool) :
  snd (Particle.update p dt) = Some b ->
  exists a,
    int (alpha_scale p * Particle.life (updated dt p)) = Some a
    /\ c_int (Z.max 0 a) = true
    /\ QColor.alpha (Particle.color (updated dt p))
       = Z.max 0 (Z.min (Z.max 0 a) 255).
Proof.
  rewrite update_life. unfold updated.
  by_effect p;
    match goal with
    | |- context [value ?e] => destruct (value e) as [q|]
    end; resolve_effect;
    try match goal with
        | |- context [c_int ?a] => destruct (c_int a) eqn:Ec
        end; resolve_effect; intros E; try discriminate;
    eexists; repeat split; (reflexivity || exact Ec).
Qed.

(** Only celebration and sparkle particles move. *)
Lemma update_position (p : Particle.t F) (dt : F) :
  Particle.effect_type p <> "celebration" ->
  Particle.effect_type p <> "sparkle" ->
  Particle.x (updated dt p) = Particle.x p
  /\ Particle.y (updated dt p) = Particle.y p.
Proof.
  intros Hc Hs. unfold updated.
  by_effect p; try contradiction;
    by_cases_of_update; split; reflexivity.
Qed.

Lemma update_pulse_size (p : Particle.t F) (dt : F) :
  Particle.effect_type p = "pulse" ->
  Particle.size (updated dt p) = pulse_size (Particle.life (updated dt p)).
Proof.
  intros Hp. rewrite update_life. unfold updated, pulse_size.
  by_effect p; try congruence.
  by_cases_of_update; reflexivity.
Qed.

(** What [update] never assigns: the type, the start position, the
    maximal life, the horizontal velocity and the hue. *)
Lemma update_constants (p : Particle.t F) (dt : F) :
  Particle.start_x (updated dt p) = Particle.start_x p
  /\ Particle.start_y (updated dt p) = Particle.start_y p
  /\ Particle.max_life (updated dt p) = Particle.max_life p
  /\ Particle.velocity_x (updated dt p) = Particle.velocity_x p
  /\ QColor.red (Particle.color (updated dt p))
     = QColor.red (Particle.color p)
  /\ QColor.green (Particle.color (updated dt p))
     = QColor.green (Particle.color p)
  /\ QColor.blue (Particle.color (updated dt p))
     = QColor.blue (Particle.color p).
Proof.
  unfold updated. by_effect p; by_cases_of_update; repeat split.
Qed.

Lemma update_velocity_y (p : Particle.t F) (dt : F) :
  Particle.velocity_y (updated dt p)
  = if Particle.effect_type p =? "celebration"
    then Particle.velocity_y p + lit 30 * dt
    else Particle.velocity_y p.
Proof.
  unfold updated. by_effect p; by_cases_of_update; reflexivity.
Qed.

Lemma update_size (p : Particle.t F) (dt : F) :
  Particle.effect_type p <> "pulse" ->
  Particle.size (updated dt p) = Particle.size p.
Proof.
  intros Hp. unfold updated.
  by_effect p; try contradiction; by_cases_of_update; reflexivity.
Qed.

(** The motion of the two moving types. *)
Lemma update_moves (p : Particle.t F) (dt : F) :
  Particle.effect_type p = "celebration"
  \/ Particle.effect_type p = "sparkle" ->
  Particle.x (updated dt p) = Particle.x p + Particle.velocity_x p * dt
  /\ Particle.y (updated dt p) = Particle.y p + Particle.velocity_y p * dt.
Proof.
  intros Ht. unfold updated.
  by_effect p; try (destruct Ht; congruence);
    by_cases_of_update; split; reflexivity.
Qed.

End ParticleUpdate.

(** ** Facts of the two arithmetics *)

Lemma Qtrunc_nonpos (q : Q) : q <= 0 -> (Qtrunc q <= 0)%Z.
Proof.
  unfold Qle, Qtrunc; cbn. rewrite Z.mul_1_r. intros Hq.
  apply Z.quot_le_upper_bound; [lia | nia].
Qed.

Lemma Qltb_lt (a b : Q) : Qltb a b = true <-> a < b.
Proof.
  unfold Qltb. rewrite negb_true_iff, <- not_true_iff_false, Qle_bool_iff.
  split; [apply Qnot_le_lt | apply Qlt_not_le].
Qed.

Lemma Qltb_ge (a b : Q) : Qltb a b = false <-> b <= a.
Proof.
  unfold Qltb. rewrite negb_false_iff. apply Qle_bool_iff.
Qed.

Section Binary64Facts.
Import Binary64.

Lemma binary_round_aux_signed (sx : bool) (mx ex : Z) (lx : location) :
  signed sx (binary_round_aux prec emax sx mx ex lx).
Proof.
  unfold binary_round_aux.
  destruct (shr_fexp prec emax mx ex lx) as [mrs' e'].
  destruct (shr_fexp prec emax _ e' loc_Exact) as [mrs'' e''].
  destruct (shr_m mrs''); cbn; auto.
  destruct (Z.leb _ _); cbn; auto.
Qed.

Lemma Qpow2_pos (e : Z) : 0 < Qpow2 e.
Proof.
  destruct e; cbn; try reflexivity.
  unfold Qlt; cbn. rewrite Z.mul_1_r, Z.pow_pos_fold.
  apply Z.pow_pos_nonneg; lia.
Qed.

Lemma SF2Q_negative (m : positive) (e : Z) (q : Q) :
  SF2Q (S754_finite true m e) = Some q -> q <= 0.
Proof.
  cbn. intros [= <-]. pose proof (Qpow2_pos e) as Hp.
  setoid_replace 0 with (0 * Qpow2 e) by ring.
  apply Qmult_le_compat_r; [ | apply Qlt_le_weak, Hp].
  unfold Qle; cbn; lia.
Qed.

(** A float that is not above zero is a zero, negative, or a NaN. *)
Lemma not_above_zero (l : float) :
  PrimFloat.ltb 0 l = false ->
  match Prim2SF l with
  | S754_zero _ | S754_nan | S754_infinity true | S754_finite true _ _ => True
  | S754_infinity false | S754_finite false _ _ => False
  end.
Proof.
  rewrite ltb_spec. replace (Prim2SF 0) with (S754_zero false) by reflexivity.
  destruct (Prim2SF l) as [s|s| |s m e]; cbn; try destruct s; cbn; auto;
    discriminate.
Qed.

(** The product of a positive constant and a float that is not above
    zero does not truncate to a positive integer. *)
Lemma int_mul_not_above_zero (c l : float) (mc : positive) (ec a : Z) :
  Prim2SF c = S754_finite false mc ec ->
  PrimFloat.ltb 0 l = false ->
  int (fmul c l) = Some a -> (a <= 0)%Z.
Proof.
  intros Hc Hl. apply not_above_zero in Hl.
  unfold int; cbn [value fmul binary64]. unfold to_Q.
  rewrite mul_spec, Hc.
  destruct (Prim2SF l) as [s|s| |s m e]; cbn;
    try discriminate; try contradiction.
  - intros [= <-]. reflexivity.
  - destruct s; try contradiction.
    pose proof (binary_round_aux_signed true (Zpos (mc * m)) (ec + e)
                  loc_Exact) as Hs.
    unfold SF64mul, SFmul. cbn [xorb].
    destruct (binary_round_aux _ _ _ _ _ _) as [s|s| |s m' e'];
      cbn in Hs |- *; try discriminate.
    + intros [= <-]. reflexivity.
    + subst s. intros [= <-]. apply Qtrunc_nonpos.
      eapply SF2Q_negative. reflexivity.
Qed.

(** A float equal to zero is one of the two zeros. *)
Lemma equal_to_zero (l : float) :
  PrimFloat.eqb l 0 = true -> exists s, Prim2SF l = S754_zero s.
Proof.
  rewrite eqb_spec. replace (Prim2SF 0) with (S754_zero false) by reflexivity.
  destruct (Prim2SF l) as [s|s| |s m e]; cbn; try destruct s; cbn;
    try discriminate; eauto.
Qed.

Lemma int_mul_zero (c l : float) (mc : positive) (ec : Z) (sc : bool) :
  Prim2SF c = S754_finite sc mc ec ->
  PrimFloat.eqb l 0 = true ->
  int (fmul c l) = Some 0%Z /\ PrimFloat.ltb 0 l = false.
Proof.
  intros Hc Hl. destruct (equal_to_zero l Hl) as [s Hs]. split.
  - unfold int; cbn [value fmul binary64]. unfold to_Q.
    rewrite mul_spec, Hc, Hs. reflexivity.
  - rewrite ltb_spec, Hs. reflexivity.
Qed.

Lemma alpha_scale_finite (p : Particle.t float) :
  exists mc ec, Prim2SF (alpha_scale p) = S754_finite false mc ec.
Proof.
  unfold alpha_scale. destruct (String.eqb _ _); vm_compute; eauto.
Qed.

End Binary64Facts.

(** ** Rounding in binary64 is monotone *)

Section RoundingFacts.
Import Rounding.
Local Open Scope Z_scope.

Lemma rne_bounds a n : 0 <= n -> a / 2 ^ n <= rne a n <= a / 2 ^ n + 1.
Proof.
  intros Hn. unfold rne. destruct (_ ?= _); try destruct (Z.even _); lia.
Qed.

Lemma rne_monotone a b n : 0 <= n -> a <= b -> rne a n <= rne b n.
Proof.
  intros Hn Hab.
  assert (0 < 2 ^ n) as Hp by (apply Z.pow_pos_nonneg; lia).
  pose proof (Z.div_le_mono a b (2 ^ n) Hp Hab) as Hq.
  destruct (Z.eq_dec (a / 2 ^ n) (b / 2 ^ n)) as [E|E].
  - assert (a mod 2 ^ n <= b mod 2 ^ n) as Hr.
    { rewrite !Z.mod_eq by lia. rewrite E. lia. }
    unfold rne. rewrite E.
    destruct (2 * (a mod 2 ^ n) ?= 2 ^ n) eqn:Ca;
      destruct (2 * (b mod 2 ^ n) ?= 2 ^ n) eqn:Cb;
      try destruct (Z.even _);
      try apply Z.compare_eq in Ca; try apply Z.compare_eq in Cb;
      rewrite ?Z.compare_lt_iff, ?Z.compare_gt_iff in *; lia.
  - pose proof (rne_bounds a n Hn). pose proof (rne_bounds b n Hn). lia.
Qed.

Lemma rne_exact c n : 0 <= n -> rne (c * 2 ^ n) n = c.
Proof.
  intros Hn. assert (0 < 2 ^ n) as Hp by (apply Z.pow_pos_nonneg; lia).
  unfold rne. rewrite Z.mod_mul, Z.div_mul by lia.
  destruct (Z.compare_spec (2 * 0) (2 ^ n)); lia.
Qed.

Lemma rne_ge a c n : 0 <= n -> c * 2 ^ n <= a -> c <= rne a n.
Proof.
  intros Hn Ha. rewrite <- (rne_exact c n Hn). now apply rne_monotone.
Qed.

Lemma rne_le a c n : 0 <= n -> a <= c * 2 ^ n -> rne a n <= c.
Proof.
  intros Hn Ha. rewrite <- (rne_exact c n Hn). now apply rne_monotone.
Qed.

Lemma grid_nonneg v : 0 <= grid v.
Proof. unfold grid, scale. lia. Qed.

Lemma grid_monotone v w : 0 < v -> v <= w -> grid v <= grid w.
Proof.
  intros Hv Hw. unfold grid. pose proof (Z.log2_le_mono v w Hw). lia.
Qed.

Lemma fl_monotone v w : 0 < v -> v <= w -> fl v <= fl w.
Proof.
  intros Hv Hw. unfold fl.
  pose proof (grid_nonneg v) as Gv. pose proof (grid_nonneg w) as Gw.
  pose proof (grid_monotone v w Hv Hw) as Gvw.
  destruct (Z.eq_dec (grid v) (grid w)) as [E|E].
  - rewrite E. apply Z.mul_le_mono_nonneg_r; [apply Z.pow_nonneg; lia | ].
    now apply rne_monotone.
  - assert (grid w = Z.log2 w + 1 - 53) as Ew by (unfold grid in *; lia).
    assert (Z.log2 v + 1 - 53 <= grid v) as Ev by (unfold grid; lia).
    destruct (Z.log2_spec v Hv) as [_ Hv2].
    destruct (Z.log2_spec w ltac:(lia)) as [Hw1 _].
    assert (rne v (grid v) <= 2 ^ 53) as Hlo.
    { apply rne_le; [lia | ]. rewrite <- Z.pow_add_r by lia.
      transitivity (2 ^ Z.succ (Z.log2 v)); [lia | ].
      apply Z.pow_le_mono_r; lia. }
    assert (2 ^ 52 <= rne w (grid w)) as Hhi.
    { apply rne_ge; [lia | ]. rewrite <- Z.pow_add_r by lia.
      replace (52 + grid w) with (Z.log2 w) by lia. exact Hw1. }
    transitivity (2 ^ 53 * 2 ^ grid v).
    + apply Z.mul_le_mono_nonneg_r; [apply Z.pow_nonneg; lia | exact Hlo].
    + transitivity (2 ^ 52 * 2 ^ grid w).
      * rewrite <- !Z.pow_add_r by lia. apply Z.pow_le_mono_r; lia.
      * apply Z.mul_le_mono_nonneg_r; [apply Z.pow_nonneg; lia | exact Hhi].
Qed.

Lemma fl_zero : fl 0 = 0.
Proof.
  assert (0 < 2 ^ grid 0)
    by (apply Z.pow_pos_nonneg; [lia | apply grid_nonneg]).
  unfold fl, rne. rewrite Z.div_0_l, Z.mod_0_l by lia.
  destruct (Z.compare_spec (2 * 0) (2 ^ grid 0)); cbn [Z.even]; lia.
Qed.

Lemma fl_nonneg v : 0 <= v -> 0 <= fl v.
Proof.
  intros Hv. unfold fl. pose proof (grid_nonneg v).
  apply Z.mul_nonneg_nonneg; [ | apply Z.pow_nonneg; lia].
  pose proof (rne_bounds v (grid v) ltac:(lia)).
  pose proof (Z.div_pos v (2 ^ grid v) Hv ltac:(apply Z.pow_pos_nonneg; lia)).
  lia.
Qed.

(** Digits *)
Lemma digits2_size (m : positive) : digits2_pos m = Pos.size m.
Proof. induction m; cbn; congruence. Qed.

Lemma size_bounds (m : positive) :
  2 ^ (Zpos (Pos.size m) - 1) <= Zpos m < 2 ^ Zpos (Pos.size m).
Proof.
  pose proof (Pos.size_gt m) as Hgt. pose proof (Pos.size_le m) as Hle.
  apply Pos2Z.pos_lt_pos in Hgt. apply Pos2Z.pos_le_pos in Hle.
  rewrite Pos2Z.inj_pow in Hgt, Hle.
  split; [ | exact Hgt].
  assert (2 ^ Z.pos (Pos.size m) = 2 * 2 ^ (Z.pos (Pos.size m) - 1)) as E.
  { rewrite <- Z.pow_succ_r by lia. f_equal. lia. }
  change ((2 * 1) ^ Z.pos (Pos.size m)) with (2 ^ Z.pos (Pos.size m)) in Hle.
  lia.
Qed.

Lemma log2_size (m : positive) : Z.log2 (Zpos m) + 1 = Zpos (Pos.size m).
Proof.
  pose proof (size_bounds m) as [H1 H2].
  rewrite (Z.log2_unique (Zpos m) (Zpos (Pos.size m) - 1)); [lia | lia | ].
  split; [exact H1 | ]. replace (Z.succ _) with (Zpos (Pos.size m)) by lia.
  exact H2.
Qed.

(** Shifting right with a round and a sticky bit *)

Lemma shifted_start (a : Z) :
  0 <= a -> shifted a 0 {| shr_m := a; shr_r := false; shr_s := false |}.
Proof.
  intros Ha. unfold_shifted. split; [exact Ha | ]. exists 0. lia.
Qed.

Lemma shifted_step (a n : Z) (mrs : shr_record) :
  0 <= n -> shifted a n mrs -> shifted a (n + 1) (shr_1 mrs).
Proof.
  intros Hn (Hm & rem & Ha & Hrem & Hloc).
  assert (2 ^ (n + 1) = 2 * 2 ^ n) as E
      by (rewrite Z.pow_add_r by lia; lia).
  assert (0 < 2 ^ n) as Hp by (apply Z.pow_pos_nonneg; lia).
  unfold shifted. rewrite E. destruct mrs as [m r s]. unfold_shifted.
  destruct m as [|[p|p|]|p]; unfold_shifted; try lia.
  - split; [lia | ]. exists rem.
    destruct r, s; unfold_shifted; lia.
  - split; [lia | ]. exists (rem + 2 ^ n).
    rewrite Pos2Z.inj_xI in Ha. destruct r, s; unfold_shifted; lia.
  - split; [lia | ]. exists rem.
    rewrite Pos2Z.inj_xO in Ha. destruct r, s; unfold_shifted; lia.
  - split; [lia | ]. exists (rem + 2 ^ n).
    destruct r, s; unfold_shifted; lia.
Qed.

Lemma iter_pos_nat {A : Type} (f : A -> A) (p : positive) (x : A) :
  iter_pos f p x = Nat.iter (Pos.to_nat p) f x.
Proof.
  revert x. induction p as [p IH|p IH| ]; intros x; cbn [iter_pos].
  - rewrite !IH, Pos2Nat.inj_xI.
    replace (2 * Pos.to_nat p)%nat with (Pos.to_nat p + Pos.to_nat p)%nat by lia.
    rewrite Nat.iter_succ_r, Nat.iter_add. reflexivity.
  - rewrite !IH, Pos2Nat.inj_xO.
    replace (2 * Pos.to_nat p)%nat with (Pos.to_nat p + Pos.to_nat p)%nat by lia.
    rewrite Nat.iter_add. reflexivity.
  - reflexivity.
Qed.

Lemma shifted_iter (a : Z) (k : nat) :
  0 <= a ->
  shifted a (Z.of_nat k)
    (Nat.iter k shr_1 {| shr_m := a; shr_r := false; shr_s := false |}).
Proof.
  intros Ha. induction k as [|k IH].
  - apply shifted_start, Ha.
  - rewrite Nat2Z.inj_succ. cbn [Nat.iter]. apply shifted_step; [lia | exact IH].
Qed.

(** Rounding the shifted mantissa gives [rne]. *)
Lemma round_shifted (a n : Z) (mrs : shr_record) :
  0 <= n -> shifted a n mrs ->
  round_nearest_even (shr_m mrs) (loc_of_shr_record mrs) = rne a n.
Proof.
  intros Hn (Hm & rem & Ha & Hrem & Hloc).
  assert (0 < 2 ^ n) as Hp by (apply Z.pow_pos_nonneg; lia).
  assert (a / 2 ^ n = shr_m mrs) as Hq.
  { symmetry. apply (Z.div_unique a (2 ^ n) (shr_m mrs) rem); lia. }
  assert (a mod 2 ^ n = rem) as Hr.
  { symmetry. apply (Z.mod_unique a (2 ^ n) (shr_m mrs) rem); lia. }
  unfold rne. rewrite Hq, Hr.
  destruct mrs as [m r s]. unfold_shifted.
  destruct r, s; cbn [loc_of_shr_record round_nearest_even];
    destruct (Z.compare_spec (2 * rem) (2 ^ n)); try lia; reflexivity.
Qed.

(** [shr_fexp] on an exact mantissa. *)
Lemma shr_fexp_exact (m e : Z) :
  0 <= m ->
  let n := fexp prec emax (Zdigits2 m + e) - e in
  exists mrs,
    shr_fexp prec emax m e loc_Exact = (mrs, e + Z.max 0 n)
    /\ shifted m (Z.max 0 n) mrs.
Proof.
  intros Hm n. unfold shr_fexp, shr. fold n. cbn [shr_record_of_loc].
  destruct n as [|p|p] eqn:En.
  - eexists; split; [rewrite Z.add_0_r; reflexivity | ].
    apply shifted_start, Hm.
  - eexists; split; [reflexivity | ].
    rewrite iter_pos_nat. replace (Z.max 0 (Z.pos p)) with (Z.of_nat (Pos.to_nat p)) by lia.
    apply shifted_iter, Hm.
  - eexists; split; [rewrite Z.add_0_r; reflexivity | ].
    apply shifted_start, Hm.
Qed.

Lemma fexp_eq (k : Z) : fexp prec emax k = Z.max (k - 53) (-1074).
Proof. reflexivity. Qed.

Lemma rne_scale (a n j : Z) :
  0 <= n -> 0 <= j -> rne (a * 2 ^ j) (n + j) = rne a n.
Proof.
  intros Hn Hj.
  assert (0 < 2 ^ n) as Hpn by (apply Z.pow_pos_nonneg; lia).
  assert (0 < 2 ^ j) as Hpj by (apply Z.pow_pos_nonneg; lia).
  unfold rne. rewrite Z.pow_add_r by lia.
  rewrite Z.div_mul_cancel_r by lia.
  rewrite Z.mul_mod_distr_r by lia.
  set (q := a / 2 ^ n). set (r := a mod 2 ^ n).
  destruct (Z.compare_spec (2 * (r * 2 ^ j)) (2 ^ n * 2 ^ j));
    destruct (Z.compare_spec (2 * r) (2 ^ n)); try nia; reflexivity.
Qed.

Lemma grid_of_mantissa (m : positive) (e : Z) :
  - scale <= e ->
  grid (Zpos m * 2 ^ (e + scale))
  = fexp prec emax (Zpos (digits2_pos m) + e) + scale.
Proof.
  intros He. unfold grid. rewrite Z.log2_mul_pow2 by lia.
  rewrite fexp_eq, digits2_size. pose proof (log2_size m). lia.
Qed.

Lemma Zdigits2_bounds (a : Z) :
  0 < a -> 2 ^ (Zdigits2 a - 1) <= a < 2 ^ Zdigits2 a.
Proof.
  destruct a as [|p|p]; try lia. intros _. cbn [Zdigits2].
  rewrite digits2_size. apply size_bounds.
Qed.

Lemma Zdigits2_unique (a d : Z) :
  2 ^ (d - 1) <= a < 2 ^ d -> 0 < d -> Zdigits2 a = d.
Proof.
  intros [H1 H2] Hd.
  assert (0 < a) as Ha.
  { pose proof (Z.pow_pos_nonneg 2 (d - 1)). lia. }
  pose proof (Zdigits2_bounds a Ha) as [H3 H4].
  assert (0 < Zdigits2 a).
  { destruct a; try lia. cbn. lia. }
  destruct (Z.lt_trichotomy (Zdigits2 a) d) as [L|[L|L]]; [ | exact L | ].
  - assert (2 ^ Zdigits2 a <= 2 ^ (d - 1)) by (apply Z.pow_le_mono_r; lia). lia.
  - assert (2 ^ d <= 2 ^ (Zdigits2 a - 1)) by (apply Z.pow_le_mono_r; lia). lia.
Qed.

Lemma shifted_none (a : Z) (mrs : shr_record) :
  shifted a 0 mrs -> shr_m mrs = a.
Proof.
  intros (_ & rem & Ha & Hrem & _). change (2 ^ 0) with 1 in *. lia.
Qed.

Lemma pow2_split (a b : Z) : 0 <= a -> 0 <= b -> 2 ^ (a + b) = 2 ^ a * 2 ^ b.
Proof. intros. apply Z.pow_add_r; assumption. Qed.

Lemma round_aux_spec (s : bool) (m : positive) (e : Z) :
  - scale <= e ->
  e <= fexp prec emax (Zpos (digits2_pos m) + e) ->
  valid_binary (binary_round_aux prec emax s (Zpos m) e loc_Exact)
  = true
  /\ rank (binary_round_aux prec emax s (Zpos m) e loc_Exact)
     = cond_Zopp s (Z.min (fl (Zpos m * 2 ^ (e + scale))) top)
  /\ binary_round_aux prec emax s (Zpos m) e loc_Exact <> S754_nan.
Proof.
  intros He Hfexp.
  assert (Hgrid := grid_of_mantissa m e He).
  rewrite digits2_size in *.
  pose proof (size_bounds m) as [Hm1 Hm2].
  set (d := Zpos (Pos.size m)) in *.
  assert (0 < d) as Hd by (subst d; lia).
  set (E := fexp prec emax (d + e)) in *.
  assert (HE : E = Z.max (d + e - 53) (-1074)) by apply fexp_eq.
  set (n := E - e).
  assert (0 <= n) as Hn by (subst n; lia).
  destruct (shr_fexp_exact (Zpos m) e ltac:(lia)) as (mrs1 & Hs1 & Hsh1).
  cbn [Zdigits2] in Hs1, Hsh1. rewrite digits2_size in Hs1, Hsh1.
  fold d in Hs1, Hsh1. fold E in Hs1, Hsh1. fold n in Hs1, Hsh1.
  replace (Z.max 0 n) with n in Hs1, Hsh1 by lia.
  replace (e + n) with E in Hs1 by (subst n; lia).
  pose proof (round_shifted _ _ _ Hn Hsh1) as Hr1.
  set (m1 := rne (Zpos m) n) in *.
  assert (Hfl : fl (Zpos m * 2 ^ (e + scale)) = m1 * 2 ^ (E + scale)).
  { unfold fl. rewrite Hgrid.
    replace (E + scale) with (n + (e + scale)) by (subst n; lia).
    rewrite rne_scale by lia. reflexivity. }
  assert (0 <= m1 <= 2 ^ 53) as Hm1b.
  { split.
    - pose proof (rne_bounds (Zpos m) n Hn).
      pose proof (Z.div_pos (Zpos m) (2 ^ n) ltac:(lia)
                    ltac:(apply Z.pow_pos_nonneg; lia)). lia.
    - apply rne_le; [exact Hn | ]. rewrite <- pow2_split by lia.
      transitivity (2 ^ d); [lia | apply Z.pow_le_mono_r; lia]. }
  assert (-1074 < E -> 2 ^ 52 <= m1) as Hnormal.
  { intros HEn. apply rne_ge; [exact Hn | ]. rewrite <- pow2_split by lia.
    replace (52 + n) with (d - 1) by lia. exact Hm1. }
  assert (0 < 2 ^ (E + scale)) as Hpos
      by (apply Z.pow_pos_nonneg; unfold scale in *; lia).
  unfold binary_round_aux. rewrite Hs1. cbv beta iota zeta. rewrite Hr1.
  destruct (shr_fexp_exact m1 E ltac:(lia)) as (mrs2 & Hs2 & Hsh2).
  rewrite fexp_eq in Hsh2, Hs2.
  destruct (Z.eq_dec m1 0) as [Z1|Z1].
  { (* underflow to zero *)
    assert (Zdigits2 m1 = 0) as Hd0 by (rewrite Z1; reflexivity).
    rewrite Hd0 in Hsh2, Hs2.
    replace (Z.max 0 (Z.max (0 + E - 53) (-1074) - E)) with 0 in Hsh2, Hs2
      by lia.
    rewrite Hs2. cbv beta iota zeta.
    rewrite (shifted_none _ _ Hsh2).
    rewrite Hfl, Z1. cbn. destruct s; cbn; repeat split; discriminate. }
  destruct (Z.eq_dec m1 (2 ^ 53)) as [C1|C1].
  { (* the rounded mantissa carries into a new digit *)
    assert (Zdigits2 m1 = 54) as Hd1.
    { apply Zdigits2_unique; [ | lia]. rewrite C1. cbn. lia. }
    rewrite Hd1 in Hsh2, Hs2.
    replace (Z.max 0 (Z.max (54 + E - 53) (-1074) - E)) with 1 in Hsh2, Hs2
      by lia.
    rewrite Hs2. cbv beta iota zeta.
    destruct Hsh2 as (H0 & rem & Ha & Hrem & _).
    change (2 ^ 1) with 2 in *.
    assert (shr_m mrs2 = 2 ^ 52) as HM by (rewrite C1 in Ha; cbn in *; lia).
    rewrite HM. change (2 ^ 52) with (Zpos (2 ^ 52)%positive).
    cbv beta iota zeta.
    change (emax - prec) with 971.
    destruct (Z.leb_spec (E + 1) 971) as [Hfit|Hover]; cbn [SpecFloat.valid_binary rank].
    - repeat split; try discriminate.
      + unfold bounded, canonical_mantissa. rewrite fexp_eq.
        change (Zpos (digits2_pos (2 ^ 52))) with 53.
        apply andb_true_intro. split; [apply Z.eqb_eq | apply Z.leb_le]; 
          change (emax - prec) with 971; lia.
      + f_equal. rewrite Hfl, C1. rewrite Z.min_l.
        * replace (E + 1 + scale) with (1 + (E + scale)) by lia.
          rewrite pow2_split by (unfold scale in *; lia).
          change (Zpos (2 ^ 52)) with (2 ^ 52). change (2 ^ 1) with 2.
          change (2 ^ 53) with (2 * 2 ^ 52). lia.
        * unfold top. change (2 ^ 53 * 2 ^ (E + scale)) with (2 ^ 53 * 2 ^ (E + scale)).
          rewrite <- pow2_split by (unfold scale in *; lia).
          apply Z.pow_le_mono_r; lia.
    - repeat split; try discriminate.
      f_equal. rewrite Hfl, C1. rewrite Z.min_r; [reflexivity | ].
      unfold top. rewrite <- pow2_split by (unfold scale in *; lia).
      apply Z.pow_le_mono_r; lia. }
  (* the rounded mantissa fits *)
  assert (0 < m1 < 2 ^ 53) as Hfit1 by lia.
  pose proof (Zdigits2_bounds m1 ltac:(lia)) as [Hb1 Hb2].
  assert (0 < Zdigits2 m1) as Hd1pos.
  { destruct m1; try lia. cbn. lia. }
  assert (Zdigits2 m1 <= 53) as Hd1.
  { destruct (Z.le_gt_cases (Zdigits2 m1) 53) as [L|L]; [exact L | ].
    assert (2 ^ 53 <= 2 ^ (Zdigits2 m1 - 1)) by (apply Z.pow_le_mono_r; lia).
    lia. }
  replace (Z.max 0 (Z.max (Zdigits2 m1 + E - 53) (-1074) - E)) with 0
    in Hsh2, Hs2 by lia.
  rewrite Hs2. cbv beta iota zeta.
  rewrite (shifted_none _ _ Hsh2). rewrite Z.add_0_r.
  destruct m1 as [|p1|p1] eqn:Em1; try lia.
  change (emax - prec) with 971.
  destruct (Z.leb_spec E 971) as [Hfit|Hover]; cbn [SpecFloat.valid_binary rank].
  - repeat split; try discriminate.
    + unfold bounded, canonical_mantissa. rewrite fexp_eq.
      cbn [Zdigits2] in *.
      apply andb_true_intro. split; [apply Z.eqb_eq | apply Z.leb_le];
        change (emax - prec) with 971; [ | lia].
      destruct (Z.eq_dec E (-1074)) as [Es|En]; [lia | ].
      assert (Zpos (digits2_pos p1) = 53) as D53.
      { apply (Zdigits2_unique (Zpos p1)); [ | lia].
        split; [apply Hnormal; lia | lia]. }
      lia.
    + f_equal. rewrite Hfl. rewrite Z.min_l; [reflexivity | ].
      unfold top. transitivity (2 ^ 53 * 2 ^ (E + scale)).
      * apply Z.mul_le_mono_nonneg_r; lia.
      * rewrite <- pow2_split by (unfold scale in *; lia).
        apply Z.pow_le_mono_r; lia.
  - repeat split; try discriminate.
    f_equal. rewrite Hfl. rewrite Z.min_r; [reflexivity | ].
    unfold top. transitivity (2 ^ 52 * 2 ^ (E + scale)).
    + rewrite <- pow2_split by (unfold scale in *; lia).
      apply Z.pow_le_mono_r; lia.
    + apply Z.mul_le_mono_nonneg_r; [lia | apply Hnormal; lia].
Qed.

Lemma valid_finite (s : bool) (m : positive) (e : Z) :
  valid_binary (S754_finite s m e) = true ->
  -1074 <= e <= 971
  /\ Zpos (Pos.size m) <= 53
  /\ (-1074 < e -> Zpos (Pos.size m) = 53).
Proof.
  cbn. unfold bounded, canonical_mantissa. rewrite fexp_eq, digits2_size.
  intros H. apply andb_prop in H. destruct H as [Hc Hb].
  apply Z.eqb_eq in Hc. apply Z.leb_le in Hb.
  change (emax - prec) with 971 in Hb. lia.
Qed.

Lemma valid_finite_range (s : bool) (m : positive) (e : Z) :
  valid_binary (S754_finite s m e) = true ->
  0 < Zpos m * 2 ^ (e + scale) < top.
Proof.
  intros H. destruct (valid_finite s m e H) as (He & Hs & _).
  pose proof (size_bounds m) as [_ Hm].
  assert (0 < 2 ^ (e + scale)) by (apply Z.pow_pos_nonneg; unfold scale; lia).
  split; [lia | ]. unfold top.
  apply Z.lt_le_trans with (2 ^ 53 * 2 ^ (e + scale)).
  - apply Z.mul_lt_mono_pos_r; [lia | ].
    apply Z.lt_le_trans with (2 ^ Zpos (Pos.size m)); [exact Hm | ].
    apply Z.pow_le_mono_r; lia.
  - rewrite <- pow2_split by (unfold scale; lia).
    apply Z.pow_le_mono_r; unfold scale; lia.
Qed.

Lemma canonical_lt (s1 s2 : bool) (m1 m2 : positive) (e1 e2 : Z) :
  valid_binary (S754_finite s1 m1 e1) = true ->
  valid_binary (S754_finite s2 m2 e2) = true ->
  e1 < e2 ->
  Zpos m1 * 2 ^ (e1 + scale) < Zpos m2 * 2 ^ (e2 + scale).
Proof.
  intros H1 H2 He.
  destruct (valid_finite _ _ _ H1) as (He1 & Hs1 & _).
  destruct (valid_finite _ _ _ H2) as (He2 & _ & Hn2).
  pose proof (size_bounds m1) as [_ Hm1].
  pose proof (size_bounds m2) as [Hm2 _].
  rewrite Hn2 in Hm2 by lia. change (2 ^ (53 - 1)) with (2 ^ 52) in Hm2.
  assert (0 < 2 ^ (e1 + scale)) by (apply Z.pow_pos_nonneg; unfold scale; lia).
  assert (0 < 2 ^ (e2 + scale)) by (apply Z.pow_pos_nonneg; unfold scale; lia).
  apply Z.lt_le_trans with (2 ^ 53 * 2 ^ (e1 + scale)).
  - apply Z.mul_lt_mono_pos_r; [lia | ].
    apply Z.lt_le_trans with (2 ^ Zpos (Pos.size m1)); [exact Hm1 | ].
    apply Z.pow_le_mono_r; lia.
  - apply Z.le_trans with (2 ^ 52 * 2 ^ (e2 + scale)).
    + rewrite <- !pow2_split by (unfold scale; lia).
      apply Z.pow_le_mono_r; unfold scale; lia.
    + apply Z.mul_le_mono_nonneg_r; lia.
Qed.

Lemma compare_scaled (a b p : Z) : 0 < p -> (a * p ?= b * p) = (a ?= b).
Proof.
  intros Hp.
  destruct (Z.compare_spec (a * p) (b * p)), (Z.compare_spec a b);
    try nia; reflexivity.
Qed.

Lemma compare_magnitudes (s1 s2 : bool) (m1 m2 : positive) (e1 e2 : Z) :
  valid_binary (S754_finite s1 m1 e1) = true ->
  valid_binary (S754_finite s2 m2 e2) = true ->
  (Zpos m1 * 2 ^ (e1 + scale) ?= Zpos m2 * 2 ^ (e2 + scale))
  = match e1 ?= e2 with
    | Lt => Lt
    | Gt => Gt
    | Eq => Pos.compare_cont Eq m1 m2
    end.
Proof.
  intros H1 H2. destruct (Z.compare_spec e1 e2) as [E|L|G].
  - subst e2. rewrite compare_scaled; [reflexivity | ].
    destruct (valid_finite _ _ _ H1) as (He1 & _).
    apply Z.pow_pos_nonneg; unfold scale; lia.
  - apply Z.compare_lt_iff. now apply (canonical_lt s1 s2).
  - apply Z.compare_gt_iff. now apply (canonical_lt s2 s1).
Qed.

Lemma top_pos : 0 < top.
Proof. unfold top. apply Z.pow_pos_nonneg; unfold scale; lia. Qed.

Lemma SFcompare_rank (x y : spec_float) :
  valid_binary x = true -> valid_binary y = true ->
  not_nan x -> not_nan y ->
  SFcompare x y = Some (rank x ?= rank y).
Proof.
  intros Vx Vy Nx Ny. pose proof top_pos as Ht.
  destruct x as [sx|sx| |sx mx ex], y as [sy|sy| |sy my ey];
    try contradiction; cbn [SFcompare rank];
    try pose proof (valid_finite_range _ _ _ Vx);
    try pose proof (valid_finite_range _ _ _ Vy).
  - reflexivity.
  - destruct sy; cbn [cond_Zopp]; decide_compare.
  - destruct sy; cbn [cond_Zopp]; decide_compare.
  - destruct sx; cbn [cond_Zopp]; decide_compare.
  - destruct sx, sy; cbn [cond_Zopp]; decide_compare.
  - destruct sx, sy; cbn [cond_Zopp]; decide_compare.
  - destruct sx; cbn [cond_Zopp]; decide_compare.
  - destruct sx, sy; cbn [cond_Zopp]; decide_compare.
  - f_equal. destruct sx, sy; cbn [cond_Zopp].
    + rewrite Z.compare_opp.
      rewrite (compare_magnitudes _ _ _ _ _ _ Vy Vx).
      rewrite (Z.compare_antisym ey ex).
      destruct (ey ?= ex); cbn; try reflexivity.
      rewrite !Pos.compare_cont_spec, (Pos.compare_antisym mx my).
      destruct (mx ?= my)%positive; reflexivity.
    + symmetry. apply Z.compare_lt_iff. lia.
    + symmetry. apply Z.compare_gt_iff. lia.
    + rewrite (compare_magnitudes _ _ _ _ _ _ Vx Vy). reflexivity.
Qed.

Lemma SFleb_rank (x y : spec_float) :
  valid_binary x = true -> valid_binary y = true ->
  not_nan x -> not_nan y ->
  SFleb x y = true <-> rank x <= rank y.
Proof.
  intros Vx Vy Nx Ny. unfold SFleb. rewrite (SFcompare_rank x y Vx Vy Nx Ny).
  destruct (Z.compare_spec (rank x) (rank y)); split; intros; lia || easy.
Qed.

Lemma SFleb_not_nan (x y : spec_float) :
  SFleb x y = true -> not_nan x /\ not_nan y.
Proof.
  unfold SFleb. destruct x, y; cbn; try discriminate; auto.
Qed.

Lemma fl_monotone0 (v w : Z) : 0 <= v -> v <= w -> fl v <= fl w.
Proof.
  intros Hv Hw. destruct (Z.eq_dec v 0) as [->|Hn].
  - rewrite fl_zero. apply fl_nonneg. lia.
  - apply fl_monotone; lia.
Qed.

Lemma rounded_bounds (v : Z) : - top <= rounded v <= top.
Proof.
  pose proof top_pos. unfold rounded. destruct (Z.leb_spec 0 v).
  - pose proof (fl_nonneg v). lia.
  - pose proof (fl_nonneg (- v)). lia.
Qed.

Lemma rounded_monotone (v w : Z) : v <= w -> rounded v <= rounded w.
Proof.
  intros Hvw. pose proof top_pos. unfold rounded.
  destruct (Z.leb_spec 0 v), (Z.leb_spec 0 w); try lia.
  - pose proof (fl_monotone0 v w). lia.
  - pose proof (fl_nonneg (- v)). pose proof (fl_nonneg w). lia.
  - pose proof (fl_monotone0 (- w) (- v)). lia.
Qed.

Lemma rounded_signed (s : bool) (v : Z) :
  0 < v -> cond_Zopp s (Z.min (fl v) top) = rounded (cond_Zopp s v).
Proof.
  intros Hv. unfold rounded. destruct s; cbn [cond_Zopp].
  - destruct (Z.leb_spec 0 (- v)); [lia | ]. now rewrite Z.opp_involutive.
  - destruct (Z.leb_spec 0 v); [reflexivity | lia].
Qed.

Lemma rounded_zero : rounded 0 = 0.
Proof.
  unfold rounded. cbn [Z.leb Z.compare]. rewrite fl_zero.
  pose proof top_pos. lia.
Qed.

(** A valid finite float is its own rounding. *)
Lemma fl_representable (s : bool) (m : positive) (e : Z) :
  valid_binary (S754_finite s m e) = true ->
  fl (Zpos m * 2 ^ (e + scale)) = Zpos m * 2 ^ (e + scale).
Proof.
  intros V. destruct (valid_finite _ _ _ V) as (He & Hs & Hn).
  unfold fl. rewrite grid_of_mantissa by (unfold scale; lia).
  rewrite fexp_eq, digits2_size.
  replace (Z.max (Z.pos (Pos.size m) + e - 53) (-1074)) with e by lia.
  rewrite rne_exact by (unfold scale; lia). reflexivity.
Qed.

Lemma fl_pow2 (k : Z) : scale - 1022 <= k -> fl (2 ^ k) = 2 ^ k.
Proof.
  intros Hk. assert (0 <= scale - 1074) as Hs by (unfold scale; lia).
  unfold fl, grid. rewrite Z.log2_pow2 by lia.
  replace (Z.max (k + 1 - 53) (scale - 1074)) with (k - 52) by lia.
  replace (2 ^ k) with (2 ^ 52 * 2 ^ (k - 52)) at 1.
  - rewrite rne_exact by lia. rewrite <- pow2_split by lia.
    f_equal. lia.
  - rewrite <- pow2_split by lia. f_equal. lia.
Qed.

Lemma fl_top : fl top = top.
Proof.
  unfold top. apply fl_pow2. unfold scale. lia.
Qed.

Lemma rounded_representable (x : spec_float) :
  valid_binary x = true -> rounded (rank x) = rank x.
Proof.
  intros V. destruct x as [s|s| |s m e]; cbn [rank]; try apply rounded_zero.
  - rewrite <- rounded_signed by apply top_pos. rewrite fl_top.
    now rewrite Z.min_id.
  - pose proof (valid_finite_range _ _ _ V).
    rewrite <- rounded_signed by lia.
    rewrite (fl_representable _ _ _ V). f_equal. lia.
Qed.

(** Aligning a mantissa to a smaller exponent. *)
Lemma iter_xO (m d : positive) :
  Zpos (Pos.iter xO m d) = Zpos m * 2 ^ Zpos d.
Proof.
  induction d as [|d IH] using Pos.peano_ind.
  - cbn. lia.
  - rewrite Pos.iter_succ, Pos2Z.inj_xO, IH, Pos2Z.inj_succ.
    rewrite Z.pow_succ_r by lia. lia.
Qed.

Lemma shl_align_spec (m : positive) (e e' : Z) :
  let '(m', e'') := shl_align m e e' in
  e'' = Z.min e e' /\ Zpos m' = Zpos m * 2 ^ (e - e'').
Proof.
  unfold shl_align. destruct (e' - e) as [|d|d] eqn:Ed.
  - split; [lia | ]. replace (e - e) with 0 by lia. cbn. lia.
  - split; [lia | ]. replace (e - e) with 0 by lia. cbn. lia.
  - split; [lia | ]. rewrite iter_xO. f_equal. f_equal. lia.
Qed.

Lemma size_shift (m : positive) (d : Z) (m' : positive) :
  0 <= d -> Zpos m' = Zpos m * 2 ^ d ->
  Zpos (Pos.size m') = Zpos (Pos.size m) + d.
Proof.
  intros Hd E. rewrite <- !log2_size, E, Z.log2_mul_pow2 by lia. lia.
Qed.

Lemma binary_round_spec (s : bool) (m : positive) (e : Z) :
  -1074 <= e ->
  valid_binary (binary_round prec emax s m e) = true
  /\ rank (binary_round prec emax s m e)
     = rounded (cond_Zopp s (Zpos m * 2 ^ (e + scale)))
  /\ not_nan (binary_round prec emax s m e).
Proof.
  intros He. unfold binary_round.
  pose proof (shl_align_spec m e (fexp prec emax (Zpos (digits2_pos m) + e)))
    as Hal.
  destruct (shl_align m e _) as [mz ez]. destruct Hal as [Hez Hmz].
  rewrite digits2_size, fexp_eq in Hez.
  assert (0 < Zpos m * 2 ^ (e + scale)) as Hpos.
  { apply Z.mul_pos_pos; [lia | apply Z.pow_pos_nonneg; unfold scale; lia]. }
  assert (Zpos mz * 2 ^ (ez + scale) = Zpos m * 2 ^ (e + scale)) as Hv.
  { rewrite Hmz, <- Z.mul_assoc, <- pow2_split by (unfold scale; lia).
    f_equal. f_equal. lia. }
  assert (Zpos (Pos.size mz) + ez = Zpos (Pos.size m) + e) as Hsz.
  { rewrite (size_shift m (e - ez) mz) by lia. lia. }
  destruct (round_aux_spec s mz ez) as (V & R & N).
  - unfold scale. lia.
  - rewrite digits2_size, fexp_eq, Hsz. lia.
  - split; [exact V | split].
    + rewrite R, Hv. apply rounded_signed, Hpos.
    + destruct (binary_round_aux _ _ _ _ _ _); cbn; auto.
Qed.

Lemma cond_Zopp_mul (s : bool) (a b : Z) :
  cond_Zopp s a * b = cond_Zopp s (a * b).
Proof. destruct s; cbn; lia. Qed.

Lemma aligned_rank (s : bool) (m : positive) (e ez : Z) :
  -1074 <= ez -> ez <= e ->
  cond_Zopp s (Zpos (fst (shl_align m e ez))) * 2 ^ (ez + scale)
  = cond_Zopp s (Zpos m * 2 ^ (e + scale)).
Proof.
  intros Hz He. pose proof (shl_align_spec m e ez) as H.
  destruct (shl_align m e ez) as [m' e'']. destruct H as [He'' Hm'].
  cbn [fst]. rewrite cond_Zopp_mul. f_equal.
  rewrite Hm', <- Z.mul_assoc, <- pow2_split by (unfold scale; lia).
  f_equal. f_equal. lia.
Qed.

Lemma binary_normalize_spec (z e : Z) :
  -1074 <= e ->
  valid_binary (binary_normalize prec emax z e false) = true
  /\ rank (binary_normalize prec emax z e false)
     = rounded (z * 2 ^ (e + scale))
  /\ not_nan (binary_normalize prec emax z e false).
Proof.
  intros He. destruct z as [|p|p]; cbn [binary_normalize].
  - cbn [rank not_nan]. rewrite Z.mul_0_l, rounded_zero. auto.
  - apply (binary_round_spec false p e He).
  - destruct (binary_round_spec true p e He) as (V & R & N).
    split; [exact V | split; [ | exact N]].
    rewrite R. f_equal. cbn [cond_Zopp]. lia.
Qed.

Lemma SFadd_finite (x y : spec_float) :
  valid_binary x = true -> valid_binary y = true ->
  finite_or_zero x -> finite_or_zero y ->
  valid_binary (SFadd prec emax x y) = true
  /\ rank (SFadd prec emax x y) = rounded (rank x + rank y)
  /\ not_nan (SFadd prec emax x y).
Proof.
  intros Vx Vy Fx Fy.
  destruct x as [sx|sx| |sx mx ex], y as [sy|sy| |sy my ey];
    try contradiction.
  - cbn [SFadd rank]. rewrite Z.add_0_l, rounded_zero.
    destruct sx, sy; cbn; auto.
  - cbn [SFadd]. change (rank (S754_zero sx)) with 0.
    rewrite Z.add_0_l, (rounded_representable _ Vy). cbn; auto.
  - cbn [SFadd]. change (rank (S754_zero sy)) with 0.
    rewrite Z.add_0_r, (rounded_representable _ Vx). cbn; auto.
  - destruct (valid_finite _ _ _ Vx) as (Hex & _).
    destruct (valid_finite _ _ _ Vy) as (Hey & _).
    cbn [SFadd rank].
    destruct (binary_normalize_spec
                (cond_Zopp sx (Zpos (fst (shl_align mx ex (Z.min ex ey))))
                 + cond_Zopp sy (Zpos (fst (shl_align my ey (Z.min ex ey)))))
                (Z.min ex ey) ltac:(lia)) as (V & R & N).
    split; [exact V | split; [ | exact N]].
    rewrite R. f_equal. rewrite Z.mul_add_distr_r.
    rewrite !aligned_rank by lia. reflexivity.
Qed.

Lemma rank_bounds (y : spec_float) :
  valid_binary y = true -> - top <= rank y <= top.
Proof.
  intros V. pose proof top_pos.
  destruct y as [s|s| |s m e]; cbn [rank]; try lia.
  - destruct s; cbn [cond_Zopp]; lia.
  - pose proof (valid_finite_range _ _ _ V). destruct s; cbn [cond_Zopp]; lia.
Qed.

Lemma rank_finite_strict (y : spec_float) :
  valid_binary y = true -> finite_or_zero y -> - top < rank y < top.
Proof.
  intros V F. pose proof top_pos.
  destruct y as [s|s| |s m e]; try contradiction; cbn [rank]; try lia.
  pose proof (valid_finite_range _ _ _ V). destruct s; cbn [cond_Zopp]; lia.
Qed.

Lemma lift_monotone (S : Z -> Z) (y1 y2 : spec_float) :
  (forall a b, a <= b -> S a <= S b) ->
  (forall a, - top <= S a <= top) ->
  valid_binary y1 = true -> valid_binary y2 = true ->
  not_nan y1 -> not_nan y2 ->
  rank y1 <= rank y2 -> lift S y1 <= lift S y2.
Proof.
  intros Hm Hb V1 V2 N1 N2 Hr. pose proof top_pos.
  assert (forall y, valid_binary y = true -> not_nan y ->
                    finite_or_zero y \/ exists s, y = S754_infinity s) as Hc.
  { intros [s|s| |s m e] _ N; cbn; eauto; contradiction. }
  destruct (Hc y1 V1 N1) as [F1|[s1 ->]], (Hc y2 V2 N2) as [F2|[s2 ->]].
  - replace (lift S y1) with (S (rank y1)) by (destruct y1; easy).
    replace (lift S y2) with (S (rank y2)) by (destruct y2; easy).
    now apply Hm.
  - pose proof (rank_finite_strict y1 V1 F1).
    replace (lift S y1) with (S (rank y1)) by (destruct y1; easy).
    pose proof (Hb (rank y1)). cbn [lift rank] in *.
    destruct s2; cbn [cond_Zopp] in *; lia.
  - pose proof (rank_finite_strict y2 V2 F2).
    replace (lift S y2) with (S (rank y2)) by (destruct y2; easy).
    pose proof (Hb (rank y2)). cbn [lift rank] in *.
    destruct s1; cbn [cond_Zopp] in *; lia.
  - cbn [lift rank] in *. exact Hr.
Qed.

(** Opposite and subtraction *)

Lemma SFopp_spec (y : spec_float) :
  valid_binary (SFopp y) = valid_binary y
  /\ rank (SFopp y) = - rank y
  /\ (not_nan y -> not_nan (SFopp y)).
Proof.
  destruct y as [s|s| |s m e]; cbn [SFopp SpecFloat.valid_binary rank not_nan];
    repeat split; auto; destruct s; cbn [negb cond_Zopp]; lia.
Qed.

Lemma SFsub_add_opp (x y : spec_float) :
  SFsub prec emax x y = SFadd prec emax x (SFopp y).
Proof.
  destruct x as [sx|sx| |sx mx ex], y as [sy|sy| |sy my ey];
    cbn [SFsub SFadd SFopp]; try reflexivity;
    destruct sx, sy; reflexivity.
Qed.

(** Addition to a fixed finite float is monotone. *)

Lemma SFadd_lift (x y : spec_float) :
  valid_binary x = true -> valid_binary y = true ->
  finite_or_zero x -> not_nan y ->
  valid_binary (SFadd prec emax x y) = true
  /\ rank (SFadd prec emax x y) = lift (fun r => rounded (rank x + r)) y
  /\ not_nan (SFadd prec emax x y).
Proof.
  intros Vx Vy Fx Ny.
  destruct y as [sy|sy| |sy my ey]; try contradiction.
  - apply (SFadd_finite x _ Vx Vy Fx I).
  - destruct x as [sx|sx| |sx mx ex]; try contradiction; cbn; auto.
  - apply (SFadd_finite x _ Vx Vy Fx I).
Qed.

Lemma SFadd_monotone (x y1 y2 : spec_float) :
  valid_binary x = true -> finite_or_zero x ->
  valid_binary y1 = true -> valid_binary y2 = true ->
  not_nan y1 -> not_nan y2 ->
  rank y1 <= rank y2 ->
  rank (SFadd prec emax x y1) <= rank (SFadd prec emax x y2).
Proof.
  intros Vx Fx V1 V2 N1 N2 Hr.
  destruct (SFadd_lift x y1 Vx V1 Fx N1) as (_ & -> & _).
  destruct (SFadd_lift x y2 Vx V2 Fx N2) as (_ & -> & _).
  apply lift_monotone; auto.
  - intros a b Hab. apply rounded_monotone. lia.
  - intros a. apply rounded_bounds.
Qed.

Lemma SFsub_antitone (x y1 y2 : spec_float) :
  valid_binary x = true -> finite_or_zero x ->
  valid_binary y1 = true -> valid_binary y2 = true ->
  not_nan y1 -> not_nan y2 ->
  rank y1 <= rank y2 ->
  rank (SFsub prec emax x y2) <= rank (SFsub prec emax x y1).
Proof.
  intros Vx Fx V1 V2 N1 N2 Hr. rewrite !SFsub_add_opp.
  destruct (SFopp_spec y1) as (Vo1 & Ro1 & No1).
  destruct (SFopp_spec y2) as (Vo2 & Ro2 & No2).
  apply SFadd_monotone; auto; try congruence. lia.
Qed.

Lemma SFsub_valid (x y : spec_float) :
  valid_binary x = true -> valid_binary y = true ->
  finite_or_zero x -> not_nan y ->
  valid_binary (SFsub prec emax x y) = true
  /\ not_nan (SFsub prec emax x y).
Proof.
  intros Vx Vy Fx Ny. rewrite SFsub_add_opp.
  destruct (SFopp_spec y) as (Vo & _ & No).
  destruct (SFadd_lift x (SFopp y) Vx ltac:(congruence) Fx (No Ny))
    as (V & _ & N).
  auto.
Qed.

(** Multiplication by a positive normal constant *)

Lemma scaled_by_monotone (mc : positive) (ec a b : Z) :
  -1074 <= ec -> a <= b -> scaled_by mc ec a <= scaled_by mc ec b.
Proof.
  intros He Hab. unfold scaled_by. apply rounded_monotone.
  assert (0 < 2 ^ scale) by (apply Z.pow_pos_nonneg; unfold scale; lia).
  assert (0 < 2 ^ (ec + scale)) by (apply Z.pow_pos_nonneg; unfold scale; lia).
  apply Z.div_le_mono; [lia | ]. apply Z.mul_le_mono_nonneg_r; lia.
Qed.

Lemma xorb_false_right (s : bool) : xorb s false = s.
Proof. destruct s; reflexivity. Qed.

Lemma SFmul_lift (x : spec_float) (mc : positive) (ec : Z) :
  valid_binary x = true -> not_nan x ->
  valid_binary (S754_finite false mc ec) = true ->
  Pos.size mc = 53%positive ->
  valid_binary (SFmul prec emax x (S754_finite false mc ec)) = true
  /\ rank (SFmul prec emax x (S754_finite false mc ec))
     = lift (scaled_by mc ec) x
  /\ not_nan (SFmul prec emax x (S754_finite false mc ec)).
Proof.
  intros Vx Nx Vc Hc.
  destruct (valid_finite _ _ _ Vc) as (Hec & _).
  destruct x as [sx|sx| |sx mx ex]; try contradiction;
    cbn [SFmul lift]; rewrite ?xorb_false_right.
  - cbn [rank SpecFloat.valid_binary not_nan]. unfold scaled_by.
    rewrite Z.mul_0_l, Z.div_0_l, rounded_zero; auto.
    apply Z.pow_nonzero; unfold scale; lia.
  - cbn [rank SpecFloat.valid_binary not_nan]. auto.
  - destruct (valid_finite _ _ _ Vx) as (Hex & _).
    pose proof (size_bounds mc) as [Hmc _]. rewrite Hc in Hmc.
    change (2 ^ (53 - 1)) with (2 ^ 52) in Hmc.
    pose proof (size_bounds (mx * mc)) as [_ Hsz].
    assert (53 <= Zpos (Pos.size (mx * mc))) as Hd.
    { destruct (Z.le_gt_cases 53 (Zpos (Pos.size (mx * mc)))) as [L|L];
        [exact L | ].
      assert (2 ^ Zpos (Pos.size (mx * mc)) <= 2 ^ 52)
        by (apply Z.pow_le_mono_r; lia).
      rewrite Pos2Z.inj_mul in Hsz. nia. }
    destruct (round_aux_spec sx (mx * mc) (ex + ec)) as (V & R & N).
    + unfold scale. lia.
    + rewrite digits2_size, fexp_eq. lia.
    + split; [exact V | split].
      * rewrite R. unfold scaled_by. cbn [rank].
        assert (0 < 2 ^ scale) as Hs
            by (apply Z.pow_pos_nonneg; unfold scale; lia).
        assert (0 < Zpos (mx * mc) * 2 ^ (ex + ec + scale)) as Hv.
        { apply Z.mul_pos_pos; [lia | ].
          apply Z.pow_pos_nonneg; unfold scale; lia. }
        rewrite rounded_signed by exact Hv. f_equal.
        rewrite cond_Zopp_mul.
        replace (Zpos mx * 2 ^ (ex + scale) * (Zpos mc * 2 ^ (ec + scale)))
          with (Zpos (mx * mc) * 2 ^ (ex + ec + scale) * 2 ^ scale).
        -- rewrite <- (cond_Zopp_mul sx (Zpos (mx * mc) * 2 ^ (ex + ec + scale))
                         (2 ^ scale)).
           rewrite Z.div_mul by lia. reflexivity.
        -- rewrite Pos2Z.inj_mul.
           replace (ex + ec + scale) with ((ex + scale) + ec)  by lia.
           transitivity (Zpos mx * Zpos mc
                         * (2 ^ (ex + scale) * 2 ^ (ec + scale))); [ | lia].
           rewrite <- !pow2_split by (unfold scale; lia).
           rewrite <- Z.mul_assoc. f_equal.
           rewrite <- pow2_split; [ | unfold scale; lia | unfold scale; lia].
           f_equal. lia.
      * destruct (binary_round_aux _ _ _ _ _ _); cbn; auto.
Qed.

Lemma scaled_by_bounds (mc : positive) (ec a : Z) :
  - top <= scaled_by mc ec a <= top.
Proof. apply rounded_bounds. Qed.

Lemma SFmul_monotone (x1 x2 : spec_float) (mc : positive) (ec : Z) :
  valid_binary x1 = true -> valid_binary x2 = true ->
  not_nan x1 -> not_nan x2 ->
  valid_binary (S754_finite false mc ec) = true ->
  Pos.size mc = 53%positive ->
  rank x1 <= rank x2 ->
  rank (SFmul prec emax x1 (S754_finite false mc ec))
  <= rank (SFmul prec emax x2 (S754_finite false mc ec)).
Proof.
  intros V1 V2 N1 N2 Vc Hc Hr.
  destruct (valid_finite _ _ _ Vc) as (Hec & _).
  destruct (SFmul_lift x1 mc ec V1 N1 Vc Hc) as (_ & -> & _).
  destruct (SFmul_lift x2 mc ec V2 N2 Vc Hc) as (_ & -> & _).
  apply lift_monotone; auto.
  - intros a b Hab. apply scaled_by_monotone; lia.
  - intros a. apply scaled_by_bounds.
Qed.

Lemma leb_frank (a b : float) :
  PrimFloat.leb a b = true <-> ordered a /\ ordered b /\ frank a <= frank b.
Proof.
  rewrite leb_spec. unfold ordered, frank. split.
  - intros H. destruct (SFleb_not_nan _ _ H) as [Na Nb].
    repeat split; auto.
    apply (SFleb_rank _ _ (Prim2SF_valid a) (Prim2SF_valid b) Na Nb), H.
  - intros (Na & Nb & H).
    apply (SFleb_rank _ _ (Prim2SF_valid a) (Prim2SF_valid b) Na Nb), H.
Qed.

Lemma float_leb_trans (a b c : float) :
  PrimFloat.leb a b = true -> PrimFloat.leb b c = true ->
  PrimFloat.leb a c = true.
Proof.
  rewrite !leb_frank. intros (Na & Nb & H1) (_ & Nc & H2).
  repeat split; auto. lia.
Qed.

Lemma add_monotone (c a b : float) :
  finite_or_zero (Prim2SF c) ->
  PrimFloat.leb a b = true ->
  PrimFloat.leb (PrimFloat.add c a) (PrimFloat.add c b) = true.
Proof.
  intros Fc. rewrite !leb_frank. unfold ordered, frank.
  rewrite !add_spec. intros (Na & Nb & H).
  destruct (SFadd_lift _ _ (Prim2SF_valid c) (Prim2SF_valid a) Fc Na)
    as (_ & _ & N1).
  destruct (SFadd_lift _ _ (Prim2SF_valid c) (Prim2SF_valid b) Fc Nb)
    as (_ & _ & N2).
  repeat split; auto.
  apply SFadd_monotone; auto using Prim2SF_valid.
Qed.

Lemma sub_antitone (c a b : float) :
  finite_or_zero (Prim2SF c) ->
  PrimFloat.leb a b = true ->
  PrimFloat.leb (PrimFloat.sub c b) (PrimFloat.sub c a) = true.
Proof.
  intros Fc. rewrite !leb_frank. unfold ordered, frank.
  rewrite !sub_spec. intros (Na & Nb & H).
  destruct (SFsub_valid _ _ (Prim2SF_valid c) (Prim2SF_valid a) Fc Na)
    as (_ & N1).
  destruct (SFsub_valid _ _ (Prim2SF_valid c) (Prim2SF_valid b) Fc Nb)
    as (_ & N2).
  repeat split; auto.
  apply SFsub_antitone; auto using Prim2SF_valid.
Qed.

Lemma mul_monotone (c a b : float) (mc : positive) (ec : Z) :
  Prim2SF c = S754_finite false mc ec ->
  Pos.size mc = 53%positive ->
  PrimFloat.leb a b = true ->
  PrimFloat.leb (PrimFloat.mul a c) (PrimFloat.mul b c) = true.
Proof.
  intros Hc Hs. rewrite !leb_frank. unfold ordered, frank.
  rewrite !mul_spec, Hc. intros (Na & Nb & H).
  assert (valid_binary (S754_finite false mc ec) = true) as Vc
      by (rewrite <- Hc; apply Prim2SF_valid).
  destruct (SFmul_lift _ mc ec (Prim2SF_valid a) Na Vc Hs) as (_ & _ & N1).
  destruct (SFmul_lift _ mc ec (Prim2SF_valid b) Nb Vc Hs) as (_ & _ & N2).
  repeat split; auto.
  apply SFmul_monotone; auto using Prim2SF_valid.
Qed.

(** Subtracting a float that is not below zero does not increase a float
    that is not [+infinity]. *)
Lemma sub_nonneg_le (l y bound : float) :
  finite_or_zero (Prim2SF bound) ->
  PrimFloat.leb l bound = true ->
  PrimFloat.leb 0 y = true ->
  PrimFloat.leb (PrimFloat.sub l y) l = true.
Proof.
  intros Fb Hl Hy.
  destruct (proj1 (leb_frank l bound) Hl) as (Nl & Nb & Hlb).
  destruct (proj1 (leb_frank 0 y) Hy) as (_ & Ny & H0y).
  unfold ordered, frank in *.
  change (rank (Prim2SF 0)) with 0 in H0y.
  destruct (Prim2SF l) as [sl|sl| |sl ml el] eqn:El; try contradiction.
  - (* zero *)
    assert (PrimFloat.leb (PrimFloat.sub l y) (PrimFloat.sub l 0) = true) as H.
    { apply sub_antitone; [rewrite El; exact I | exact Hy]. }
    apply (float_leb_trans _ _ _ H). apply leb_frank. unfold ordered, frank.
    rewrite sub_spec, El. change (Prim2SF 0) with (S754_zero false).
    unfold SF64sub. destruct sl; cbn [SFsub not_nan rank]; repeat split; auto; lia.
  - (* an infinity: it is the negative one *)
    destruct sl.
    + apply leb_frank. unfold ordered, frank. rewrite sub_spec, El.
      unfold SF64sub.
      pose proof (Prim2SF_valid y) as Vy.
      destruct (Prim2SF y) as [sy|sy| |sy my ey]; try contradiction;
        cbn [SFsub not_nan rank]; try (repeat split; auto; lia).
      destruct sy; [ | cbn; repeat split; auto; lia].
      cbn [rank cond_Zopp] in H0y. pose proof top_pos. lia.
    + pose proof (rank_finite_strict _ (Prim2SF_valid bound) Fb).
      cbn [rank cond_Zopp] in Hlb. lia.
  - (* finite *)
    assert (PrimFloat.leb (PrimFloat.sub l y) (PrimFloat.sub l 0) = true) as H.
    { apply sub_antitone; [rewrite El; exact I | exact Hy]. }
    apply (float_leb_trans _ _ _ H). apply leb_frank. unfold ordered, frank.
    rewrite sub_spec, El. change (Prim2SF 0) with (S754_zero false).
    unfold SF64sub. cbn [SFsub not_nan]. repeat split; auto. lia.
Qed.

End RoundingFacts.

(** ** Binary64: the calls that return *)

Section Returns.
Import Rounding.

Lemma SFmul_comm (x y : spec_float) :
  SFmul prec emax x y = SFmul prec emax y x.
Proof.
  destruct x as [sx|sx| |sx mx ex], y as [sy|sy| |sy my ey];
    cbn [SFmul]; rewrite ?(xorb_comm sx sy); try reflexivity.
  now rewrite Pos.mul_comm, Z.add_comm.
Qed.

Lemma Prim2SF_mul_comm (a b : float) :
  Prim2SF (PrimFloat.mul a b) = Prim2SF (PrimFloat.mul b a).
Proof.
  rewrite !mul_spec. apply SFmul_comm.
Qed.

Lemma finite_between (lo x hi : spec_float) :
  valid_binary lo = true -> valid_binary x = true -> valid_binary hi = true ->
  finite_or_zero lo -> finite_or_zero hi -> not_nan x ->
  (rank lo <= rank x)%Z -> (rank x <= rank hi)%Z -> finite_or_zero x.
Proof.
  intros Vlo Vx Vhi Flo Fhi Nx H1 H2.
  pose proof (rank_finite_strict lo Vlo Flo).
  pose proof (rank_finite_strict hi Vhi Fhi).
  destruct x as [s|s| |s m e]; cbn; auto.
  cbn [rank] in *. destruct s; cbn [cond_Zopp] in *; lia.
Qed.

(** A product by a positive normal constant is finite between two finite
    products. *)
Lemma mul_finite_between (c lo l hi : float) (mc : positive) (ec : Z) :
  Prim2SF c = S754_finite false mc ec ->
  Pos.size mc = 53%positive ->
  finite_or_zero (Prim2SF (PrimFloat.mul c lo)) ->
  finite_or_zero (Prim2SF (PrimFloat.mul c hi)) ->
  Binary64.le lo l -> Binary64.le l hi ->
  finite_or_zero (Prim2SF (PrimFloat.mul c l)).
Proof.
  unfold Binary64.le. intros Hc Hs Flo Fhi Hlo Hhi.
  pose proof (mul_monotone c lo l mc ec Hc Hs Hlo) as H1.
  pose proof (mul_monotone c l hi mc ec Hc Hs Hhi) as H2.
  apply leb_frank in H1, H2. unfold ordered, frank in *.
  destruct H1 as (_ & N & H1). destruct H2 as (_ & _ & H2).
  rewrite (Prim2SF_mul_comm c lo) in Flo. rewrite (Prim2SF_mul_comm c hi) in Fhi.
  rewrite (Prim2SF_mul_comm c l).
  apply (finite_between (Prim2SF (PrimFloat.mul lo c)) _
           (Prim2SF (PrimFloat.mul hi c)));
    auto using Prim2SF_valid.
Qed.

Lemma int_finite (f : float) :
  finite_or_zero (Prim2SF f) -> exists a, int f = Some a.
Proof.
  unfold int. cbn [value binary64]. unfold Binary64.to_Q.
  destruct (Prim2SF f); cbn; try contradiction; eauto.
Qed.

Lemma Qtrunc_le (q : Q) (n : Z) : q <= inject_Z n -> (Qtrunc q <= n)%Z.
Proof.
  unfold Qle, Qtrunc; cbn. rewrite Z.mul_1_r. intros Hq.
  destruct (Z.le_gt_cases 0 (Qnum q)) as [Hn|Hn].
  - apply Z.quot_le_upper_bound; [lia | ]. nia.
  - assert (Qnum q ÷ Z.pos (Qden q) <= 0)%Z
      by (apply Z.quot_le_upper_bound; [lia | nia]).
    assert (0 <= n \/ n < 0)%Z as [H0|H0] by lia; [lia | ].
    rewrite <- (Z.opp_involutive (Qnum q)), Z.quot_opp_l by lia.
    assert (- n <= - Qnum q ÷ Z.pos (Qden q))%Z; [ | lia].
    apply Z.quot_le_lower_bound; [lia | nia].
Qed.

(** The number a finite float stands for is its rank in units of
    [2^-scale]. *)
Lemma SF2Q_rank (x : spec_float) (q : Q) :
  valid_binary x = true ->
  Binary64.SF2Q x = Some q ->
  q * inject_Z (2 ^ scale) == inject_Z (rank x).
Proof.
  intros V. destruct x as [s|s| |s m e]; cbn [Binary64.SF2Q rank];
    try discriminate.
  - intros [= <-]. reflexivity.
  - intros [= <-]. destruct (valid_finite _ _ _ V) as (He & _).
    assert (Binary64.Qpow2 e * inject_Z (2 ^ scale)
            == inject_Z (2 ^ (e + scale))) as Hp.
    { destruct e as [|pe|pe]; cbn [Binary64.Qpow2].
      - rewrite Qmult_1_l. reflexivity.
      - rewrite <- inject_Z_mult. rewrite Z.pow_pos_fold.
        rewrite <- Z.pow_add_r by (unfold scale; lia). reflexivity.
      - replace scale with (Z.pos pe + (Z.neg pe + scale))%Z at 1 by lia.
        rewrite Z.pow_add_r by (unfold scale; lia).
        rewrite inject_Z_mult, Qmult_assoc.
        setoid_replace ((1 # 2 ^ pe) * inject_Z (2 ^ Z.pos pe)) with 1.
        + now rewrite Qmult_1_l.
        + unfold Qeq, Qmult, inject_Z.
          cbn [Qnum Qden]. rewrite Pos.mul_1_r, Pos2Z.inj_pow. lia. }
    destruct s; cbn [cond_Zopp].
    + rewrite <- Qmult_assoc, Hp, <- inject_Z_mult.
      replace (- (Z.pos m * 2 ^ (e + scale)))%Z
        with (Z.neg m * 2 ^ (e + scale))%Z by lia.
      reflexivity.
    + rewrite <- Qmult_assoc, Hp, <- inject_Z_mult. reflexivity.
Qed.

(** *** Order and conversion *)

Lemma leb_not_ltb (a b : float) :
  PrimFloat.leb a b = true -> PrimFloat.ltb b a = false.
Proof.
  intros Hl. apply leb_frank in Hl. destruct Hl as (Na & Nb & Hr).
  unfold ordered, frank in *.
  rewrite ltb_spec. unfold SFltb.
  rewrite (SFcompare_rank _ _ (Prim2SF_valid b) (Prim2SF_valid a) Nb Na).
  destruct (Z.compare_spec (rank (Prim2SF b)) (rank (Prim2SF a)));
    try reflexivity; lia.
Qed.

Lemma Qtrunc_floor (q : Q) : 0 <= q -> Qtrunc q = Qfloor q.
Proof.
  destruct q as [n d]. unfold Qle, Qtrunc, Qfloor. cbn.
  rewrite Z.mul_1_r. intros Hn. apply Z.quot_div_nonneg; lia.
Qed.

Lemma Qtrunc_ceiling (q : Q) : q <= 0 -> Qtrunc q = Qceiling q.
Proof.
  destruct q as [n d]. unfold Qle, Qtrunc, Qceiling, Qfloor. cbn.
  rewrite Z.mul_1_r. intros Hn.
  rewrite <- (Z.opp_involutive n) at 1.
  rewrite Z.quot_opp_l by lia. f_equal.
  apply Z.quot_div_nonneg; lia.
Qed.

Lemma Qtrunc_monotone (a b : Q) : a <= b -> (Qtrunc a <= Qtrunc b)%Z.
Proof.
  intros Hab.
  destruct (Qlt_le_dec a 0) as [Ha|Ha], (Qlt_le_dec b 0) as [Hb|Hb].
  - rewrite !Qtrunc_ceiling by now apply Qlt_le_weak.
    now apply Qceiling_resp_le.
  - rewrite Qtrunc_ceiling by now apply Qlt_le_weak.
    rewrite Qtrunc_floor by assumption.
    apply Z.le_trans with 0%Z.
    + change 0%Z with (Qceiling 0). apply Qceiling_resp_le.
      now apply Qlt_le_weak.
    + change 0%Z with (Qfloor 0). now apply Qfloor_resp_le.
  - exfalso. apply (Qlt_irrefl 0).
    apply Qle_lt_trans with a; [assumption | ].
    now apply Qle_lt_trans with b.
  - rewrite !Qtrunc_floor by assumption. now apply Qfloor_resp_le.
Qed.

(** [int] is monotone on the floats it accepts. *)
Lemma int_monotone64 (a b : float) (ia ib : Z) :
  Binary64.le a b -> int a = Some ia -> int b = Some ib -> (ia <= ib)%Z.
Proof.
  unfold Binary64.le, int. cbn [value binary64]. unfold Binary64.to_Q.
  intros Hl Ha Hb. apply leb_frank in Hl. destruct Hl as (_ & _ & Hr).
  unfold frank in Hr.
  destruct (Binary64.SF2Q (Prim2SF a)) as [qa| ] eqn:Ea; [ | discriminate].
  destruct (Binary64.SF2Q (Prim2SF b)) as [qb| ] eqn:Eb; [ | discriminate].
  injection Ha as <-. injection Hb as <-.
  apply Qtrunc_monotone.
  pose proof (SF2Q_rank _ qa (Prim2SF_valid a) Ea) as Ra.
  pose proof (SF2Q_rank _ qb (Prim2SF_valid b) Eb) as Rb.
  assert (0 < inject_Z (2 ^ scale)) as Hpos.
  { rewrite <- (Zlt_Qlt 0). apply Z.pow_pos_nonneg; unfold scale; lia. }
  apply (Qmult_le_r _ _ _ Hpos). rewrite Ra, Rb, <- Zle_Qle. exact Hr.
Qed.

Lemma alpha_scale_normal (p : Particle.t float) :
  exists mc ec,
    Prim2SF (alpha_scale p) = S754_finite false mc ec
    /\ Pos.size mc = 53%positive.
Proof.
  unfold alpha_scale. destruct (String.eqb _ _).
  - exists 7036874417766400%positive, (-45)%Z. split; vm_compute; reflexivity.
  - exists 8972014882652160%positive, (-45)%Z. split; vm_compute; reflexivity.
Qed.

(** The product of the alpha formula is monotone in the life. *)
Lemma alpha_product_monotone (p : Particle.t float) (l1 l2 : float) :
  Binary64.le l1 l2 ->
  Binary64.le (fmul (alpha_scale p) l1) (fmul (alpha_scale p) l2).
Proof.
  intros Hl. destruct (alpha_scale_normal p) as (mc & ec & Hc & Hs).
  pose proof (mul_monotone (alpha_scale p) l1 l2 mc ec Hc Hs Hl) as Hm.
  unfold Binary64.le in *. cbn [fmul binary64].
  apply leb_frank in Hm. apply leb_frank. unfold ordered, frank in *.
  now rewrite (Prim2SF_mul_comm (alpha_scale p) l1),
    (Prim2SF_mul_comm (alpha_scale p) l2).
Qed.

(** [setAlpha] accepts [max(0, a)] exactly when [a] does not exceed the
    largest C [int]. *)
Lemma c_int_max (a : Z) : c_int (Z.max 0 a) = (a <=? 2147483647)%Z.
Proof.
  unfold c_int.
  destruct (Z.leb_spec a 2147483647), (Z.leb_spec (-2147483648) (Z.max 0 a)),
    (Z.leb_spec (Z.max 0 a) 2147483647); cbn; try reflexivity; lia.
Qed.

(** [int] of the product of the alpha formula is at most 255000000 when
    the life is at most 1e6. *)
Lemma alpha_product_bounded (p : Particle.t float) (l : float) (a : Z) :
  Binary64.le l (lit 1e6) ->
  int (fmul (alpha_scale p) l) = Some a -> (a <= 255000000)%Z.
Proof.
  intros Hl Ha.
  pose proof (alpha_product_monotone p _ _ Hl) as Hm.
  assert (exists b, int (fmul (alpha_scale p) (lit 1e6)) = Some b
                    /\ (b <= 255000000)%Z) as (b & Hb & Hle).
  { unfold alpha_scale. destruct (String.eqb _ _).
    - exists 200000000%Z. split; [vm_compute; reflexivity | lia].
    - exists 255000000%Z. split; [vm_compute; reflexivity | lia]. }
  pose proof (int_monotone64 _ _ _ _ Hm Ha Hb). lia.
Qed.

Lemma update_returns64 (p : Particle.t float) (dt : float) :
  Binary64.le (lit (-1e300)) (Particle.life (updated dt p)) ->
  Binary64.le (Particle.life (updated dt p)) (lit 1e6) ->
  snd (Particle.update p dt)
  = Some (PrimFloat.ltb 0 (Particle.life (updated dt p))).
Proof.
  intros Hlo Hhi. rewrite update_result.
  assert (finite_or_zero
            (Prim2SF (PrimFloat.mul (alpha_scale p)
                        (Particle.life (updated dt p))))) as Hf.
  { unfold alpha_scale. destruct (String.eqb _ _).
    - eapply (mul_finite_between (lit 200) (lit (-1e300)) _ (lit 1e6));
        try eassumption; try (vm_compute; reflexivity); vm_compute; exact I.
    - eapply (mul_finite_between (lit 255) (lit (-1e300)) _ (lit 1e6));
        try eassumption; try (vm_compute; reflexivity); vm_compute; exact I. }
  destruct (int_finite _ Hf) as [a Ha].
  change (fmul (alpha_scale p) (Particle.life (updated dt p)))
    with (PrimFloat.mul (alpha_scale p) (Particle.life (updated dt p))).
  rewrite Ha, c_int_max.
  pose proof (alpha_product_bounded p _ a Hhi Ha) as Hb.
  destruct (Z.leb_spec a 2147483647); [reflexivity | lia].
Qed.

(** *** The alpha stays a colour channel *)

(** The alpha that [update] leaves is within the range of a colour
    channel. *)
Lemma alpha_in_range {F : Type} `{Arith F} (p : Particle.t F) (dt : F)
    (b : bool) :
  snd (Particle.update p dt) = Some b ->
  (0 <= QColor.alpha (Particle.color (updated dt p)) <= 255)%Z.
Proof.
  intros Hb. destruct (update_alpha p dt b Hb) as (a & _ & _ & ->). lia.
Qed.

(** As long as the new life is at most 1.0 the clamp of [setAlpha] is
    not needed: [int] of the product is at most 255. *)
Lemma alpha_unclamped64 (p : Particle.t float) (l : float) (a : Z) :
  Binary64.le l (lit 1.0) ->
  int (fmul (alpha_scale p) l) = Some a -> (a <= 255)%Z.
Proof.
  intros Hl Ha.
  pose proof (alpha_product_monotone p _ _ Hl) as Hm.
  assert (exists b, int (fmul (alpha_scale p) (lit 1.0)) = Some b
                    /\ (b <= 255)%Z) as (b & Hb & Hle).
  { unfold alpha_scale. destruct (String.eqb _ _).
    - exists 200%Z. split; [vm_compute; reflexivity | lia].
    - exists 255%Z. split; [vm_compute; reflexivity | lia]. }
  pose proof (int_monotone64 _ _ _ _ Hm Ha Hb). lia.
Qed.

End Returns.

(** ** Particle.update *)

(** The value a call returns, in binary64. *)
Lemma update_returned64 (p : Particle.t float) (dt : float) (b : bool) :
  snd (Particle.update p dt) = Some b ->
  b = PrimFloat.ltb 0 (PrimFloat.sub (Particle.life p) (PrimFloat.mul dt 2)).
Proof.
  intros Hb. rewrite (update_returns_alive p dt b Hb).
  unfold alive. rewrite update_life. reflexivity.
Qed.

(** C2.  In binary64, [update(dt)] leaves [life - dt*2.0] in [life]; the
    call returns exactly when [int] accepts the product of the alpha
    formula and [setAlpha] accepts the result (a C [int]), which they do
    whenever the new life lies between -1e300 and 1e6, and the value
    returned is [life > 0] of the new life, so a life equal to zero
    (either zero of the format) is reported dead. *)
Theorem update_decrements_life (p : Particle.t float) (dt : float) :
  Particle.life (updated dt p)
  = PrimFloat.sub (Particle.life p) (PrimFloat.mul dt 2)
  /\ snd (Particle.update p dt)
     = match int (fmul (alpha_scale p) (Particle.life (updated dt p))) with
       | Some a =>
           if c_int (Z.max 0 a)
           then Some (PrimFloat.ltb 0 (Particle.life (updated dt p)))
           else None
       | None => None
       end
  /\ (forall b : bool,
        snd (Particle.update p dt) = Some b ->
        (b = true <-> PrimFloat.ltb 0 (Particle.life (updated dt p)) = true))
  /\ (PrimFloat.eqb (Particle.life (updated dt p)) 0 = true ->
      snd (Particle.update p dt) = Some false)
  /\ (Binary64.le (lit (-1e300)) (Particle.life (updated dt p)) ->
      Binary64.le (Particle.life (updated dt p)) (lit 1e6) ->
      snd (Particle.update p dt)
      = Some (PrimFloat.ltb 0 (Particle.life (updated dt p)))).
Proof.
  pose proof (update_result p dt) as Hr. unfold alive in Hr.
  replace (lit 0) with 0%float in Hr by (vm_compute; reflexivity).
  repeat split.
  - rewrite update_life. reflexivity.
  - exact Hr.
  - intros ->. rewrite Hr in H.
    destruct (int _); [ | discriminate].
    destruct (c_int _); [now inversion H | discriminate].
  - intros Hl. rewrite Hr in H.
    destruct (int _); [ | discriminate].
    destruct (c_int _); [ | discriminate].
    injection H as <-. exact Hl.
  - intros Hz. rewrite Hr.
    destruct (alpha_scale_finite p) as (mc & ec & Hc).
    destruct (int_mul_zero _ _ _ _ _ Hc Hz) as [-> Hl]. cbn. now rewrite Hl.
  - apply update_returns64.
Qed.

(** C4 as amended.  When [update(dt)] returns, the alpha of the colour is
    the product of the per-type formula truncated toward zero by [int]
    (not rounded), clamped below at 0 by [max] and above at 255 by the
    colour: [min(255, max(0, int(200*life)))] for a pulse particle, which
    the 255-based assignment skips, and [min(255, max(0, int(255*life)))]
    for every other type.  In binary64 the upper clamp is idle as long
    as the new life is at most 1.0: the alpha is then
    [max(0, int(c*life))]. *)
Theorem update_sets_alpha {F : Type} `{Arith F} (p : Particle.t F) (dt : F)
    (b : bool) :
  snd (Particle.update p dt) = Some b ->
  (Particle.effect_type p = "pulse"%string ->
   exists a, int (fmul (lit 200) (Particle.life (updated dt p))) = Some a
             /\ QColor.alpha (Particle.color (updated dt p))
                = Z.min 255 (Z.max 0 a))
  /\ (Particle.effect_type p <> "pulse"%string ->
      exists a, int (fmul (lit 255) (Particle.life (updated dt p))) = Some a
                /\ QColor.alpha (Particle.color (updated dt p))
                   = Z.min 255 (Z.max 0 a))
  /\ (forall (q : Particle.t float) (d : float) (a : Z),
        Binary64.le (Particle.life (updated d q)) (lit 1.0) ->
        int (fmul (alpha_scale q) (Particle.life (updated d q))) = Some a ->
        Z.min 255 (Z.max 0 a) = Z.max 0 a).
Proof.
  intros Hb. destruct (update_alpha p dt b Hb) as (a & Ha & _ & Hc).
  unfold alpha_scale in Ha. split; [ | split]; try (intros Ht; exists a).
  - rewrite Ht in Ha. split; [exact Ha | lia].
  - apply String.eqb_neq in Ht. rewrite Ht in Ha. split; [exact Ha | lia].
  - intros q d a' Hl Ha'. pose proof (alpha_unclamped64 q _ a' Hl Ha'). lia.
Qed.

(** C10.  In binary64, for a particle of any type, a call [update(dt)]
    that returns [False] leaves the alpha of the colour at 0. *)
Theorem expired_particle_is_transparent (p : Particle.t float) (dt : float) :
  snd (Particle.update p dt) = Some false ->
  QColor.alpha (Particle.color (updated dt p)) = 0%Z.
Proof.
  intros Hb. destruct (update_alpha p dt _ Hb) as (a & Ha & _ & ->).
  apply update_returns_alive in Hb. symmetry in Hb.
  destruct (alpha_scale_finite p) as (mc & ec & Hc).
  pose proof (int_mul_not_above_zero _ _ _ _ _ Hc Hb Ha). lia.
Qed.

(** The two ends of [setAlpha]: a sparkle updated with [dt = -0.25] has
    life 1.5 and [int(255 * 1.5)] is 382, which the colour keeps as 255;
    and on a life of 1e10 the product exceeds the largest C [int], so
    the call raises. *)
Example update_clamps_the_alpha :
  let p' := updated (lit (-0.25)) Sample.sparkle64 in
  snd (Particle.update Sample.sparkle64 (lit (-0.25))) = Some true
  /\ Particle.life p' = lit 1.5
  /\ int (fmul (lit 255) (Particle.life p')) = Some 382%Z
  /\ QColor.alpha (Particle.color p') = 255%Z.
Proof.
  repeat split; vm_compute; reflexivity.
Qed.

Example update_raises_beyond_c_int :
  let p := Particle.set_life Sample.sparkle64 (lit 1e10) in
  int (fmul (lit 255) (Particle.life (updated (lit 0) p)))
  = Some 2550000000000%Z
  /\ snd (Particle.update p (lit 0)) = None.
Proof.
  split; vm_compute; reflexivity.
Qed.

Lemma update_sets_alpha_witness :
  (Particle.effect_type Sample.pulse64 = "pulse"%string ->
   exists a,
     int (fmul (lit 200) (Particle.life (updated (lit 0.1) Sample.pulse64)))
     = Some a
     /\ QColor.alpha (Particle.color (updated (lit 0.1) Sample.pulse64))
        = Z.min 255 (Z.max 0 a))
  /\ (Particle.effect_type Sample.pulse64 <> "pulse"%string ->
      exists a,
        int (fmul (lit 255)
               (Particle.life (updated (lit 0.1) Sample.pulse64)))
        = Some a
        /\ QColor.alpha (Particle.color (updated (lit 0.1) Sample.pulse64))
           = Z.min 255 (Z.max 0 a))
  /\ (forall (q : Particle.t float) (d : float) (a : Z),
        Binary64.le (Particle.life (updated d q)) (lit 1.0) ->
        int (fmul (alpha_scale q) (Particle.life (updated d q))) = Some a ->
        Z.min 255 (Z.max 0 a) = Z.max 0 a).
Proof.
  apply (update_sets_alpha Sample.pulse64 (lit 0.1) true).
  vm_compute. reflexivity.
Defined.

Lemma expired_particle_is_transparent_witness :
  QColor.alpha (Particle.color (updated (lit 0.5) Sample.celebration64))
  = 0%Z.
Proof.
  apply expired_particle_is_transparent. vm_compute. reflexivity.
Defined.

(** ** ParticleSystem.update *)

Section SystemUpdate.
Context {F : Type} `{Arith F}.

Lemma comprehension_returns (ps : list (Particle.t F)) (dt : F) :
  forall old built,
    ParticleSystem.comprehension ps dt = (old, Some built) ->
    old = map (updated dt) ps /\ built = filter alive old.
Proof.
  induction ps as [|p rest IH]; cbn; intros old built.
  - intros [= <- <-]. auto.
  - pose proof (update_returns_alive p dt) as Hp. unfold updated in *.
    destruct (Particle.update p dt) as [p' [b|]]; [ | discriminate].
    destruct (ParticleSystem.comprehension rest dt) as [rest' [kept|]];
      cbn; [ | discriminate].
    intros [= <- <-]. destruct (IH _ _ eq_refl) as [-> ->].
    cbn in Hp |- *. rewrite <- (Hp b eq_refl).
    split; [reflexivity | destruct b; reflexivity].
Qed.

Lemma Subsequence_filter {A : Type} (f : A -> bool) (l : list A) :
  Subsequence (filter f l) l.
Proof.
  induction l as [|a l IH]; cbn.
  - constructor.
  - destruct (f a); constructor; exact IH.
Qed.

Lemma filter_map_commute {A B : Type} (g : A -> B) (f : B -> bool)
    (l : list A) :
  filter f (map g l) = map g (filter (fun a => f (g a)) l).
Proof.
  induction l as [|a l IH]; cbn; [reflexivity | ].
  rewrite IH. destruct (f (g a)); reflexivity.
Qed.

(** C1.  When [ParticleSystem.update()] returns, the collection holds
    exactly the updated particles whose life is above 0: every particle in
    it satisfies [life > 0], and the particles in it are the updated
    versions of a subsequence of the old collection, so the survivors keep
    their relative order. *)
Theorem system_update_keeps_the_living (s s' : ParticleSystem.t F) (now : F) :
  ParticleSystem.update s now = (s', Some tt) ->
  let dt := fsub now (ParticleSystem.last_update s) in
  ParticleSystem.particles s'
  = filter alive (map (updated dt) (ParticleSystem.particles s))
  /\ Forall (fun p => fltb (lit 0) (Particle.life p) = true)
            (ParticleSystem.particles s')
  /\ exists kept,
       Subsequence kept (ParticleSystem.particles s)
       /\ ParticleSystem.particles s' = map (updated dt) kept.
Proof.
  intros Hu dt. unfold ParticleSystem.update in Hu. fold dt in Hu.
  destruct (ParticleSystem.comprehension _ dt) as [old [built|]] eqn:Hc;
    [ | discriminate].
  injection Hu as <-. cbn.
  destruct (comprehension_returns _ _ _ _ Hc) as [-> ->].
  split; [reflexivity | split].
  - apply Forall_forall. intros p Hp. apply filter_In in Hp. apply Hp.
  - eexists. split; [ | apply filter_map_commute].
    apply Subsequence_filter.
Qed.

End SystemUpdate.

(** In binary64 it returns when the new life of every particle lies
    between -1e300 and 1e6. *)
Lemma system_update_returns64 (s : ParticleSystem.t float) (now : float) :
  Forall (fun p =>
            let l := Particle.life
                       (updated (fsub now (ParticleSystem.last_update s)) p) in
            Binary64.le (lit (-1e300)) l /\ Binary64.le l (lit 1e6))
         (ParticleSystem.particles s) ->
  snd (ParticleSystem.update s now) = Some tt.
Proof.
  unfold ParticleSystem.update.
  generalize (fsub now (ParticleSystem.last_update s)) as dt. intros dt Hall.
  assert (exists old built,
            ParticleSystem.comprehension (ParticleSystem.particles s) dt
            = (old, Some built)) as (old & built & ->).
  { induction Hall as [|p ps [Hlo Hhi] _ IH]; cbn; [eauto | ].
    pose proof (update_returns64 p dt Hlo Hhi) as Hp.
    destruct (Particle.update p dt) as [p' r]. cbn in Hp. subst r.
    destruct IH as (old & built & ->). cbn. eauto. }
  reflexivity.
Qed.

Lemma system_update_keeps_the_living_witness :
  let s := Sample.system64 in
  let s' := fst (ParticleSystem.update s (lit 100.25)) in
  let dt := fsub (lit 100.25) (ParticleSystem.last_update s) in
  ParticleSystem.particles s'
  = filter alive (map (updated dt) (ParticleSystem.particles s))
  /\ Forall (fun p => fltb (lit 0) (Particle.life p) = true)
            (ParticleSystem.particles s')
  /\ exists kept,
       Subsequence kept (ParticleSystem.particles s)
       /\ ParticleSystem.particles s' = map (updated dt) kept.
Proof.
  apply (system_update_keeps_the_living Sample.system64).
  vm_compute. reflexivity.
Defined.

(** ** Spawning particles *)

Section Spawning.
Context {F : Type} `{Arith F}.

Lemma init_spawned_at (x y : F) (effect_type : string) (rng : Random F) :
  spawned_at x y effect_type (fst (Particle.__init__ x y effect_type rng)).
Proof.
  unfold Particle.__init__, spawned_at, random.
  repeat match goal with
         | |- context [if ?b then _ else _] => destruct b
         end; cbn; auto.
Qed.

Lemma for_range_spawn (x y : F) (effect_type : string) (n : nat) :
  forall (s : ParticleSystem.t F) (rng : Random F),
  exists added,
    ParticleSystem.particles
      (fst (ParticleSystem.for_range n
              (ParticleSystem.spawn x y effect_type) (s, rng)))
    = ParticleSystem.particles s ++ added
    /\ List.length added = n
    /\ Forall (spawned_at x y effect_type) added.
Proof.
  induction n as [|n IH]; intros s rng; cbn.
  - exists []. rewrite app_nil_r. auto.
  - unfold ParticleSystem.spawn at 2. cbn [fst snd].
    pose proof (init_spawned_at x y effect_type rng) as Hp.
    destruct (Particle.__init__ x y effect_type rng) as [p rng'].
    destruct (IH (ParticleSystem.append s p) rng') as (added & -> & Hn & Ha).
    exists (p :: added). cbn. rewrite <- app_assoc. cbn. auto.
Qed.

(** C6.  [add_celebration_burst(x, y, count)] appends [count] particles of
    type "celebration"%string (none when [count] is negative, [range(count)] being
    empty), [add_sparkles(x, y, count)] appends [count] of type "sparkle"%string,
    [add_pulse(x, y)] appends one of type "pulse"%string, each at [(x, y)]; a
    [count] left out is 8 and 3 respectively; the particles already in the
    collection stay in front, unchanged. *)
Theorem add_appends_particles (s : ParticleSystem.t F) (x y : F)
    (count : option Z) (rng : Random F) :
  (exists added,
     ParticleSystem.particles
       (fst (ParticleSystem.add_celebration_burst s x y count rng))
     = ParticleSystem.particles s ++ added
     /\ Z.of_nat (List.length added)
        = Z.max 0 (match count with Some c => c | None => 8 end)
     /\ Forall (spawned_at x y "celebration"%string) added)
  /\ (exists added,
        ParticleSystem.particles
          (fst (ParticleSystem.add_sparkles s x y count rng))
        = ParticleSystem.particles s ++ added
        /\ Z.of_nat (List.length added)
           = Z.max 0 (match count with Some c => c | None => 3 end)
        /\ Forall (spawned_at x y "sparkle"%string) added)
  /\ (exists p,
        ParticleSystem.particles (fst (ParticleSystem.add_pulse s x y rng))
        = ParticleSystem.particles s ++ [p]
        /\ spawned_at x y "pulse"%string p).
Proof.
  unfold ParticleSystem.add_celebration_burst, ParticleSystem.add_sparkles,
    ParticleSystem.add_pulse, ParticleSystem.range.
  repeat split.
  - destruct (for_range_spawn x y "celebration"%string
                (Z.to_nat (match count with Some c => c | None => 8%Z end))
                s rng) as (added & Hp & Hn & Ha).
    exists added. rewrite Hn. repeat split; [exact Hp | lia | exact Ha].
  - destruct (for_range_spawn x y "sparkle"%string
                (Z.to_nat (match count with Some c => c | None => 3%Z end))
                s rng) as (added & Hp & Hn & Ha).
    exists added. rewrite Hn. repeat split; [exact Hp | lia | exact Ha].
  - unfold ParticleSystem.spawn. cbn [fst snd].
    pose proof (init_spawned_at x y "pulse"%string rng) as Hp.
    destruct (Particle.__init__ x y "pulse"%string rng) as [p rng'].
    exists p. auto.
Qed.

(** The clock of the system is not touched by spawning. *)
Lemma for_range_spawn_last_update (x y : F) (effect_type : string) (n : nat) :
  forall (s : ParticleSystem.t F) (rng : Random F),
    ParticleSystem.last_update
      (fst (ParticleSystem.for_range n
              (ParticleSystem.spawn x y effect_type) (s, rng)))
    = ParticleSystem.last_update s.
Proof.
  induction n as [|n IH]; intros s rng; cbn; [reflexivity | ].
  unfold ParticleSystem.spawn at 2. cbn [fst snd].
  destruct (Particle.__init__ x y effect_type rng) as [p rng'].
  rewrite IH. reflexivity.
Qed.

End Spawning.

(** ** EnhancedGraphWidget.clear_graph *)

(** C7.  Clearing the graph (the module's only operation that clears: the
    particle system has no method of its own for it) empties the particle
    collection, whatever it held; without the enhanced graphics the
    widget, which then has no particle system, is left as it is. *)
Theorem clear_graph_empties_particles {F : Type} `{Arith F}
    (w : EnhancedGraphWidget.t F) :
  ParticleSystem.particles
    (EnhancedGraphWidget.particle_system
       (EnhancedGraphWidget.clear_graph true w)) = []
  /\ EnhancedGraphWidget.clear_graph false w = w.
Proof.
  split; reflexivity.
Qed.

(** ** Particles of an unknown effect type *)

Section UnknownType.
Context {F : Type} `{Arith F}.

Lemma init_unknown (x y : F) (effect_type : string) (rng : Random F) :
  unknown_type effect_type ->
  Particle.__init__ x y effect_type rng
  = ({| Particle.x := x; Particle.y := y;
        Particle.start_x := x; Particle.start_y := y;
        Particle.effect_type := effect_type;
        Particle.life := lit 1.0; Particle.max_life := lit 1.0;
        Particle.size := lit 3.0;
        Particle.velocity_x := lit 0; Particle.velocity_y := lit 0;
        Particle.color := default_green |}, rng).
Proof.
  intros (Hc & Hs & Hp). unfold Particle.__init__.
  apply String.eqb_neq in Hc, Hs, Hp. rewrite Hc, Hs, Hp. reflexivity.
Qed.

(** C8.  [Particle(x, y, effect_type)] with a type other than
    "celebration", "sparkle" and "pulse" yields a particle (no random
    number is drawn) with zero velocity and the opaque default green; and
    [update(dt)] on a particle of such a type keeps the type and the
    position, decrements life by [dt*2.0] and, returning exactly when
    [int(255*life)] is defined and no more than the largest C [int],
    leaves the alpha at [min(255, max(0, int(255*life)))]. *)
Theorem unknown_effect_type_is_static (x y : F) (effect_type : string)
    (rng : Random F) :
  unknown_type effect_type ->
  let p := fst (Particle.__init__ x y effect_type rng) in
  (Particle.effect_type p = effect_type
   /\ Particle.velocity_x p = lit 0 /\ Particle.velocity_y p = lit 0
   /\ Particle.color p = default_green
   /\ Particle.x p = x /\ Particle.y p = y /\ Particle.life p = lit 1.0)
  /\ forall (q : Particle.t F) (dt : F),
       Particle.effect_type q = effect_type ->
       Particle.effect_type (updated dt q) = effect_type
       /\ Particle.x (updated dt q) = Particle.x q
       /\ Particle.y (updated dt q) = Particle.y q
       /\ Particle.life (updated dt q)
          = fsub (Particle.life q) (fmul dt (lit 2.0))
       /\ snd (Particle.update q dt)
          = match int (fmul (lit 255) (Particle.life (updated dt q))) with
            | Some a =>
                if (a <=? 2147483647)%Z then Some (alive (updated dt q))
                else None
            | None => None
            end
       /\ forall b : bool,
            snd (Particle.update q dt) = Some b ->
            exists a,
              int (fmul (lit 255) (Particle.life (updated dt q))) = Some a
              /\ QColor.alpha (Particle.color (updated dt q))
                 = Z.min 255 (Z.max 0 a).
Proof.
  intros Hu p. subst p. rewrite (init_unknown x y effect_type rng Hu). cbn.
  split; [repeat split | ].
  destruct Hu as (Hc & Hs & Hp). intros q dt Hq. rewrite <- Hq in Hc, Hs, Hp.
  assert (alpha_scale q = lit 255) as Hscale.
  { unfold alpha_scale. apply String.eqb_neq in Hp. now rewrite Hp. }
  split; [rewrite update_effect_type; exact Hq | ].
  destruct (update_position q dt Hc Hs) as [Hx Hy].
  repeat split; auto using update_life.
  - rewrite update_result, Hscale.
    destruct (int _); [ | reflexivity]. now rewrite c_int_max.
  - intros b Hb. destruct (update_alpha q dt b Hb) as (a & Ha & _ & Hcol).
    rewrite Hscale in Ha. exists a. split; [exact Ha | lia].
Qed.

End UnknownType.

Lemma unknown_effect_type_is_static_witness :
  let p : Particle.t float :=
    fst (Particle.__init__ (lit 10) (lit 20) "confetti" Sample.draws) in
  (Particle.effect_type p = "confetti"%string
   /\ Particle.velocity_x p = lit 0 /\ Particle.velocity_y p = lit 0
   /\ Particle.color p = default_green
   /\ Particle.x p = lit 10 /\ Particle.y p = lit 20
   /\ Particle.life p = lit 1.0)
  /\ forall (q : Particle.t float) (dt : float),
       Particle.effect_type q = "confetti"%string ->
       Particle.effect_type (updated dt q) = "confetti"%string
       /\ Particle.x (updated dt q) = Particle.x q
       /\ Particle.y (updated dt q) = Particle.y q
       /\ Particle.life (updated dt q)
          = fsub (Particle.life q) (fmul dt (lit 2.0))
       /\ snd (Particle.update q dt)
          = match int (fmul (lit 255) (Particle.life (updated dt q))) with
            | Some a =>
                if (a <=? 2147483647)%Z then Some (alive (updated dt q))
                else None
            | None => None
            end
       /\ forall b : bool,
            snd (Particle.update q dt) = Some b ->
            exists a,
              int (fmul (lit 255) (Particle.life (updated dt q))) = Some a
              /\ QColor.alpha (Particle.color (updated dt q))
                 = Z.min 255 (Z.max 0 a).
Proof.
  apply (unknown_effect_type_is_static (lit 10) (lit 20) "confetti"
           Sample.draws).
  unfold unknown_type. repeat split; discriminate.
Defined.

(** ** ParticleSystem.draw *)

Section Draw.
Context {F : Type} `{Arith F}.

Lemma draw_particle_strokes (painter : QPainter.t) (view_box : ViewBox.t F)
    (p : Particle.t F) :
  ParticleSystem.draw_particle painter view_box p
  = painter ++ strokes view_box p.
Proof.
  unfold ParticleSystem.draw_particle, strokes.
  destruct (view_box _ _) as [px py| | ]; try now rewrite app_nil_r.
  destruct (Particle.effect_type p =? "pulse")%string;
    destruct (int (fsub px (fdiv (Particle.size p) (lit 2)))) as [a| ],
             (int (fsub py (fdiv (Particle.size p) (lit 2)))) as [b| ],
             (int (Particle.size p)) as [d| ];
    try destruct (QPainter.accepts a b d d);
    rewrite <- ?app_assoc; reflexivity.
Qed.

Lemma draw_particles_strokes (view_box : ViewBox.t F)
    (ps : list (Particle.t F)) :
  forall painter,
    fold_left (fun painter particle =>
                 ParticleSystem.draw_particle painter view_box particle)
              ps painter
    = painter ++ flat_map (strokes view_box) ps.
Proof.
  induction ps as [|p ps IH]; intros painter; cbn.
  - now rewrite app_nil_r.
  - now rewrite draw_particle_strokes, IH, app_assoc.
Qed.




End Draw.

(** A frame in which the mapping raises for the second of three particles:
    the first and the third are drawn, the second adds no call. *)
Example draw_skips_the_second_particle :
  snd (ParticleSystem.draw Sample.scene []
         (PlotWidget.getViewBox (Some (Sample.view_box 11))))
  = [ QPainter.setPen default_green 1; QPainter.setBrush default_green;
      QPainter.drawEllipse 8 18 2 2;
      QPainter.setPen {| QColor.red := 255; QColor.green := 215;
                         QColor.blue := 0; QColor.alpha := 255 |} 1;
      QPainter.setBrush {| QColor.red := 255; QColor.green := 215;
                           QColor.blue := 0; QColor.alpha := 255 |};
      QPainter.drawEllipse 7 17 4 4 ].
Proof.
  vm_compute. reflexivity.
Qed.


(** The same frame in binary64. *)
Example draw_skips_the_second_particle64 :
  snd (ParticleSystem.draw Sample.scene64 []
         (PlotWidget.getViewBox (Some (Sample.view_box64 (lit 11)))))
  = [ QPainter.setPen default_green 1; QPainter.setBrush default_green;
      QPainter.drawEllipse 8 18 2 2;
      QPainter.setPen {| QColor.red := 255; QColor.green := 215;
                         QColor.blue := 0; QColor.alpha := 255 |} 1;
      QPainter.setBrush {| QColor.red := 255; QColor.green := 215;
                           QColor.blue := 0; QColor.alpha := 255 |};
      QPainter.drawEllipse 7 17 4 4 ].
Proof.
  vm_compute. reflexivity.
Qed.

(** A frame in which the device abscissa is 1e10, which is not a C
    [int]: [drawEllipse] raises, the pen and the brush are already set,
    and the loop goes on to the next particle. *)
Example draw_leaves_out_a_refused_ellipse :
  snd (ParticleSystem.draw
         {| ParticleSystem.particles := [Sample.sparkle64; Sample.pulse64];
            ParticleSystem.last_update := lit 100 |}
         [] (PlotWidget.getViewBox (Some Sample.zoomed64)))
  = [ QPainter.setPen default_green 1; QPainter.setBrush default_green;
      QPainter.setPen {| QColor.red := 102; QColor.green := 187;
                         QColor.blue := 106; QColor.alpha := 200 |} 1;
      QPainter.setBrush {| QColor.red := 102; QColor.green := 187;
                           QColor.blue := 106; QColor.alpha := 200 |} ].
Proof.
  vm_compute. reflexivity.
Qed.

(** ** The lifetime of a new particle *)

Lemma init_life {F : Type} `{Arith F} (x y : F) (ty : string)
    (rng : Random F) :
  Particle.life (fst (Particle.__init__ x y ty rng)) = lit 1.0.
Proof.
  unfold Particle.__init__, random.
  repeat match goal with
         | |- context [if ?b then _ else _] => destruct b
         end; reflexivity.
Qed.

Lemma updates_succ {F : Type} `{Arith F} (n : nat) (p : Particle.t F)
    (dt : F) :
  Particle.updates (S n) p dt = updated dt (Particle.updates n p dt).
Proof.
  revert p. induction n as [|n IH]; intros p; [reflexivity | ].
  change (Particle.updates (S (S n)) p dt)
    with (Particle.updates (S n) (fst (Particle.update p dt)) dt).
  rewrite IH. reflexivity.
Qed.

Lemma updates_life_exact (n : nat) (p : Particle.t Q) (dt : Q) :
  Particle.life (Particle.updates n p dt)
  == Particle.life p - inject_Z (Z.of_nat n) * (dt * 2).
Proof.
  induction n as [|n IH].
  - cbn. ring.
  - rewrite updates_succ, update_life. cbn [fsub fmul lit exact].
    rewrite IH, Nat2Z.inj_succ. unfold Z.succ. rewrite inject_Z_plus.
    ring.
Qed.

(** In exact arithmetic [int] always succeeds, and [setAlpha] accepts
    its result as long as the life is at most 1. *)
Lemma update_returns_exact (p : Particle.t Q) (dt : Q) :
  Particle.life (updated dt p) <= 1 ->
  snd (Particle.update p dt) = Some (alive (updated dt p)).
Proof.
  intros Hl. rewrite update_result. cbn [int value exact option_map].
  rewrite c_int_max.
  match goal with
  | |- context [(?a <=? _)%Z] => assert (a <= 255)%Z as Ha
  end.
  { apply Qtrunc_le. unfold alpha_scale.
    destruct (String.eqb _ _); cbn [fmul lit exact];
      change (inject_Z 255) with 255; nra. }
  match goal with
  | |- context [(?a <=? ?b)%Z] => destruct (Z.leb_spec a b)
  end; [reflexivity | lia].
Qed.

Lemma nth_update_exact (n : nat) (p : Particle.t Q) (dt : Q) :
  (1 <= n)%nat -> 0 <= dt -> Particle.life p <= 1 ->
  Particle.nth_update n p dt
  = Some (Qltb 0 (Particle.life (Particle.updates n p dt))).
Proof.
  intros Hn Hdt Hp. unfold Particle.nth_update.
  destruct n as [|n]; [lia | ]. cbn [pred].
  rewrite update_returns_exact, updates_succ; [reflexivity | ].
  rewrite <- updates_succ, updates_life_exact.
  assert (0 <= inject_Z (Z.of_nat (S n))) by (rewrite <- (Zle_Qle 0); lia).
  nra.
Qed.

Lemma Qltb_comp (a b b' : Q) : b == b' -> Qltb a b = Qltb a b'.
Proof.
  intros E. destruct (Qltb a b') eqn:Hb.
  - apply Qltb_lt. apply Qltb_lt in Hb. now rewrite E.
  - apply Qltb_ge. apply Qltb_ge in Hb. now rewrite E.
Qed.

Lemma lifetime_calls_spec (dt : Q) :
  0 < dt ->
  (1 <= lifetime_calls dt)%Z
  /\ 1 <= inject_Z (lifetime_calls dt) * (dt * 2)
  /\ forall k : Z, (k < lifetime_calls dt)%Z -> inject_Z k * (dt * 2) < 1.
Proof.
  intros Hdt. unfold lifetime_calls.
  pose proof (Qle_ceiling (0.5 / dt)) as Hup.
  pose proof (Qceiling_lt (0.5 / dt)) as Hlo.
  set (N := Qceiling (0.5 / dt)) in *.
  assert (0.5 / dt * dt == 0.5) as Hdiv.
  { field. intros E. rewrite E in Hdt. discriminate. }
  assert (0 < 0.5 / dt) as Hpos.
  { apply Qlt_shift_div_l; [exact Hdt | ]. reflexivity. }
  repeat split.
  - assert (0 < inject_Z N) as HN by (eapply Qlt_le_trans; eauto).
    unfold Qlt in HN; cbn in HN. lia.
  - assert (0.5 <= inject_Z N * dt).
    { rewrite <- Hdiv. apply Qmult_le_compat_r; [exact Hup | now apply Qlt_le_weak]. }
    lra.
  - intros k Hk.
    assert (inject_Z k <= inject_Z (N - 1)) as Hk'.
    { rewrite <- Zle_Qle. lia. }
    assert (inject_Z k * dt < 0.5).
    { rewrite <- Hdiv. apply Qmult_lt_compat_r; [exact Hdt | ].
      eapply Qle_lt_trans; eauto. }
    lra.
Qed.

(** C3 as stated fails.  With [dt = 0.25] the stated bound
    [ceil(0.5 / (2*dt))] is one call, but the first call on a new particle
    returns [True] (its life is then 0.5); the second returns [False].
    All values are exact in binary64. *)
Lemma new_particle_outlives_stated_calls :
  stated_calls 0.25 = 1%Z
  /\ Particle.nth_update 1 Sample.sparkle64 (lit 0.25) = Some true
  /\ Particle.life (updated (lit 0.25) Sample.sparkle64) = lit 0.5
  /\ Particle.nth_update 2 Sample.sparkle64 (lit 0.25) = Some false
  /\ lifetime_calls 0.25 = 2%Z.
Proof.
  repeat split; vm_compute; reflexivity.
Qed.

(** Rounding in binary64 moves the last call.  With [dt = 0.1] the life
    left by the fifth call is a positive rounding residue, so the particle
    expires on the sixth call, one after [ceil(0.5 / dt)]. *)
Lemma binary64_tenth_expires_on_sixth_call :
  map (fun n => Particle.nth_update n Sample.pulse64 (lit 0.1))
      [1; 2; 3; 4; 5; 6]%nat
  = [Some true; Some true; Some true; Some true; Some true; Some false]
  /\ lifetime_calls 0.1 = 5%Z.
Proof.
  split; vm_compute; reflexivity.
Qed.

(** And a [dt] below half an ulp of the life is absorbed by the
    subtraction: with [dt = 1e-17] a new pulse particle is left exactly as
    it was, and no call ever returns [False]. *)
Lemma binary64_tiny_dt_never_expires (n : nat) :
  Particle.updates n Sample.pulse64 (lit 1e-17) = Sample.pulse64
  /\ Particle.nth_update (S n) Sample.pulse64 (lit 1e-17) = Some true.
Proof.
  assert (Particle.update Sample.pulse64 (lit 1e-17)
          = (Sample.pulse64, Some true)) as Hfix
      by (vm_compute; reflexivity).
  assert (forall k, Particle.updates k Sample.pulse64 (lit 1e-17)
                    = Sample.pulse64) as Hk.
  { induction k as [|k IH]; [reflexivity | ].
    cbn [Particle.updates]. rewrite Hfix. exact IH. }
  split; [apply Hk | ].
  unfold Particle.nth_update. cbn [pred]. rewrite Hk, Hfix. reflexivity.
Qed.

(** C4 as stated fails.  A sparkle particle updated with [dt = 0.375] is
    left with life 0.25; [255 * 0.25] is 63.75, which [int] truncates to
    63, while [round(255*life)] is 64.  All values are exact in
    binary64. *)
Lemma update_alpha_is_truncated_not_rounded :
  let p' := updated (lit 0.375) Sample.sparkle64 in
  snd (Particle.update Sample.sparkle64 (lit 0.375)) = Some true
  /\ Particle.life p' = lit 0.25
  /\ option_map Qred (value (fmul (lit 255) (Particle.life p')))
     = Some (255 # 4)
  /\ QColor.alpha (Particle.color p') = 63%Z
  /\ stated_alpha 255 0.25 = 64%Z.
Proof.
  repeat split; vm_compute; reflexivity.
Qed.

(** ** Pulse particles *)

Lemma pulse_size_exact (l : Q) : pulse_size l == 28 - 20 * l.
Proof.
  unfold pulse_size. cbn. ring.
Qed.

Lemma pulse_size_antitone (l1 l2 : Q) :
  l2 <= l1 -> pulse_size l1 <= pulse_size l2.
Proof.
  intros Hl. rewrite !pulse_size_exact. lra.
Qed.

Lemma sizes_sorted_exact (dts : list Q) :
  Forall (fun dt => 0 <= dt) dts ->
  forall p : Particle.t Q,
    Particle.effect_type p = "pulse"%string ->
    Sorted Qle (sizes p dts)
    /\ HdRel Qle (pulse_size (Particle.life p)) (sizes p dts).
Proof.
  induction 1 as [|dt dts Hdt _ IH]; intros p Hp; cbn.
  - split; constructor.
  - assert (Particle.effect_type (updated dt p) = "pulse"%string) as Hp'
        by (rewrite update_effect_type; exact Hp).
    destruct (IH _ Hp') as [Hs Hh].
    rewrite (update_pulse_size p dt Hp) in *.
    split; constructor; auto.
    apply pulse_size_antitone. rewrite update_life. cbn. lra.
Qed.

Section PulseBinary64.
Import Rounding.

Lemma pulse_size_antitone64 (l1 l2 : float) :
  Binary64.le l2 l1 -> Binary64.le (pulse_size l1) (pulse_size l2).
Proof.
  unfold Binary64.le, pulse_size. cbn [fadd fsub fmul binary64]. intros Hl.
  apply add_monotone; [vm_compute; exact I | ].
  eapply mul_monotone; [vm_compute; reflexivity | reflexivity | ].
  apply sub_antitone; [vm_compute; exact I | exact Hl].
Qed.

Lemma update_life_le64 (p : Particle.t float) (dt : float) :
  Binary64.le (Particle.life p) (lit 1.0) -> Binary64.le (lit 0) dt ->
  Binary64.le (Particle.life (updated dt p)) (Particle.life p)
  /\ Binary64.le (Particle.life (updated dt p)) (lit 1.0).
Proof.
  unfold Binary64.le. intros Hl Hdt. rewrite update_life.
  cbn [fsub fmul binary64].
  assert (PrimFloat.leb 0 (PrimFloat.mul dt (lit 2.0)) = true) as Hy.
  { change 0%float with (PrimFloat.mul (lit 0) (lit 2.0)) at 1.
    eapply mul_monotone; [vm_compute; reflexivity | reflexivity | exact Hdt]. }
  assert (PrimFloat.leb (PrimFloat.sub (Particle.life p)
                           (PrimFloat.mul dt (lit 2.0)))
                        (Particle.life p) = true) as Hle.
  { apply (sub_nonneg_le _ _ (lit 1.0)); [vm_compute; exact I | exact Hl | ].
    exact Hy. }
  split; [exact Hle | ]. eapply float_leb_trans; eassumption.
Qed.

Lemma sizes_sorted64 (dts : list float) :
  Forall (Binary64.le (lit 0)) dts ->
  forall p : Particle.t float,
    Particle.effect_type p = "pulse"%string ->
    Binary64.le (Particle.life p) (lit 1.0) ->
    Sorted Binary64.le (sizes p dts)
    /\ HdRel Binary64.le (pulse_size (Particle.life p)) (sizes p dts).
Proof.
  induction 1 as [|dt dts Hdt _ IH]; intros p Hp Hl; cbn [sizes].
  - split; constructor.
  - assert (Particle.effect_type (updated dt p) = "pulse"%string) as Hp'
        by (rewrite update_effect_type; exact Hp).
    destruct (update_life_le64 p dt Hl Hdt) as [Hdec Hl'].
    destruct (IH _ Hp' Hl') as [Hs Hh].
    rewrite (update_pulse_size p dt Hp) in *.
    split; constructor; auto.
    apply pulse_size_antitone64, Hdec.
Qed.

End PulseBinary64.

(** C5.  For a pulse particle, in every arithmetic, [update] leaves the
    position as it is and sets [size] to [8.0 + (1.0 - life) * 20], [life]
    being the decremented life.  That size is exactly 8.0 at life 1.0 and
    28.0 at life 0, and it does not decrease when life decreases: in
    binary64 ([<=] of floats, the roundings of the subtraction, the
    product and the sum being monotone) as in exact arithmetic.  So along
    any sequence of updates with [dt >= 0], from a life of at most 1.0,
    the sizes are non-decreasing, starting from the constructor's 8.0.  In
    exact arithmetic the size is [28 - 20*life], within [eps] of 28 once
    life is within [eps/20] of 0. *)
Theorem pulse_grows_as_it_fades :
  (forall (F : Type) (A : Arith F) (p : Particle.t F) (dt : F),
     Particle.effect_type p = "pulse"%string ->
     Particle.x (updated dt p) = Particle.x p
     /\ Particle.y (updated dt p) = Particle.y p
     /\ Particle.size (updated dt p)
        = fadd (lit 8.0)
            (fmul (fsub (lit 1.0) (Particle.life (updated dt p))) (lit 20)))
  /\ ((pulse_size (F := float) (lit 1.0) = lit 8.0
       /\ pulse_size (F := float) (lit 0) = lit 28)
      /\ (forall l1 l2 : float,
            Binary64.le l2 l1 -> Binary64.le (pulse_size l1) (pulse_size l2))
      /\ (forall (p : Particle.t float) (dts : list float),
            Particle.effect_type p = "pulse"%string ->
            Binary64.le (Particle.life p) (lit 1.0) ->
            Forall (Binary64.le (lit 0)) dts ->
            Sorted Binary64.le (sizes p dts))
      /\ (forall (x y : float) (rng : Random float) (dts : list float),
            Forall (Binary64.le (lit 0)) dts ->
            let p := fst (Particle.__init__ x y "pulse" rng) in
            Particle.size p = lit 8.0
            /\ Sorted Binary64.le (Particle.size p :: sizes p dts)))
  /\ ((pulse_size (F := Q) 1 == 8 /\ pulse_size (F := Q) 0 == 28)
      /\ (forall eps l : Q,
            0 < eps -> Qabs l < eps / 20 -> Qabs (pulse_size l - 28) < eps)
      /\ (forall l1 l2 : Q, l2 <= l1 -> pulse_size l1 <= pulse_size l2)
      /\ (forall (p : Particle.t Q) (dts : list Q),
            Particle.effect_type p = "pulse"%string ->
            Forall (fun dt => 0 <= dt) dts ->
            Sorted Qle (sizes p dts))
      /\ (forall (x y : Q) (rng : Random Q) (dts : list Q),
            Forall (fun dt => 0 <= dt) dts ->
            let p := fst (Particle.__init__ x y "pulse" rng) in
            Particle.size p == 8
            /\ Sorted Qle (Particle.size p :: sizes p dts))).
Proof.
  split; [ | split].
  - intros F A p dt Hp. split; [ | split].
    + apply update_position; rewrite Hp; discriminate.
    + apply update_position; rewrite Hp; discriminate.
    + apply (update_pulse_size p dt Hp).
  - split; [ | split; [ | split]].
    + split; vm_compute; reflexivity.
    + apply pulse_size_antitone64.
    + intros p dts Hp Hl Hd. apply (sizes_sorted64 dts Hd p Hp Hl).
    + intros x y rng dts Hd p.
      assert (Particle.effect_type p = "pulse"%string) as Hp by reflexivity.
      assert (Binary64.le (Particle.life p) (lit 1.0)) as Hl
          by (vm_compute; reflexivity).
      destruct (sizes_sorted64 dts Hd p Hp Hl) as [Hs Hh].
      split; [reflexivity | ]. constructor; [exact Hs | ].
      assert (Binary64.le (Particle.size p) (pulse_size (Particle.life p)))
        as H8 by (vm_compute; reflexivity).
      inversion Hh as [|b l Hb]; constructor.
      exact (float_leb_trans (Particle.size p)
               (pulse_size (Particle.life p)) b H8 Hb).
  - split; [ | split; [ | split; [ | split]]].
    + split; reflexivity.
    + intros eps l Heps Hl. rewrite pulse_size_exact.
      setoid_replace (28 - 20 * l - 28) with (- (20 * l)) by ring.
      rewrite Qabs_opp, Qabs_Qmult.
      setoid_replace (Qabs 20) with 20 by reflexivity.
      setoid_replace eps with (20 * (eps / 20)) by field.
      apply Qmult_lt_l; [reflexivity | exact Hl].
    + apply pulse_size_antitone.
    + intros p dts Hp Hd. apply (sizes_sorted_exact dts Hd p Hp).
    + intros x y rng dts Hd p.
      assert (Particle.effect_type p = "pulse"%string) as Hp by reflexivity.
      destruct (sizes_sorted_exact dts Hd p Hp) as [Hs Hh].
      split; [reflexivity | ]. constructor; [exact Hs | ].
      assert (Particle.size p <= pulse_size (Particle.life p)) as H8
          by (unfold Qle; cbn; lia).
      inversion Hh as [|b l Hb]; constructor.
      eapply Qle_trans; [exact H8 | exact Hb].
Qed.

(** * Further properties of the code *)

(** ** Particle.update: what a call leaves alone *)

Section Frame.
Context {F : Type} `{Arith F}.
Local Open Scope string_scope.

(** X1.  [update(dt)] assigns only the animated attributes: whether it
    returns or raises, it leaves the type, the start position, the
    maximal life, the horizontal velocity and the red, green and blue
    channels of the colour as they were; it changes the vertical velocity
    only of a celebration particle and the size only of a pulse. *)
Theorem update_keeps_the_identity (p : Particle.t F) (dt : F) :
  let p' := fst (Particle.update p dt) in
  Particle.effect_type p' = Particle.effect_type p
  /\ Particle.start_x p' = Particle.start_x p
  /\ Particle.start_y p' = Particle.start_y p
  /\ Particle.max_life p' = Particle.max_life p
  /\ Particle.velocity_x p' = Particle.velocity_x p
  /\ QColor.red (Particle.color p') = QColor.red (Particle.color p)
  /\ QColor.green (Particle.color p') = QColor.green (Particle.color p)
  /\ QColor.blue (Particle.color p') = QColor.blue (Particle.color p)
  /\ (Particle.effect_type p <> "celebration" ->
      Particle.velocity_y p' = Particle.velocity_y p)
  /\ (Particle.effect_type p <> "pulse" ->
      Particle.size p' = Particle.size p).
Proof.
  intros p'. subst p'. fold (updated dt p).
  split; [apply update_effect_type | ].
  pose proof (update_constants p dt) as (Hsx & Hsy & Hm & Hv & Hr & Hg & Hb).
  repeat (split; [assumption | ]).
  split.
  - intros Hc. rewrite update_velocity_y.
    now rewrite (proj2 (String.eqb_neq _ _) Hc).
  - apply update_size.
Qed.

End Frame.

(** ** Particle.update in binary64: fading and expiry *)

Section Fading.
Local Open Scope string_scope.

(** X2.  In binary64 a particle whose life is not above 0 stays dead:
    for every [dt >= 0] its life after [update(dt)] is again at most 0,
    the call never returns [True], and it returns [False] whenever the
    new life is at least -1e300 (below, [int] may overflow and the call
    raise). *)
Theorem dead_particle_stays_dead (p : Particle.t float) (dt : float) :
  Binary64.le (Particle.life p) (lit 0) ->
  Binary64.le (lit 0) dt ->
  Binary64.le (Particle.life (updated dt p)) (lit 0)
  /\ snd (Particle.update p dt) <> Some true
  /\ (Binary64.le (lit (-1e300)) (Particle.life (updated dt p)) ->
      snd (Particle.update p dt) = Some false).
Proof.
  intros Hl Hdt.
  assert (Binary64.le (Particle.life p) (lit 1.0)) as Hl1.
  { unfold Binary64.le in *. eapply float_leb_trans; [exact Hl | ].
    vm_compute. reflexivity. }
  destruct (update_life_le64 p dt Hl1 Hdt) as [Hdec _].
  assert (Binary64.le (Particle.life (updated dt p)) (lit 0)) as Hl'.
  { unfold Binary64.le in *. eapply float_leb_trans; eassumption. }
  assert (alive (updated dt p) = false) as Hdead.
  { unfold alive. cbn [fltb binary64]. now apply leb_not_ltb. }
  split; [exact Hl' | split].
  - intros E. pose proof (update_returns_alive p dt true E). congruence.
  - intros Hlo. rewrite update_returns64; [ | exact Hlo | ].
    + f_equal. exact Hdead.
    + unfold Binary64.le in *. eapply float_leb_trans; [exact Hl' | ].
      vm_compute. reflexivity.
Qed.

(** X3.  In binary64, when [update(dt)] returns on a particle whose
    life was at most 1.0, with [dt >= 0], the alpha it has set is a
    colour channel: within 0..255, and within 0..200 for a pulse. *)
Theorem alpha_is_a_colour_channel (p : Particle.t float) (dt : float)
    (b : bool) :
  snd (Particle.update p dt) = Some b ->
  Binary64.le (Particle.life p) (lit 1.0) ->
  Binary64.le (lit 0) dt ->
  (0 <= QColor.alpha (Particle.color (updated dt p))
   <= if String.eqb (Particle.effect_type p) "pulse" then 200 else 255)%Z.
Proof.
  intros Hb Hl Hdt. destruct (update_alpha p dt b Hb) as (a & Ha & _ & ->).
  destruct (update_life_le64 p dt Hl Hdt) as [_ Hl'].
  pose proof (alpha_product_monotone p _ _ Hl') as Hm.
  assert (int (fmul (alpha_scale p) (lit 1.0))
          = Some (if String.eqb (Particle.effect_type p) "pulse"
                  then 200 else 255)%Z)
    as Hone.
  { unfold alpha_scale. destruct (String.eqb _ _); vm_compute; reflexivity. }
  pose proof (int_monotone64 _ _ _ _ Hm Ha Hone).
  destruct (Particle.effect_type p =? "pulse"); lia.
Qed.

(** X4.  In binary64 particles only fade: over two successive calls of
    [update] that return, the second with [dt >= 0] on a life of at most
    1.0, the alpha after the second call is at most the alpha after the
    first. *)
Theorem alpha_never_increases (p : Particle.t float) (dt1 dt2 : float)
    (b1 b2 : bool) :
  let p1 := updated dt1 p in
  let p2 := updated dt2 p1 in
  snd (Particle.update p dt1) = Some b1 ->
  snd (Particle.update p1 dt2) = Some b2 ->
  Binary64.le (Particle.life p1) (lit 1.0) ->
  Binary64.le (lit 0) dt2 ->
  (QColor.alpha (Particle.color p2) <= QColor.alpha (Particle.color p1))%Z.
Proof.
  intros p1 p2 H1 H2 Hl Hdt. subst p2.
  destruct (update_alpha p dt1 b1 H1) as (a1 & Ha1 & _ & E1).
  fold p1 in Ha1, E1.
  destruct (update_alpha p1 dt2 b2 H2) as (a2 & Ha2 & _ & E2).
  rewrite E1, E2.
  destruct (update_life_le64 p1 dt2 Hl Hdt) as [Hdec _].
  assert (alpha_scale p1 = alpha_scale p) as Hs
    by (unfold alpha_scale, p1; now rewrite update_effect_type).
  rewrite Hs in Ha2.
  pose proof (alpha_product_monotone p _ _ Hdec) as Hm.
  pose proof (int_monotone64 _ _ _ _ Hm Ha2 Ha1). lia.
Qed.

(** X5.  In binary64 the size [update] gives a pulse is at least 8 when
    the new life is at most 1.0, at most 28 while the new life is not
    negative, and at least 28 once the new life is not positive: the
    update that kills a pulse can leave it larger than 28. *)
Theorem pulse_size_range (p : Particle.t float) (dt : float) :
  Particle.effect_type p = "pulse" ->
  let l := Particle.life (updated dt p) in
  let size := Particle.size (updated dt p) in
  (Binary64.le l (lit 1.0) -> Binary64.le (lit 8) size)
  /\ (Binary64.le (lit 0) l -> Binary64.le size (lit 28))
  /\ (Binary64.le l (lit 0) -> Binary64.le (lit 28) size).
Proof.
  intros Hp l size. subst l size. rewrite (update_pulse_size p dt Hp).
  repeat split; intros Hl; apply pulse_size_antitone64 in Hl;
    unfold Binary64.le in *;
    [ eapply float_leb_trans; [ | exact Hl]
    | eapply float_leb_trans; [exact Hl | ]
    | eapply float_leb_trans; [ | exact Hl] ];
    vm_compute; reflexivity.
Qed.

End Fading.

(** ** Particle.__init__ in binary64: the random attributes *)

Section Ranges.
Local Open Scope string_scope.

Ltac bound :=
  unfold Binary64.le in *;
  repeat first
    [ eassumption
    | (eapply mul_monotone; [vm_compute; reflexivity | reflexivity | ])
    | (apply sub_antitone; [vm_compute; exact I | ])
    | (apply add_monotone; [vm_compute; exact I | ]) ].

(** X6.  In binary64, with random numbers between 0 and 1, a new
    celebration particle has a horizontal velocity within [-10, 10], a
    vertical velocity within [-25, -10] and a size within [4, 7]; a new
    sparkle has both velocities within [-2.5, 2.5] and a size within
    [2, 4]. *)
Theorem new_particle_ranges (x y : float) (rng : Random float) :
  (forall n, within64 0 (rng n) 1) ->
  (let p := fst (Particle.__init__ x y "celebration" rng) in
   within64 (-10) (Particle.velocity_x p) 10
   /\ within64 (-25) (Particle.velocity_y p) (-10)
   /\ within64 4 (Particle.size p) 7)
  /\ (let p := fst (Particle.__init__ x y "sparkle" rng) in
      within64 (-2.5) (Particle.velocity_x p) 2.5
      /\ within64 (-2.5) (Particle.velocity_y p) 2.5
      /\ within64 2 (Particle.size p) 4).
Proof.
  intros Hr.
  destruct (Hr 0%nat) as [L0 U0], (Hr 1%nat) as [L1 U1],
    (Hr 2%nat) as [L2 U2].
  unfold within64. cbn [Particle.__init__ String.eqb Ascii.eqb Bool.eqb fst
    random Particle.velocity_x Particle.velocity_y Particle.size
    Particle.set_velocity_x Particle.set_velocity_y Particle.set_size
    Particle.set_color].
  cbn [fadd fsub fmul binary64].
  set (r0 := rng 0%nat) in *. set (r1 := rng 1%nat) in *.
  set (r2 := rng 2%nat) in *.
  repeat split.
  - apply float_leb_trans
      with (PrimFloat.mul (PrimFloat.sub (lit 0.5) (lit 1)) (lit 20));
      [vm_compute; reflexivity | bound].
  - apply float_leb_trans
      with (PrimFloat.mul (PrimFloat.sub (lit 0.5) (lit 0)) (lit 20));
      [bound | vm_compute; reflexivity].
  - apply float_leb_trans
      with (PrimFloat.sub (lit (-10)) (PrimFloat.mul (lit 1) (lit 15)));
      [vm_compute; reflexivity | bound].
  - apply float_leb_trans
      with (PrimFloat.sub (lit (-10)) (PrimFloat.mul (lit 0) (lit 15)));
      [bound | vm_compute; reflexivity].
  - apply float_leb_trans
      with (PrimFloat.add (lit 4.0) (PrimFloat.mul (lit 0) (lit 3)));
      [vm_compute; reflexivity | bound].
  - apply float_leb_trans
      with (PrimFloat.add (lit 4.0) (PrimFloat.mul (lit 1) (lit 3)));
      [bound | vm_compute; reflexivity].
  - apply float_leb_trans
      with (PrimFloat.mul (PrimFloat.sub (lit 0.5) (lit 1)) (lit 5));
      [vm_compute; reflexivity | bound].
  - apply float_leb_trans
      with (PrimFloat.mul (PrimFloat.sub (lit 0.5) (lit 0)) (lit 5));
      [bound | vm_compute; reflexivity].
  - apply float_leb_trans
      with (PrimFloat.mul (PrimFloat.sub (lit 0.5) (lit 1)) (lit 5));
      [vm_compute; reflexivity | bound].
  - apply float_leb_trans
      with (PrimFloat.mul (PrimFloat.sub (lit 0.5) (lit 0)) (lit 5));
      [bound | vm_compute; reflexivity].
  - apply float_leb_trans
      with (PrimFloat.add (lit 2.0) (PrimFloat.mul (lit 0) (lit 2)));
      [vm_compute; reflexivity | bound].
  - apply float_leb_trans
      with (PrimFloat.add (lit 2.0) (PrimFloat.mul (lit 1) (lit 2)));
      [bound | vm_compute; reflexivity].
Qed.

End Ranges.

(** ** Motion over several calls *)

Section Motion.
Context {F : Type} `{Arith F}.
Local Open Scope string_scope.

Lemma updates_effect_type (n : nat) (p : Particle.t F) (dt : F) :
  Particle.effect_type (Particle.updates n p dt) = Particle.effect_type p.
Proof.
  induction n as [|n IH]; [reflexivity | ].
  now rewrite updates_succ, update_effect_type.
Qed.

Lemma updates_velocity_x (n : nat) (p : Particle.t F) (dt : F) :
  Particle.velocity_x (Particle.updates n p dt) = Particle.velocity_x p.
Proof.
  induction n as [|n IH]; [reflexivity | ].
  rewrite updates_succ. now rewrite (proj1 (proj2 (proj2 (proj2
    (update_constants (Particle.updates n p dt) dt))))).
Qed.

Lemma updates_velocity_y (n : nat) (p : Particle.t F) (dt : F) :
  Particle.velocity_y (Particle.updates n p dt)
  = if Particle.effect_type p =? "celebration"
    then Nat.iter n (fun v => fadd v (fmul (lit 30) dt))
           (Particle.velocity_y p)
    else Particle.velocity_y p.
Proof.
  induction n as [|n IH].
  - cbn. now destruct (_ =? _).
  - rewrite updates_succ, update_velocity_y, updates_effect_type, IH.
    cbn [Nat.iter]. now destruct (_ =? _).
Qed.

(** X7.  In every arithmetic [n] successive calls [update(dt)] leave the
    velocity and the size of a sparkle as they were and move it by the
    same step each time: [velocity_x * dt] is added [n] times to [x],
    and [velocity_y * dt] to [y]. *)
Theorem sparkle_moves_uniformly (p : Particle.t F) (dt : F) (n : nat) :
  Particle.effect_type p = "sparkle" ->
  let q := Particle.updates n p dt in
  Particle.velocity_x q = Particle.velocity_x p
  /\ Particle.velocity_y q = Particle.velocity_y p
  /\ Particle.size q = Particle.size p
  /\ Particle.x q
     = Nat.iter n (fun x => fadd x (fmul (Particle.velocity_x p) dt))
         (Particle.x p)
  /\ Particle.y q
     = Nat.iter n (fun y => fadd y (fmul (Particle.velocity_y p) dt))
         (Particle.y p).
Proof.
  intros Hs q. subst q.
  assert (forall n, Particle.velocity_y (Particle.updates n p dt)
                    = Particle.velocity_y p) as Hvy.
  { intros k. rewrite updates_velocity_y, Hs. reflexivity. }
  split; [apply updates_velocity_x | split; [apply Hvy | ]].
  induction n as [|n (Hsize & Hx & Hy)]; [cbn; auto | ].
  rewrite updates_succ.
  assert (Particle.effect_type (Particle.updates n p dt) = "sparkle") as Ht
    by now rewrite updates_effect_type.
  destruct (update_moves (Particle.updates n p dt) dt (or_intror Ht))
    as [-> ->].
  rewrite update_size by (rewrite Ht; discriminate).
  rewrite updates_velocity_x, Hvy, Hx, Hy. cbn [Nat.iter]. auto.
Qed.

(** X8.  In every arithmetic [n] successive calls [update(dt)] on a
    celebration particle are explicit Euler steps under the gravity 30:
    each call advances [y] by [velocity_y * dt] with the velocity the
    previous call left and only then adds [30 * dt] to the velocity,
    while [x] advances by the same step [velocity_x * dt] each time and
    the horizontal velocity and the size stay as they were. *)
Theorem celebration_falls_by_euler_steps (p : Particle.t F) (dt : F)
    (n : nat) :
  Particle.effect_type p = "celebration" ->
  let q := Particle.updates n p dt in
  Particle.velocity_x q = Particle.velocity_x p
  /\ Particle.size q = Particle.size p
  /\ Particle.x q
     = Nat.iter n (fun x => fadd x (fmul (Particle.velocity_x p) dt))
         (Particle.x p)
  /\ (Particle.velocity_y q, Particle.y q)
     = Nat.iter n
         (fun vy => (fadd (fst vy) (fmul (lit 30) dt),
                     fadd (snd vy) (fmul (fst vy) dt)))
         (Particle.velocity_y p, Particle.y p).
Proof.
  intros Hc q. subst q.
  split; [apply updates_velocity_x | ].
  induction n as [|n (Hsize & Hx & Hy)]; [cbn; auto | ].
  rewrite updates_succ.
  assert (Particle.effect_type (Particle.updates n p dt) = "celebration")
    as Ht by now rewrite updates_effect_type.
  destruct (update_moves (Particle.updates n p dt) dt (or_introl Ht))
    as [-> ->].
  rewrite update_size by (rewrite Ht; discriminate).
  rewrite update_velocity_y, Ht, updates_velocity_x, Hsize, Hx.
  cbn [String.eqb Ascii.eqb Bool.eqb]. rewrite !Nat.iter_succ, <- Hy.
  repeat split.
Qed.

End Motion.

(** ** ParticleSystem.update: a particle whose update raises *)

Section SystemRaise.
Context {F : Type} `{Arith F}.

Lemma comprehension_raises (dt : F) (ps : list (Particle.t F)) :
  forall old,
    ParticleSystem.comprehension ps dt = (old, None) ->
    exists before bad after,
      ps = before ++ bad :: after
      /\ Forall (fun p => snd (Particle.update p dt) <> None) before
      /\ snd (Particle.update bad dt) = None
      /\ old = map (updated dt) before ++ updated dt bad :: after.
Proof.
  induction ps as [|p ps IH]; intros old; cbn; [discriminate | ].
  unfold updated in *.
  destruct (Particle.update p dt) as [p' [alive| ]] eqn:Hp.
  - destruct (ParticleSystem.comprehension ps dt) as [rest' built].
    destruct built as [kept| ]; cbn; [discriminate | ].
    intros [= <-].
    destruct (IH rest' eq_refl) as (before & bad & after & -> & Hb & Hr & ->).
    exists (p :: before), bad, after. cbn. rewrite Hp. cbn.
    repeat split; auto.
    constructor; [rewrite Hp; discriminate | assumption].
  - intros [= <-]. exists [], p, ps. cbn. rewrite Hp. cbn.
    repeat split; auto.
Qed.

Lemma comprehension_old (dt : F) (ps : list (Particle.t F)) :
  forall old built,
    ParticleSystem.comprehension ps dt = (old, Some built) ->
    Forall (fun p => snd (Particle.update p dt) <> None) ps.
Proof.
  induction ps as [|p ps IH]; intros old built; cbn; [constructor | ].
  destruct (Particle.update p dt) as [p' [alive| ]] eqn:Hp; [ | discriminate].
  destruct (ParticleSystem.comprehension ps dt) as [rest' [kept| ]];
    cbn; [ | discriminate].
  intros _. constructor; [rewrite Hp; discriminate | eauto].
Qed.

(** X9.  When the update of a particle raises inside the update of the
    system, the update of the system raises and has removed nothing:
    [last_update] is already the current time and the list has its old
    length; the particles before the failing one, and that one, are as
    their update left them, the dead ones among them included, and the
    particles after it are untouched. *)
Theorem system_update_raise_removes_nothing (s : ParticleSystem.t F)
    (now : F) :
  snd (ParticleSystem.update s now) = None ->
  let dt := fsub now (ParticleSystem.last_update s) in
  let s' := fst (ParticleSystem.update s now) in
  ParticleSystem.last_update s' = now
  /\ List.length (ParticleSystem.particles s')
     = List.length (ParticleSystem.particles s)
  /\ exists before bad after,
       ParticleSystem.particles s = before ++ bad :: after
       /\ Forall (fun p => snd (Particle.update p dt) <> None) before
       /\ snd (Particle.update bad dt) = None
       /\ ParticleSystem.particles s'
          = map (updated dt) before ++ updated dt bad :: after.
Proof.
  intros Hr dt s'. subst s'. revert Hr. unfold ParticleSystem.update.
  fold dt.
  destruct (ParticleSystem.comprehension (ParticleSystem.particles s) dt)
    as [old [built| ]] eqn:Hc; cbn; [discriminate | intros _].
  destruct (comprehension_raises _ _ _ Hc)
    as (before & bad & after & Hs & Hb & Hbad & ->).
  split; [reflexivity | split].
  - rewrite Hs, !length_app. cbn. now rewrite length_map.
  - exists before, bad, after. auto.
Qed.

(** The system's update raises exactly when the update of one of its
    particles does. *)
Lemma system_update_raises_iff (s : ParticleSystem.t F) (now : F) :
  snd (ParticleSystem.update s now) = None
  <-> Exists (fun p => snd (Particle.update p
                              (fsub now (ParticleSystem.last_update s)))
                       = None)
             (ParticleSystem.particles s).
Proof.
  unfold ParticleSystem.update.
  set (dt := fsub now (ParticleSystem.last_update s)).
  destruct (ParticleSystem.comprehension (ParticleSystem.particles s) dt)
    as [old [built| ]] eqn:Hc; cbn.
  - split; [discriminate | ].
    intros He. pose proof (comprehension_old _ _ _ _ Hc) as Hall.
    apply Exists_exists in He. destruct He as (p & Hin & Hp).
    rewrite Forall_forall in Hall. now destruct (Hall p Hin).
  - split; [intros _ | reflexivity].
    destruct (comprehension_raises _ _ _ Hc)
      as (before & bad & after & -> & _ & Hbad & _).
    apply Exists_exists. exists bad. split; [ | assumption].
    apply in_or_app. right. now left.
Qed.

End SystemRaise.

(** ** ParticleSystem.update: when every particle returns *)

Section SystemReturn.
Context {F : Type} `{Arith F}.

Lemma comprehension_all_return (dt : F) (ps : list (Particle.t F)) :
  Forall (fun p => snd (Particle.update p dt) <> None) ps ->
  ParticleSystem.comprehension ps dt
  = (map (updated dt) ps, Some (filter alive (map (updated dt) ps))).
Proof.
  intros Hall.
  assert (exists old built,
            ParticleSystem.comprehension ps dt = (old, Some built))
    as (old & built & Hc).
  { induction Hall as [|p ps Hp _ IH]; cbn; [eauto | ].
    destruct (Particle.update p dt) as [p' [b| ]]; [ | now destruct Hp].
    destruct IH as (old & built & ->). cbn. eauto. }
  rewrite Hc. now destruct (comprehension_returns _ _ _ _ Hc) as [-> ->].
Qed.

(** The update of a system when the update of every particle returns. *)
Lemma system_update_all_return (s : ParticleSystem.t F) (now : F) :
  Forall (fun p => snd (Particle.update p
                          (fsub now (ParticleSystem.last_update s)))
                   <> None)
         (ParticleSystem.particles s) ->
  ParticleSystem.update s now
  = ({| ParticleSystem.particles :=
          filter alive
            (map (updated (fsub now (ParticleSystem.last_update s)))
                 (ParticleSystem.particles s));
        ParticleSystem.last_update := now |}, Some tt).
Proof.
  intros Hall. unfold ParticleSystem.update.
  now rewrite (comprehension_all_return _ _ Hall).
Qed.

Lemma system_update_returned (s : ParticleSystem.t F) (now : F) :
  snd (ParticleSystem.update s now) = Some tt ->
  Forall (fun p => snd (Particle.update p
                          (fsub now (ParticleSystem.last_update s)))
                   <> None)
         (ParticleSystem.particles s).
Proof.
  unfold ParticleSystem.update.
  destruct (ParticleSystem.comprehension _ _) as [old [built| ]] eqn:Hc;
    [ | discriminate].
  intros _. exact (comprehension_old _ _ _ _ Hc).
Qed.

Lemma for_range_spawn_new (x y : F) (effect_type : string) (n : nat) :
  forall (s : ParticleSystem.t F) (rng : Random F),
  exists added,
    fst (ParticleSystem.for_range n
           (ParticleSystem.spawn x y effect_type) (s, rng))
    = {| ParticleSystem.particles := ParticleSystem.particles s ++ added;
         ParticleSystem.last_update := ParticleSystem.last_update s |}
    /\ Forall (fun p => Particle.life p = lit 1.0) added.
Proof.
  induction n as [|n IH]; intros s rng; cbn.
  - exists []. rewrite app_nil_r. destruct s; auto.
  - unfold ParticleSystem.spawn at 2. cbn [fst snd].
    pose proof (init_life x y effect_type rng) as Hp.
    destruct (Particle.__init__ x y effect_type rng) as [p rng'].
    destruct (IH (ParticleSystem.append s p) rng') as (added & -> & Ha).
    exists (p :: added). cbn. rewrite <- app_assoc. cbn. auto.
Qed.

End SystemReturn.

(** ** Particles spawned long after the last update *)

Section StaleSpawn.

(** A new particle does not survive a [dt] of half a second or more. *)
Lemma new_particle_expires64 (p : Particle.t float) (dt : float) :
  Particle.life p = lit 1.0 ->
  within64 0.5 dt 1e299 ->
  snd (Particle.update p dt) = Some false.
Proof.
  intros Hl [Hlo Hhi]. unfold Binary64.le in *.
  assert (PrimFloat.leb (Particle.life (updated dt p)) (lit 0) = true
          /\ PrimFloat.leb (lit (-1e300)) (Particle.life (updated dt p))
             = true) as [H0 Hm].
  { rewrite update_life, Hl. cbn [fsub fmul binary64]. split.
    - apply float_leb_trans
        with (PrimFloat.sub (lit 1.0) (PrimFloat.mul (lit 0.5) (lit 2.0)));
        [ | vm_compute; reflexivity].
      apply sub_antitone; [vm_compute; exact I | ].
      eapply mul_monotone; [vm_compute; reflexivity | reflexivity | ].
      exact Hlo.
    - apply float_leb_trans
        with (PrimFloat.sub (lit 1.0) (PrimFloat.mul (lit 1e299) (lit 2.0)));
        [vm_compute; reflexivity | ].
      apply sub_antitone; [vm_compute; exact I | ].
      eapply mul_monotone; [vm_compute; reflexivity | reflexivity | ].
      exact Hhi. }
  rewrite update_returns64.
  - f_equal. now apply leb_not_ltb.
  - exact Hm.
  - unfold Binary64.le. eapply float_leb_trans; [exact H0 | ].
    vm_compute. reflexivity.
Qed.

Lemma stale_spawn (s : ParticleSystem.t float) (x y : float)
    (effect_type : string) (n : nat) (rng : Random float) (now : float) :
  within64 0.5 (fsub now (ParticleSystem.last_update s)) 1e299 ->
  snd (ParticleSystem.update s now) = Some tt ->
  ParticleSystem.update
    (fst (ParticleSystem.for_range n
            (ParticleSystem.spawn x y effect_type) (s, rng))) now
  = ParticleSystem.update s now.
Proof.
  intros Hdt Hr.
  destruct (for_range_spawn_new x y effect_type n s rng)
    as (added & -> & Hnew).
  pose proof (system_update_returned s now Hr) as Hall.
  rewrite (system_update_all_return s now Hall).
  rewrite system_update_all_return; cbn [ParticleSystem.particles
    ParticleSystem.last_update].
  - f_equal. f_equal. rewrite map_app, filter_app.
    rewrite <- app_nil_r. f_equal.
    induction Hnew as [|p added Hp _ IH]; [reflexivity | ].
    cbn [map filter].
    pose proof (new_particle_expires64 p _ Hp Hdt) as He.
    apply update_returns_alive in He. now rewrite <- He.
  - apply Forall_app. split; [exact Hall | ].
    apply Forall_forall. intros p Hin. rewrite Forall_forall in Hnew.
    rewrite (new_particle_expires64 p _ (Hnew p Hin) Hdt). discriminate.
Qed.

(** X11.  In binary64, particles added when the next update reads a time
    at least 0.5 s (and at most 1e299 s) after [last_update] are all
    removed by that update, which returns the same system as if nothing
    had been added: a new particle ages from the last update, not from
    its creation. *)
Theorem stale_spawn_is_culled (s : ParticleSystem.t float) (x y : float)
    (count : option Z) (rng : Random float) (now : float) :
  within64 0.5 (fsub now (ParticleSystem.last_update s)) 1e299 ->
  snd (ParticleSystem.update s now) = Some tt ->
  ParticleSystem.update
    (fst (ParticleSystem.add_celebration_burst s x y count rng)) now
  = ParticleSystem.update s now
  /\ ParticleSystem.update
       (fst (ParticleSystem.add_sparkles s x y count rng)) now
     = ParticleSystem.update s now
  /\ ParticleSystem.update
       (fst (ParticleSystem.add_pulse s x y rng)) now
     = ParticleSystem.update s now.
Proof.
  intros Hdt Hr. repeat split.
  - apply stale_spawn; assumption.
  - apply stale_spawn; assumption.
  - apply (stale_spawn s x y "pulse" 1 rng now); assumption.
Qed.

End StaleSpawn.

(** ** ParticleSystem.draw: what is painted *)

Section DrawLook.
Context {F : Type} `{Arith F}.

Lemma strokes_same_look (view_box : ViewBox.t F) (p q : Particle.t F) :
  same_look p q -> strokes view_box p = strokes view_box q.
Proof.
  unfold same_look, strokes. now intros (-> & -> & -> & ->).
Qed.



(** X13.  [draw] reads the position, the size and the colour of a
    particle and nothing else, in particular not its type: two systems
    whose particles agree pairwise on these send the painter the same
    calls. *)
Theorem draw_ignores_the_effect_type (s1 s2 : ParticleSystem.t F)
    (painter : QPainter.t) (plot_widget : PlotWidget.t F) :
  Forall2 same_look (ParticleSystem.particles s1)
          (ParticleSystem.particles s2) ->
  snd (ParticleSystem.draw s1 painter plot_widget)
  = snd (ParticleSystem.draw s2 painter plot_widget).
Proof.
  intros Hl. destruct plot_widget as [|[view_box| ]]; cbn; try reflexivity.
  rewrite !draw_particles_strokes. f_equal.
  induction Hl as [|p q ps qs Hpq _ IH]; cbn; [reflexivity | ].
  now rewrite (strokes_same_look view_box p q Hpq), IH.
Qed.

End DrawLook.

(** ** EnhancedGraphWidget: what every constructed widget satisfies *)

Section Widget.
Context {F : Type} `{Arith F}.
Local Open Scope string_scope.

(** The particles a constructor call can return to the widget. *)
Lemma for_range_spawn_init (x y : F) (effect_type : string) (n : nat) :
  forall (s : ParticleSystem.t F) (rng : Random F),
  exists added,
    fst (ParticleSystem.for_range n
           (ParticleSystem.spawn x y effect_type) (s, rng))
    = {| ParticleSystem.particles := ParticleSystem.particles s ++ added;
         ParticleSystem.last_update := ParticleSystem.last_update s |}
    /\ List.length added = n
    /\ Forall (fun p => exists rng',
                 p = fst (Particle.__init__ x y effect_type rng')) added.
Proof.
  induction n as [|n IH]; intros s rng; cbn.
  - exists []. rewrite app_nil_r. destruct s; auto.
  - unfold ParticleSystem.spawn at 2. cbn [fst snd].
    assert (exists rng', fst (Particle.__init__ x y effect_type rng)
                         = fst (Particle.__init__ x y effect_type rng'))
      as Hp by eauto.
    destruct (Particle.__init__ x y effect_type rng) as [p rng'].
    destruct (IH (ParticleSystem.append s p) rng')
      as (added & -> & Hn & Ha).
    exists (p :: added). cbn. rewrite <- app_assoc. cbn. auto.
Qed.


Lemma status_effects_adds (system : ParticleSystem.t F)
    (time_points : list Z) (uptime_history : list F)
    (status_changed is_up : bool) (rng : Random F) :
  exists added,
    fst (EnhancedGraph.status_effects system time_points uptime_history
           status_changed is_up rng)
    = {| ParticleSystem.particles :=
           ParticleSystem.particles system ++ added;
         ParticleSystem.last_update := ParticleSystem.last_update system |}
    /\ Forall (born_at (EnhancedGraph.of_int (last time_points 0%Z))
                       (last uptime_history (lit 0))) added
    /\ (is_up = false -> added = []).
Proof.
  unfold EnhancedGraph.status_effects.
  set (x := EnhancedGraph.of_int (last time_points 0%Z)).
  set (y := last uptime_history (lit 0)).
  assert (forall ty n (s : ParticleSystem.t F) r,
            ty = "celebration" \/ ty = "sparkle" \/ ty = "pulse" ->
            exists added,
              fst (ParticleSystem.for_range n (ParticleSystem.spawn x y ty)
                     (s, r))
              = {| ParticleSystem.particles :=
                     ParticleSystem.particles s ++ added;
                   ParticleSystem.last_update :=
                     ParticleSystem.last_update s |}
              /\ Forall (born_at x y) added) as Hspawn.
  { intros ty n s r Hty.
    destruct (for_range_spawn_init x y ty n s r) as (added & E & _ & Ha).
    exists added. split; [exact E | ].
    eapply Forall_impl; [ | exact Ha]. intros p [rng' ->].
    exists ty, rng'. auto. }
  destruct is_up; cbn [andb].
  2:{ exists []. rewrite app_nil_r.
      destruct (status_changed && _); destruct system; auto. }
  assert (exists a1 r1,
            (if status_changed && (0 <? List.length time_points)%nat
             then let (system0, rng0) :=
                    ParticleSystem.add_celebration_burst system x y
                      (Some 12%Z) rng in
                  ParticleSystem.add_pulse system0 x y rng0
             else (system, rng))
            = ({| ParticleSystem.particles :=
                    ParticleSystem.particles system ++ a1;
                  ParticleSystem.last_update :=
                    ParticleSystem.last_update system |}, r1)
            /\ Forall (born_at x y) a1) as (a1 & r1 & -> & Ha1).
  { destruct (status_changed && _);
      [ | exists [], rng; rewrite app_nil_r; destruct system; auto].
    unfold ParticleSystem.add_celebration_burst, ParticleSystem.add_pulse.
    destruct (Hspawn "celebration" (ParticleSystem.range 12) system rng
                (or_introl eq_refl)) as (b1 & E1 & Hb1).
    destruct (ParticleSystem.for_range _ _ (system, rng)) as [s1 r1].
    cbn [fst] in E1. subst s1.
    destruct (Hspawn "pulse" 1%nat
                {| ParticleSystem.particles :=
                     ParticleSystem.particles system ++ b1;
                   ParticleSystem.last_update :=
                     ParticleSystem.last_update system |} r1
                (or_intror (or_intror eq_refl))) as (b2 & E2 & Hb2).
    cbn [ParticleSystem.for_range] in E2.
    destruct (ParticleSystem.spawn x y "pulse" _) as [s2 r2].
    cbn [fst ParticleSystem.particles ParticleSystem.last_update] in E2.
    subst s2. exists (b1 ++ b2)%list, r2. rewrite app_assoc.
    split; [reflexivity | ]. apply Forall_app. auto. }
  destruct (1 <? List.length time_points)%nat;
    [ | exists a1; repeat split; auto; discriminate].
  destruct (random r1) as [r r2].
  destruct (fltb r (lit 0.3));
    [ | exists a1; repeat split; auto; discriminate].
  unfold ParticleSystem.add_sparkles.
  destruct (Hspawn "sparkle" (ParticleSystem.range 2)
              {| ParticleSystem.particles :=
                   ParticleSystem.particles system ++ a1;
                 ParticleSystem.last_update :=
                   ParticleSystem.last_update system |} r2
              (or_intror (or_introl eq_refl))) as (b & E & Hb).
  rewrite E. cbn [ParticleSystem.particles ParticleSystem.last_update].
  exists (a1 ++ b)%list. rewrite app_assoc.
  split; [reflexivity | split; [apply Forall_app; auto | discriminate]].
Qed.


Lemma last_abscissas (n : nat) : last (abscissas (S n)) 0%Z = Z.of_nat n.
Proof.
  unfold abscissas. rewrite seq_S, map_app. cbn. apply last_last.
Qed.

(** What a call of [update_with_effects] does to the particle system,
    in every mode and whether or not it raises. *)
Lemma update_with_effects_particles (HAS_ENHANCED_GRAPHICS : bool)
    (self : EnhancedGraph.t F) (uptime_data : list F)
    (status_changed is_up : bool) (rng : Random F) :
  exists added,
    EnhancedGraphWidget.particle_system
      (EnhancedGraph.graph
         (fst (fst (EnhancedGraph.update_with_effects HAS_ENHANCED_GRAPHICS
                      self uptime_data status_changed is_up rng))))
    = {| ParticleSystem.particles := particles_of self ++ added;
         ParticleSystem.last_update := clock_of self |}
    /\ Forall (born_at
                 (EnhancedGraph.of_int
                    (Z.of_nat (List.length uptime_data) - 1))
                 (last uptime_data (lit 0))) added
    /\ (is_up = false -> added = []).
Proof.
  unfold EnhancedGraph.update_with_effects, particles_of, clock_of.
  set (system := EnhancedGraphWidget.particle_system
                   (EnhancedGraph.graph self)).
  assert (system
          = {| ParticleSystem.particles := ParticleSystem.particles system ++ [];
               ParticleSystem.last_update :=
                 ParticleSystem.last_update system |}) as Hsame
    by (rewrite app_nil_r; now destruct system).
  destruct HAS_ENHANCED_GRAPHICS; cbn [negb];
    [ | exists []; cbn; auto].
  destruct uptime_data as [|d data]; [exists []; cbn; auto | ].
  destruct (EnhancedGraphWidget.uptime_line _); [ | exists []; cbn; auto].
  destruct (EnhancedGraph.gradient_fill self); [ | exists []; cbn; auto].
  destruct (status_effects_adds system
              (map Z.of_nat (seq 0 (List.length (d :: data)))) (d :: data)
              status_changed is_up rng) as (added & E & Ha & Hd).
  destruct (EnhancedGraph.status_effects _ _ _ _ _ _) as [system' rng'].
  cbn [fst snd EnhancedGraph.graph EnhancedGraphWidget.particle_system]
    in *.
  exists added. split; [exact E | split; [ | exact Hd]].
  change (map Z.of_nat (seq 0 (List.length (d :: data))))
    with (abscissas (S (List.length data))) in Ha.
  rewrite last_abscissas in Ha.
  replace (Z.of_nat (List.length (d :: data)) - 1)%Z
    with (Z.of_nat (List.length data)) by (cbn [List.length]; lia).
  exact Ha.
Qed.

Lemma base_update_effects_keeps (g : EnhancedGraphWidget.t F) (now : F) :
  let g' := fst (EnhancedGraphWidget.update_effects true g now) in
  EnhancedGraphWidget.uptime_history g'
  = EnhancedGraphWidget.uptime_history g
  /\ EnhancedGraphWidget.time_points g' = EnhancedGraphWidget.time_points g
  /\ EnhancedGraphWidget.uptime_line g' = EnhancedGraphWidget.uptime_line g
  /\ EnhancedGraphWidget.particle_system g'
     = fst (ParticleSystem.update
              (EnhancedGraphWidget.particle_system g) now).
Proof.
  unfold EnhancedGraphWidget.update_effects. cbn [negb].
  destruct (ParticleSystem.update _ now) as [system [[]| ]]; cbn; auto.
Qed.

(** The plot items of a constructed widget exist, and the line shows the
    stored history. *)
Lemma reachable_plot (tick : F -> F -> Prop) (self : EnhancedGraph.t F) :
  reachable tick self ->
  let g := EnhancedGraph.graph self in
  EnhancedGraphWidget.time_points g
  = abscissas (List.length (EnhancedGraphWidget.uptime_history g))
  /\ EnhancedGraphWidget.uptime_line g
     = Some (EnhancedGraphWidget.time_points g,
             EnhancedGraphWidget.uptime_history g)
  /\ EnhancedGraph.line_pen self <> None
  /\ EnhancedGraph.gradient_fill self <> None.
Proof.
  induction 1 as [now|self data sc up rng _ IH|self now _ IH _|self _ IH];
    cbv zeta in *.
  - cbn. repeat split; discriminate.
  - destruct IH as (Ht & Hl & Hp & Hf).
    unfold EnhancedGraph.update_with_effects. cbn [negb].
    destruct data as [|d data]; [cbn; auto | ].
    rewrite Hl.
    destruct (EnhancedGraph.gradient_fill self); [ | now destruct Hf].
    destruct (EnhancedGraph.status_effects _ _ _ _ _ _) as [system' rng'].
    cbn. repeat split; discriminate.
  - destruct IH as (Ht & Hl & Hp & Hf).
    unfold EnhancedGraph.update_effects.
    pose proof (base_update_effects_keeps (EnhancedGraph.graph self) now)
      as (E1 & E2 & E3 & _).
    destruct (EnhancedGraphWidget.update_effects true _ now) as [g r].
    cbn in *. rewrite E1, E2, E3. auto.
  - destruct IH as (Ht & Hl & Hp & Hf).
    unfold EnhancedGraph.clear_graph, EnhancedGraphWidget.clear_graph.
    cbn. rewrite Hl. repeat split; auto.
Qed.

(** X14.  In every state of a constructed widget, [time_points] is
    [0 .. n-1] for [n] the length of [uptime_history], and the line plots
    exactly these two lists. *)
Theorem constructed_widget_plots_its_history (tick : F -> F -> Prop)
    (self : EnhancedGraph.t F) :
  reachable tick self ->
  let g := EnhancedGraph.graph self in
  EnhancedGraphWidget.time_points g
  = abscissas (List.length (EnhancedGraphWidget.uptime_history g))
  /\ List.length (EnhancedGraphWidget.time_points g)
     = List.length (EnhancedGraphWidget.uptime_history g)
  /\ EnhancedGraphWidget.uptime_line g
     = Some (EnhancedGraphWidget.time_points g,
             EnhancedGraphWidget.uptime_history g).
Proof.
  intros Hr g. destruct (reachable_plot tick self Hr) as (Ht & Hl & _).
  fold g in Ht, Hl. repeat split; try assumption.
  rewrite Ht. unfold abscissas. now rewrite length_map, length_seq.
Qed.

(** X15.  [update_with_effects] returns, in every state of a constructed
    widget: the line and the fill it uses exist. *)
Theorem update_with_effects_returns (tick : F -> F -> Prop)
    (self : EnhancedGraph.t F) (uptime_data : list F)
    (status_changed is_up : bool) (rng : Random F) :
  reachable tick self ->
  snd (EnhancedGraph.update_with_effects true self uptime_data
         status_changed is_up rng) = Some tt.
Proof.
  intros Hr. destruct (reachable_plot tick self Hr) as (_ & Hl & _ & Hf).
  unfold EnhancedGraph.update_with_effects. cbn [negb].
  destruct uptime_data as [|d data]; [reflexivity | ].
  cbv zeta in Hl. rewrite Hl.
  destruct (EnhancedGraph.gradient_fill self); [ | now destruct Hf].
  now destruct (EnhancedGraph.status_effects _ _ _ _ _ _).
Qed.

(** X16.  Particles are added only with the enhanced graphics, data and
    a server that is up.  Without the enhanced graphics
    [update_with_effects] changes the style sheet and nothing else; with
    [is_up] false it leaves the particle system and the random source as
    they were, whatever the mode, the data and [status_changed]; with no
    data it changes nothing at all, not even the last status. *)
Theorem no_particles_unless_up (self : EnhancedGraph.t F)
    (uptime_data : list F) (status_changed : bool) (rng : Random F) :
  (forall is_up,
     let r := EnhancedGraph.update_with_effects false self uptime_data
                status_changed is_up rng in
     EnhancedGraph.graph (fst (fst r)) = EnhancedGraph.graph self
     /\ EnhancedGraph.line_pen (fst (fst r)) = EnhancedGraph.line_pen self
     /\ EnhancedGraph.gradient_fill (fst (fst r))
        = EnhancedGraph.gradient_fill self
     /\ EnhancedGraph.last_status (fst (fst r))
        = EnhancedGraph.last_status self
     /\ EnhancedGraph.current_glow_intensity (fst (fst r))
        = EnhancedGraph.current_glow_intensity self
     /\ EnhancedGraph.target_glow_intensity (fst (fst r))
        = EnhancedGraph.target_glow_intensity self
     /\ snd (fst r) = rng /\ snd r = Some tt)
  /\ (forall HAS_ENHANCED_GRAPHICS,
        let r := EnhancedGraph.update_with_effects HAS_ENHANCED_GRAPHICS
                   self uptime_data status_changed false rng in
        EnhancedGraphWidget.particle_system
          (EnhancedGraph.graph (fst (fst r)))
        = EnhancedGraphWidget.particle_system (EnhancedGraph.graph self)
        /\ snd (fst r) = rng)
  /\ (forall is_up,
        EnhancedGraph.update_with_effects true self [] status_changed
          is_up rng
        = (self, rng, Some tt)).
Proof.
  split; [intros is_up; cbn; repeat split | split; [ | reflexivity]].
  intros HAS_ENHANCED_GRAPHICS.
  unfold EnhancedGraph.update_with_effects, EnhancedGraph.status_effects.
  destruct HAS_ENHANCED_GRAPHICS; cbn [negb]; [ | auto].
  destruct uptime_data as [|d data]; [auto | ].
  destruct (EnhancedGraphWidget.uptime_line _); [ | auto].
  destruct (EnhancedGraph.gradient_fill self); [ | auto].
  cbn [andb]. destruct (status_changed && _); auto.
Qed.

Lemma born_styled (x y : F) (p : Particle.t F) : born_at x y p -> styled p.
Proof.
  intros (ty & rng & -> & [-> | [-> | ->]]); unfold styled; cbn; auto.
Qed.

Lemma update_styled (dt : F) (p : Particle.t F) :
  styled p -> styled (updated dt p).
Proof.
  unfold styled, hue. rewrite update_effect_type.
  pose proof (update_constants p dt) as (_ & _ & _ & _ & -> & -> & ->).
  auto.
Qed.

(** What every particle satisfies, and [update(dt)] keeps, holds of the
    particles after the update of the system. *)
Lemma system_update_Forall (P : Particle.t F -> Prop)
    (s : ParticleSystem.t F) (now : F) :
  (forall p, P p ->
             P (updated (fsub now (ParticleSystem.last_update s)) p)) ->
  Forall P (ParticleSystem.particles s) ->
  Forall P (ParticleSystem.particles (fst (ParticleSystem.update s now))).
Proof.
  intros Hstep Hall. unfold ParticleSystem.update.
  set (dt := fsub now (ParticleSystem.last_update s)) in *.
  assert (Forall P (map (updated dt) (ParticleSystem.particles s))) as Hmap.
  { apply Forall_forall. intros q Hq. apply in_map_iff in Hq.
    destruct Hq as (p & <- & Hp). rewrite Forall_forall in Hall. auto. }
  destruct (ParticleSystem.comprehension _ dt) as [old [built| ]] eqn:Hc;
    cbn [fst ParticleSystem.particles].
  - destruct (comprehension_returns _ _ _ _ Hc) as [-> ->].
    apply Forall_forall. intros q Hq. apply filter_In in Hq.
    rewrite Forall_forall in Hmap. now apply Hmap.
  - destruct (comprehension_raises _ _ _ Hc)
      as (before & bad & after & Hs & _ & _ & ->).
    rewrite Hs in Hall, Hmap. rewrite map_app in Hmap. cbn in Hmap.
    apply Forall_app in Hall, Hmap.
    destruct Hall as [_ Hall], Hmap as [Hb Hmap].
    apply Forall_app. split; [exact Hb | ].
    inversion Hall; inversion Hmap; subst. constructor; assumption.
Qed.

(** Invariants of the particles of a constructed widget: a property that
    new particles have and [update] keeps holds of all of them. *)
Lemma reachable_particles (tick : F -> F -> Prop)
    (P : Particle.t F -> Prop) :
  (forall x y p, born_at x y p -> P p) ->
  (forall dt p, P p -> P (updated dt p)) ->
  forall self, reachable tick self -> Forall P (particles_of self).
Proof.
  intros Hborn Hstep self.
  induction 1 as [now|self data sc up rng _ IH|self now _ IH _|self _ IH].
  - constructor.
  - destruct (update_with_effects_particles true self data sc up rng)
      as (added & E & Ha & _).
    unfold particles_of at 1. rewrite E. cbn.
    apply Forall_app. split; [exact IH | ].
    eapply Forall_impl; [ | exact Ha]. intros p. apply Hborn.
  - unfold particles_of, EnhancedGraph.update_effects.
    pose proof (base_update_effects_keeps (EnhancedGraph.graph self) now)
      as (_ & _ & _ & E).
    destruct (EnhancedGraphWidget.update_effects true _ now) as [g r].
    cbn in *. rewrite E. apply system_update_Forall; [ | exact IH].
    intros p. apply Hstep.
  - constructor.
Qed.

(** X17.  Every particle of a constructed widget is a celebration
    particle in gold, or a sparkle or a pulse in green: the widget
    creates no particle of another type, and no update changes the type
    or the hue. *)
Theorem widget_particles_are_styled (tick : F -> F -> Prop)
    (self : EnhancedGraph.t F) :
  reachable tick self -> Forall styled (particles_of self).
Proof.
  apply reachable_particles.
  - apply born_styled.
  - apply update_styled.
Qed.

Lemma status_effects_types (system : ParticleSystem.t F)
    (time_points : list Z) (uptime_history : list F)
    (status_changed is_up : bool) (rng : Random F) :
  let burst :=
    status_changed && (0 <? List.length time_points)%nat && is_up in
  let gate := fltb (if burst then rng 36%nat else rng 0%nat) (lit 0.3) in
  let sparkles := is_up && (1 <? List.length time_points)%nat && gate in
  map Particle.effect_type
    (ParticleSystem.particles
       (fst (EnhancedGraph.status_effects system time_points uptime_history
               status_changed is_up rng)))
  = (map Particle.effect_type (ParticleSystem.particles system)
     ++ (if burst then repeat "celebration" 12 ++ ["pulse"] else [])
     ++ (if sparkles then repeat "sparkle" 2 else []))%list.
Proof.
  unfold EnhancedGraph.status_effects, ParticleSystem.add_celebration_burst,
    ParticleSystem.add_sparkles, ParticleSystem.add_pulse.
  change (ParticleSystem.range 12) with 12%nat.
  change (ParticleSystem.range 2) with 2%nat.
  destruct status_changed, is_up, (0 <? List.length time_points)%nat,
    (1 <? List.length time_points)%nat; cbn -[fltb lit];
    repeat match goal with
           | |- context [fltb ?r ?c] => destruct (fltb r c)
           end;
    cbn -[lit]; rewrite ?map_app; cbn -[lit];
    rewrite <- ?app_assoc, ?app_nil_r; reflexivity.
Qed.

(** X18.  On a constructed widget and with data, [update_with_effects]
    appends at the latest data point, each with a life of 1.0: twelve
    celebration particles and a pulse when the status changed to up, and
    then two sparkles when the server is up, the data has more than one
    point and the next random number (the 37th after a burst, otherwise
    the first) is below 0.3.  It adds nothing else and removes
    nothing. *)
Theorem status_change_spawns_a_burst (tick : F -> F -> Prop)
    (self : EnhancedGraph.t F) (uptime_data : list F)
    (status_changed is_up : bool) (rng : Random F) :
  reachable tick self -> uptime_data <> [] ->
  let self' :=
    fst (fst (EnhancedGraph.update_with_effects true self uptime_data
                status_changed is_up rng)) in
  let burst := status_changed && is_up in
  let gate := fltb (if burst then rng 36%nat else rng 0%nat) (lit 0.3) in
  let sparkles := is_up && (1 <? List.length uptime_data)%nat && gate in
  exists added,
    particles_of self' = (particles_of self ++ added)%list
    /\ map Particle.effect_type added
       = ((if burst then repeat "celebration" 12 ++ ["pulse"] else [])
          ++ (if sparkles then repeat "sparkle" 2 else []))%list
    /\ Forall (fun p =>
                 Particle.x p
                 = EnhancedGraph.of_int
                     (Z.of_nat (List.length uptime_data) - 1)
                 /\ Particle.y p = last uptime_data (lit 0)
                 /\ Particle.life p = lit 1.0) added.
Proof.
  intros Hr Hd self' burst gate sparkles.
  destruct (update_with_effects_particles true self uptime_data
              status_changed is_up rng) as (added & E & Ha & _).
  exists added. unfold particles_of at 1. fold self' in E. rewrite E.
  split; [reflexivity | split].
  - destruct (reachable_plot tick self Hr) as (_ & Hl & _ & Hf).
    cbv zeta in Hl.
    assert (map Particle.effect_type
              (ParticleSystem.particles
                 (EnhancedGraphWidget.particle_system
                    (EnhancedGraph.graph self')))
            = (map Particle.effect_type (particles_of self)
               ++ (if burst then repeat "celebration" 12 ++ ["pulse"] else [])
               ++ (if sparkles then repeat "sparkle" 2 else []))%list)
      as Ht.
    { unfold self', EnhancedGraph.update_with_effects. cbn [negb].
      destruct uptime_data as [|d data]; [now destruct Hd | ].
      rewrite Hl.
      destruct (EnhancedGraph.gradient_fill self); [ | now destruct Hf].
      pose proof (status_effects_types
                    (EnhancedGraphWidget.particle_system
                       (EnhancedGraph.graph self))
                    (map Z.of_nat (seq 0 (List.length (d :: data))))
                    (d :: data) status_changed is_up rng) as Hty.
      destruct (EnhancedGraph.status_effects _ _ _ _ _ _)
        as [system' rng'].
      cbn [fst EnhancedGraph.graph EnhancedGraphWidget.particle_system]
        in *.
      rewrite Hty. unfold particles_of, burst, sparkles, gate, burst.
      rewrite length_map, length_seq. cbn [List.length Nat.ltb Nat.leb].
      now rewrite andb_true_r. }
    rewrite E in Ht. cbn [ParticleSystem.particles] in Ht.
    rewrite map_app in Ht. now apply app_inv_head in Ht.
  - eapply Forall_impl; [ | exact Ha].
    intros p (ty & rng' & -> & _).
    pose proof (init_spawned_at
                  (EnhancedGraph.of_int
                     (Z.of_nat (List.length uptime_data) - 1))
                  (last uptime_data (lit 0)) ty rng') as (_ & Hx & Hy).
    split; [exact Hx | split; [exact Hy | apply init_life]].
Qed.

(** X19.  [clear_graph] after an [update_with_effects] with data empties
    the history, the time points, the line and the particles, and leaves
    the last status and the gradient fill: the fill still holds the two
    curves built from the data that was cleared. *)
Theorem clear_graph_leaves_the_fill (tick : F -> F -> Prop)
    (self : EnhancedGraph.t F) (uptime_data : list F)
    (status_changed is_up : bool) (rng : Random F) :
  reachable tick self -> uptime_data <> [] ->
  let shown :=
    fst (fst (EnhancedGraph.update_with_effects true self uptime_data
                status_changed is_up rng)) in
  let cleared := EnhancedGraph.clear_graph true shown in
  let abscissas := abscissas (List.length uptime_data) in
  EnhancedGraphWidget.uptime_history (EnhancedGraph.graph cleared) = []
  /\ EnhancedGraphWidget.time_points (EnhancedGraph.graph cleared) = []
  /\ EnhancedGraphWidget.uptime_line (EnhancedGraph.graph cleared)
     = Some ([], [])
  /\ particles_of cleared = []
  /\ EnhancedGraph.last_status cleared = Some is_up
  /\ exists brush,
       EnhancedGraph.gradient_fill cleared
       = Some {| FillBetweenItem.curve1 :=
                   FillBetweenItem.PlotCurveItem abscissas uptime_data;
                 FillBetweenItem.curve2 :=
                   FillBetweenItem.PlotCurveItem abscissas
                     (repeat (lit 0) (List.length uptime_data));
                 FillBetweenItem.brush := brush |}.
Proof.
  intros Hr Hd shown cleared a. subst shown cleared a.
  destruct (reachable_plot tick self Hr) as (_ & Hl & _ & Hf).
  cbv zeta in Hl.
  unfold EnhancedGraph.update_with_effects. cbn [negb].
  destruct uptime_data as [|d data]; [now destruct Hd | ].
  rewrite Hl.
  destruct (EnhancedGraph.gradient_fill self); [ | now destruct Hf].
  destruct (EnhancedGraph.status_effects _ _ _ _ _ _) as [system' rng'].
  cbn -[lit]. repeat split. eexists. reflexivity.
Qed.

End Widget.

(** ** More of binary64: subtraction of finite floats *)

Section Binary64Finite.
Import Rounding.
Local Open Scope Z_scope.

Lemma ltb_frank (a b : float) :
  PrimFloat.ltb a b = true <-> ordered a /\ ordered b /\ frank a < frank b.
Proof.
  rewrite ltb_spec. unfold ordered, frank, SFltb. split.
  - intros Hl.
    assert (not_nan (Prim2SF a) /\ not_nan (Prim2SF b)) as [Na Nb]
      by (destruct (Prim2SF a), (Prim2SF b); cbn in *;
          try discriminate; auto).
    repeat split; auto.
    rewrite (SFcompare_rank _ _ (Prim2SF_valid a) (Prim2SF_valid b) Na Nb)
      in Hl.
    destruct (Z.compare_spec (rank (Prim2SF a)) (rank (Prim2SF b)));
      try discriminate; assumption.
  - intros (Na & Nb & Hl).
    rewrite (SFcompare_rank _ _ (Prim2SF_valid a) (Prim2SF_valid b) Na Nb).
    destruct (Z.compare_spec (rank (Prim2SF a)) (rank (Prim2SF b)));
      try reflexivity; lia.
Qed.

Lemma ltb_leb (a b : float) :
  PrimFloat.ltb a b = true -> PrimFloat.leb a b = true.
Proof.
  rewrite ltb_frank, leb_frank. intros (Na & Nb & Hl). repeat split; auto.
  lia.
Qed.

Lemma finite_within (lo x hi : float) :
  finite_or_zero (Prim2SF lo) -> finite_or_zero (Prim2SF hi) ->
  PrimFloat.leb lo x = true -> PrimFloat.leb x hi = true ->
  finite_or_zero (Prim2SF x).
Proof.
  intros Flo Fhi Hlo Hhi.
  apply leb_frank in Hlo, Hhi.
  destruct Hlo as (_ & Nx & Hlo), Hhi as (_ & _ & Hhi).
  exact (finite_between _ _ _ (Prim2SF_valid lo) (Prim2SF_valid x)
           (Prim2SF_valid hi) Flo Fhi Nx Hlo Hhi).
Qed.

(** Subtraction is monotone in its first argument, on finite floats. *)
Lemma sub_monotone_finite (a b c : float) :
  finite_or_zero (Prim2SF a) -> finite_or_zero (Prim2SF b) ->
  finite_or_zero (Prim2SF c) ->
  PrimFloat.leb a b = true ->
  PrimFloat.leb (PrimFloat.sub a c) (PrimFloat.sub b c) = true.
Proof.
  intros Fa Fb Fc. rewrite !leb_frank. unfold ordered, frank.
  rewrite !sub_spec. unfold SF64sub. rewrite !SFsub_add_opp.
  intros (Na & Nb & Hr).
  destruct (SFopp_spec (Prim2SF c)) as (Vo & Ro & No).
  assert (valid_binary (SFopp (Prim2SF c)) = true) as Vc
    by (rewrite Vo; apply Prim2SF_valid).
  assert (finite_or_zero (SFopp (Prim2SF c))) as Fo
    by (destruct (Prim2SF c); cbn in *; auto).
  destruct (SFadd_finite _ _ (Prim2SF_valid a) Vc Fa Fo) as (_ & -> & N1).
  destruct (SFadd_finite _ _ (Prim2SF_valid b) Vc Fb Fo) as (_ & -> & N2).
  repeat split; auto. apply rounded_monotone. lia.
Qed.

End Binary64Finite.

(** ** More of binary64: a step toward a target *)

Section GlowRounding.
Import Rounding.
Local Open Scope Z_scope.

Lemma fl_le_double (v : Z) : 0 <= v -> fl v <= 2 * v.
Proof.
  intros Hv. unfold fl. pose proof (grid_nonneg v) as Hg.
  set (g := grid v) in *.
  assert (0 < 2 ^ g) as HB by (apply Z.pow_pos_nonneg; lia).
  pose proof (Z.div_mod v (2 ^ g) ltac:(lia)) as Hdm.
  pose proof (Z.mod_pos_bound v (2 ^ g) HB) as Hr.
  assert (0 <= v / 2 ^ g) as Hq by (apply Z.div_pos; lia).
  unfold rne.
  destruct (Z.compare_spec (2 * (v mod 2 ^ g)) (2 ^ g)) as [E|E|E];
    try destruct (Z.even _); nia.
Qed.

(** Rounding at most doubles a magnitude, and keeps the sign. *)
Lemma rounded_le_double (v : Z) :
  (0 <= v -> 0 <= rounded v <= 2 * v)
  /\ (v <= 0 -> 2 * v <= rounded v <= 0).
Proof.
  pose proof top_pos. unfold rounded. split; intros Hv.
  - destruct (Z.leb_spec 0 v); [ | lia].
    pose proof (fl_nonneg v Hv). pose proof (fl_le_double v Hv). lia.
  - destruct (Z.leb_spec 0 v).
    + assert (v = 0) as -> by lia. rewrite fl_zero. lia.
    + pose proof (fl_nonneg (- v)). pose proof (fl_le_double (- v)). lia.
Qed.

(** The rank of a finite float is a multiple of the smallest one. *)
Lemma rank_multiple (x : spec_float) :
  valid_binary x = true -> finite_or_zero x ->
  exists n, rank x = n * 2 ^ (scale - 1074).
Proof.
  intros V Fx. destruct x as [s|s| |s m e]; try contradiction.
  - exists 0. reflexivity.
  - destruct (valid_finite _ _ _ V) as (He & _).
    exists (cond_Zopp s (Zpos m * 2 ^ (e + 1074))). cbn [rank].
    replace (e + scale) with ((e + 1074) + (scale - 1074)) by lia.
    rewrite Z.pow_add_r by (unfold scale; lia).
    destruct s; cbn [cond_Zopp]; ring.
Qed.

Lemma lift_finite (S : Z -> Z) (x : spec_float) :
  finite_or_zero x -> lift S x = S (rank x).
Proof.
  destruct x; cbn; try contradiction; reflexivity.
Qed.

(** The rank of a difference and of a sum of finite floats. *)
Lemma sub_rank (a b : float) :
  finite_or_zero (Prim2SF a) -> finite_or_zero (Prim2SF b) ->
  ordered (PrimFloat.sub a b)
  /\ frank (PrimFloat.sub a b) = rounded (frank a - frank b).
Proof.
  intros Fa Fb. unfold ordered, frank. rewrite sub_spec. unfold SF64sub.
  rewrite SFsub_add_opp.
  destruct (SFopp_spec (Prim2SF b)) as (Vo & Ro & No).
  assert (valid_binary (SFopp (Prim2SF b)) = true) as Vb
    by (rewrite Vo; apply Prim2SF_valid).
  assert (finite_or_zero (SFopp (Prim2SF b))) as Fo
    by (destruct (Prim2SF b); cbn in *; auto).
  destruct (SFadd_finite _ _ (Prim2SF_valid a) Vb Fa Fo) as (_ & -> & N).
  split; [exact N | ]. f_equal. lia.
Qed.

Lemma add_rank (a b : float) :
  finite_or_zero (Prim2SF a) -> finite_or_zero (Prim2SF b) ->
  ordered (PrimFloat.add a b)
  /\ frank (PrimFloat.add a b) = rounded (frank a + frank b).
Proof.
  intros Fa Fb. unfold ordered, frank. rewrite add_spec. unfold SF64add.
  destruct (SFadd_finite _ _ (Prim2SF_valid a) (Prim2SF_valid b) Fa Fb)
    as (_ & -> & N).
  auto.
Qed.

(** A float whose rank is strictly within the range is finite. *)
Lemma finite_of_rank (x : float) :
  ordered x -> - top < frank x < top -> finite_or_zero (Prim2SF x).
Proof.
  unfold ordered, frank. destruct (Prim2SF x) as [s|s| |s m e]; cbn; auto.
  destruct s; cbn; lia.
Qed.

Lemma frank_representable (x : float) : rounded (frank x) = frank x.
Proof.
  apply rounded_representable, Prim2SF_valid.
Qed.

(** The tenth of the way the glow moves: its rank is between 0 and the
    rank of the distance. *)
Lemma tenth_rank (d : float) :
  finite_or_zero (Prim2SF d) ->
  ordered (PrimFloat.mul d (lit 0.1))
  /\ (0 <= frank d ->
      0 <= frank (PrimFloat.mul d (lit 0.1))
      /\ 2 * frank (PrimFloat.mul d (lit 0.1)) <= frank d)
  /\ (frank d <= 0 ->
      frank d <= 2 * frank (PrimFloat.mul d (lit 0.1))
      /\ frank (PrimFloat.mul d (lit 0.1)) <= 0).
Proof.
  intros Fd.
  assert (Prim2SF (lit 0.1) = S754_finite false 7205759403792794 (-56))
    as Hk by (vm_compute; reflexivity).
  assert (valid_binary (S754_finite false 7205759403792794 (-56)) = true)
    as Vk by (rewrite <- Hk; apply Prim2SF_valid).
  assert (not_nan (Prim2SF d)) as Nd
    by (destruct (Prim2SF d); cbn in *; auto).
  unfold ordered, frank. rewrite mul_spec. unfold SF64mul. rewrite Hk.
  destruct (SFmul_lift _ 7205759403792794 (-56) (Prim2SF_valid d) Nd Vk
              eq_refl) as (_ & -> & N).
  split; [exact N | ].
  rewrite (lift_finite _ _ Fd). unfold scaled_by.
  destruct (rank_multiple _ (Prim2SF_valid d) Fd) as [n Hn].
  set (D := rank (Prim2SF d)) in *.
  assert (0 < 2 ^ (scale - 1130)) as Hu
    by (apply Z.pow_pos_nonneg; unfold scale; lia).
  assert (2 ^ (scale - 1074) = 2 ^ 56 * 2 ^ (scale - 1130)) as E1.
  { rewrite <- Z.pow_add_r by (unfold scale; lia). f_equal; lia. }
  assert (2 ^ (-56 + scale) = 2 ^ 1074 * 2 ^ (scale - 1130)) as E2.
  { rewrite <- Z.pow_add_r by (unfold scale; lia). f_equal; lia. }
  assert (2 ^ scale = 2 ^ 1130 * 2 ^ (scale - 1130)) as E3.
  { rewrite <- Z.pow_add_r by (unfold scale; lia). f_equal; lia. }
  set (U := 2 ^ (scale - 1130)) in *.
  assert (D * (7205759403792794 * 2 ^ (-56 + scale)) / 2 ^ scale
          = n * 7205759403792794 * U) as EP.
  { rewrite Hn, E1, E2, E3.
    replace (n * (2 ^ 56 * U) * (7205759403792794 * (2 ^ 1074 * U)))
      with (n * 7205759403792794 * U * (2 ^ 1130 * U)).
    - apply Z.div_mul. assert (0 < 2 ^ 1130) by now apply Z.pow_pos_nonneg.
      nia.
    - replace (2 ^ 1130) with (2 ^ 56 * 2 ^ 1074)
        by (rewrite <- Z.pow_add_r by lia; reflexivity).
      ring. }
  rewrite EP.
  assert (D = n * 2 ^ 56 * U) as HD by (rewrite Hn, E1; ring).
  assert (2 ^ 56 = 72057594037927936) as E56 by reflexivity.
  rewrite E56 in HD.
  destruct (rounded_le_double (n * 7205759403792794 * U)) as [Hp Hm].
  split; intros Hs.
  - assert (0 <= n) by nia. assert (0 <= n * U) by nia.
    assert (0 <= n * 7205759403792794 * U) by nia.
    specialize (Hp ltac:(assumption)). nia.
  - assert (n <= 0) by nia. assert (n * U <= 0) by nia.
    assert (n * 7205759403792794 * U <= 0) by nia.
    specialize (Hm ltac:(assumption)). nia.
Qed.

(** One step of the glow ends between where it was and its target. *)
Lemma glow_step_toward (c t : float) :
  finite_or_zero (Prim2SF c) -> finite_or_zero (Prim2SF t) ->
  finite_or_zero (Prim2SF (PrimFloat.sub t c)) ->
  let c' := PrimFloat.add c (PrimFloat.mul (PrimFloat.sub t c) (lit 0.1)) in
  (PrimFloat.leb c t = true ->
   PrimFloat.leb c c' = true /\ PrimFloat.leb c' t = true)
  /\ (PrimFloat.leb t c = true ->
      PrimFloat.leb t c' = true /\ PrimFloat.leb c' c = true).
Proof.
  intros Fc Ft Fd c'. subst c'.
  destruct (sub_rank t c Ft Fc) as (Nd & Rd).
  set (d := PrimFloat.sub t c) in *.
  destruct (tenth_rank d Fd) as (Ne & Ep & Em).
  set (e := PrimFloat.mul d (lit 0.1)) in *.
  destruct (rounded_le_double (frank t - frank c)) as [Dp Dm].
  pose proof (frank_representable c) as Rc.
  pose proof (frank_representable t) as Rt.
  pose proof (rank_finite_strict _ (Prim2SF_valid d) Fd) as Bd.
  fold (frank d) in Bd.
  assert (ordered c) as Nc by (unfold ordered; destruct (Prim2SF c); cbn in *; auto).
  assert (ordered t) as Nt by (unfold ordered; destruct (Prim2SF t); cbn in *; auto).
  assert (finite_or_zero (Prim2SF e)) as Fe.
  { apply finite_of_rank; [exact Ne | ].
    destruct (Z.le_gt_cases 0 (frank d)) as [Hs|Hs].
    - specialize (Ep Hs). lia.
    - specialize (Em ltac:(lia)). lia. }
  destruct (add_rank c e Fc Fe) as (Na & Ra).
  split; intros Hle; apply leb_frank in Hle;
    destruct Hle as (_ & _ & Hle); rewrite !leb_frank, Ra.
  - specialize (Dp ltac:(lia)). rewrite <- Rd in Dp.
    specialize (Ep ltac:(lia)).
    pose proof (rounded_monotone (frank c) (frank c + frank e) ltac:(lia)).
    pose proof (rounded_monotone (frank c + frank e) (frank t) ltac:(lia)).
    repeat split; auto; lia.
  - specialize (Dm ltac:(lia)). rewrite <- Rd in Dm.
    specialize (Em ltac:(lia)).
    pose proof (rounded_monotone (frank t) (frank c + frank e) ltac:(lia)).
    pose proof (rounded_monotone (frank c + frank e) (frank c) ltac:(lia)).
    repeat split; auto; lia.
Qed.

End GlowRounding.

(** ** The widget under a steady clock, in binary64 *)

Section SteadyClock.
Import Rounding.
Local Open Scope string_scope.

Lemma born_healthy (x y : float) (p : Particle.t float) :
  born_at x y p -> healthy p.
Proof.
  intros (ty & rng & -> & Hty). unfold healthy, alive.
  rewrite init_life. split; [vm_compute; reflexivity | ].
  split; [vm_compute; reflexivity | ].
  destruct Hty as [-> | [-> | ->]]; cbn; lia.
Qed.

(** The update of a healthy particle returns, and leaves a healthy
    particle if it leaves a living one. *)
Lemma healthy_update (p : Particle.t float) (dt : float) :
  healthy p -> within64 0 dt 1e299 ->
  snd (Particle.update p dt) = Some (alive (updated dt p))
  /\ (alive (updated dt p) = true -> healthy (updated dt p)).
Proof.
  intros (Ha & Hl & _) [Hlo Hhi].
  destruct (update_life_le64 p dt Hl Hlo) as [Hdec Hl'].
  unfold alive in Ha. cbn [fltb binary64] in Ha. apply ltb_leb in Ha.
  assert (finite_or_zero (Prim2SF (Particle.life p))) as Fl.
  { apply (finite_within (lit 0) _ (lit 1.0)); try assumption;
      vm_compute; exact I. }
  assert (Binary64.le (lit (-1e300)) (Particle.life (updated dt p)))
    as Hmin.
  { unfold Binary64.le in *. rewrite update_life. cbn [fsub fmul binary64].
    apply float_leb_trans
      with (PrimFloat.sub (lit 0) (PrimFloat.mul (lit 1e299) (lit 2.0)));
      [vm_compute; reflexivity | ].
    apply float_leb_trans
      with (PrimFloat.sub (Particle.life p)
              (PrimFloat.mul (lit 1e299) (lit 2.0))).
    - apply sub_monotone_finite; try assumption; vm_compute; exact I.
    - apply sub_antitone; [assumption | ].
      eapply mul_monotone; [vm_compute; reflexivity | reflexivity | ].
      exact Hhi. }
  assert (snd (Particle.update p dt) = Some (alive (updated dt p))) as Hr.
  { apply update_returns64; [exact Hmin | ].
    unfold Binary64.le in *. eapply float_leb_trans; [exact Hl' | ].
    vm_compute. reflexivity. }
  split; [exact Hr | ]. intros Ha'. repeat split; try assumption.
  - pose proof (alpha_in_range p dt _ Hr). lia.
  - pose proof (alpha_in_range p dt _ Hr). lia.
Qed.

(** The update of a system of healthy particles returns, and leaves
    healthy particles. *)
Lemma healthy_system_update (s : ParticleSystem.t float) (now : float) :
  Forall healthy (ParticleSystem.particles s) ->
  steady_clock (ParticleSystem.last_update s) now ->
  snd (ParticleSystem.update s now) = Some tt
  /\ Forall healthy
       (ParticleSystem.particles (fst (ParticleSystem.update s now))).
Proof.
  intros Hall Htick. unfold steady_clock in Htick.
  set (dt := fsub now (ParticleSystem.last_update s)) in *.
  assert (Forall (fun p => snd (Particle.update p dt) <> None)
            (ParticleSystem.particles s)) as Hret.
  { eapply Forall_impl; [ | exact Hall]. intros p Hp.
    destruct (healthy_update p dt Hp Htick) as [-> _]. discriminate. }
  rewrite (system_update_all_return s now Hret). fold dt.
  split; [reflexivity | ]. cbn [fst ParticleSystem.particles].
  apply Forall_forall. intros q Hq. apply filter_In in Hq.
  destruct Hq as [Hq Hlive]. apply in_map_iff in Hq.
  destruct Hq as (p & <- & Hp). rewrite Forall_forall in Hall.
  now apply (healthy_update p dt (Hall p Hp) Htick).
Qed.

Lemma reachable_healthy (self : EnhancedGraph.t float) :
  reachable steady_clock self -> Forall healthy (particles_of self).
Proof.
  induction 1 as [now|self data sc up rng _ IH|self now _ IH Ht|self _ IH].
  - constructor.
  - destruct (update_with_effects_particles true self data sc up rng)
      as (added & E & Ha & _).
    unfold particles_of at 1. rewrite E. cbn.
    apply Forall_app. split; [exact IH | ].
    eapply Forall_impl; [ | exact Ha]. intros p. apply born_healthy.
  - unfold particles_of, EnhancedGraph.update_effects.
    pose proof (base_update_effects_keeps (EnhancedGraph.graph self) now)
      as (_ & _ & _ & E).
    destruct (EnhancedGraphWidget.update_effects true _ now) as [g r].
    cbn in *. rewrite E. now apply healthy_system_update.
  - constructor.
Qed.

(** X20.  In binary64 and under a steady clock, every particle of the
    widget is alive, with a life of at most 1.0 and an alpha within
    0..255, and the timer's callback returns, asking for a repaint
    exactly when a particle is left. *)
Theorem steady_widget_is_healthy (self : EnhancedGraph.t float) :
  reachable steady_clock self ->
  Forall healthy (particles_of self)
  /\ forall now,
       steady_clock (clock_of self) now ->
       snd (EnhancedGraph.update_effects true self now)
       = Some (match particles_of
                       (fst (EnhancedGraph.update_effects true self now))
               with [] => false | _ :: _ => true end).
Proof.
  intros Hr. pose proof (reachable_healthy self Hr) as Hall.
  split; [exact Hall | ]. intros now Ht.
  destruct (healthy_system_update _ now Hall Ht) as [Hret _].
  unfold particles_of, EnhancedGraph.update_effects,
    EnhancedGraphWidget.update_effects. cbn [negb].
  destruct (ParticleSystem.update _ now) as [system [[]| ]];
    [reflexivity | discriminate].
Qed.

End SteadyClock.

(** ** The lifetime of a new particle in binary64 *)

Section Lifetime64.
Import Rounding.
Local Open Scope Z_scope.

Lemma valid_double (s : bool) (m : positive) (e : Z) :
  valid_binary (S754_finite s m e) = true -> -1074 < e -> e < 971 ->
  valid_binary (S754_finite s m (e + 1)) = true.
Proof.
  intros V Hlo Hhi. destruct (valid_finite s m e V) as (_ & _ & Hs).
  specialize (Hs Hlo).
  cbn. unfold bounded, canonical_mantissa. rewrite fexp_eq, digits2_size.
  apply andb_true_intro. split.
  - apply Z.eqb_eq. lia.
  - apply Z.leb_le. change (emax - prec) with 971. lia.
Qed.

Lemma rounded_near_one (v : Z) :
  0 <= v <= 2 ^ scale -> rounded v <= v + 2 ^ (scale - 52).
Proof.
  intros [H0 H1]. unfold rounded.
  destruct (Z.leb_spec 0 v); [ | lia].
  apply Z.le_trans with (fl v); [apply Z.le_min_l | ].
  unfold fl. pose proof (grid_nonneg v) as Hg.
  destruct (rne_bounds v (grid v) Hg) as [_ Hr].
  assert (0 < 2 ^ grid v) as Hp by (apply Z.pow_pos_nonneg; lia).
  pose proof (Z.mul_div_le v (2 ^ grid v) Hp) as Hd.
  assert (2 ^ grid v <= 2 ^ (scale - 52)) as Hu.
  { apply Z.pow_le_mono_r; [lia | ]. unfold grid.
    apply Z.max_lub; [ | unfold scale; lia].
    destruct (Z.eq_dec v 0) as [-> | Hv]; [cbn; unfold scale; lia | ].
    assert (Z.log2 v < scale + 1); [ | lia].
    apply Z.log2_lt_pow2; [lia | ].
    rewrite Z.pow_add_r by (unfold scale; lia). lia. }
  nia.
Qed.


(** Doubling a normal float that is not too large is exact. *)
Lemma double_rank (d : float) :
  2 ^ (scale - 20) <= frank d <= 2 ^ (scale + 1000) ->
  ordered d ->
  ordered (PrimFloat.mul d (lit 2.0))
  /\ frank (PrimFloat.mul d (lit 2.0)) = 2 * frank d.
Proof.
  intros [Hlo Hhi] Nd.
  assert (Prim2SF (lit 2.0) = S754_finite false 4503599627370496 (-51))
    as Hk by (vm_compute; reflexivity).
  assert (valid_binary (S754_finite false 4503599627370496 (-51)) = true)
    as Vk by (rewrite <- Hk; apply Prim2SF_valid).
  unfold ordered, frank in *. rewrite mul_spec. unfold SF64mul. rewrite Hk.
  destruct (SFmul_lift _ 4503599627370496 (-51) (Prim2SF_valid d) Nd Vk
              eq_refl) as (_ & -> & N).
  split; [exact N | ].
  pose proof (Prim2SF_valid d) as V.
  assert (0 < 2 ^ (scale - 20)) as Hpos
    by (apply Z.pow_pos_nonneg; unfold scale; lia).
  destruct (Prim2SF d) as [s|s| |s m e]; cbn [rank] in Hlo, Hhi;
    try lia; try contradiction.
  - destruct s; cbn [cond_Zopp] in *; pose proof top_pos.
    + lia.
    + unfold top in Hhi.
      assert (2 ^ (scale + 1000) < 2 ^ (1024 + scale)); [ | lia].
      apply Z.pow_lt_mono_r; unfold scale; lia.
  - destruct (valid_finite _ _ _ V) as (He & Hs & _).
    pose proof (size_bounds m) as [Hm1 Hm2].
    assert (0 < 2 ^ (e + scale)) as Hpe
      by (apply Z.pow_pos_nonneg; unfold scale; lia).
    destruct s; cbn [cond_Zopp] in *; [lia | ].
    assert (-1074 < e) as He1.
    { assert (scale - 20 < 53 + (e + scale)); [ | lia].
      apply (Z.pow_lt_mono_r_iff 2); [lia | unfold scale; lia | ].
      rewrite Z.pow_add_r by (unfold scale; lia).
      assert (Z.pos m < 2 ^ 53).
      { eapply Z.lt_le_trans; [exact Hm2 | ]. apply Z.pow_le_mono_r; lia. }
      nia. }
    assert (e < 971) as He2.
    { destruct (valid_finite _ _ _ V) as (_ & _ & Hn). specialize (Hn He1).
      rewrite Hn in Hm1. change (2 ^ (53 - 1)) with (2 ^ 52) in Hm1.
      assert (52 + (e + scale) < scale + 1001); [ | lia].
      apply (Z.pow_lt_mono_r_iff 2); [lia | unfold scale; lia | ].
      rewrite Z.pow_add_r by (unfold scale; lia).
      assert (2 ^ (scale + 1000) < 2 ^ (scale + 1001))
        by (apply Z.pow_lt_mono_r; unfold scale; lia).
      nia. }
    cbn [lift rank cond_Zopp]. unfold scaled_by.
    replace (Z.pos m * 2 ^ (e + scale)
             * (4503599627370496 * 2 ^ (-51 + scale)) / 2 ^ scale)
      with (Z.pos m * 2 ^ (e + 1 + scale)).
    + pose proof (rounded_representable (S754_finite false m (e + 1))
                    (valid_double _ _ _ V He1 He2)) as Hr.
      cbn [rank cond_Zopp] in Hr. rewrite Hr.
      replace (e + 1 + scale) with (1 + (e + scale)) by lia.
      rewrite Z.pow_add_r by (unfold scale; lia). change (2 ^ 1) with 2. ring.
    + symmetry.
      replace (4503599627370496 * 2 ^ (-51 + scale)) with (2 * 2 ^ scale).
      * replace (Z.pos m * 2 ^ (e + scale) * (2 * 2 ^ scale))
          with (Z.pos m * 2 ^ (e + 1 + scale) * 2 ^ scale).
        -- apply Z.div_mul. apply Z.pow_nonzero; unfold scale; lia.
        -- replace (e + 1 + scale) with (1 + (e + scale)) by lia.
           rewrite Z.pow_add_r by (unfold scale; lia).
           change (2 ^ 1) with 2. ring.
      * change 4503599627370496 with (2 ^ 52).
        rewrite <- Z.pow_add_r by (unfold scale; lia).
        replace (52 + (-51 + scale)) with (1 + scale) by lia.
        rewrite Z.pow_add_r by (unfold scale; lia). reflexivity.
Qed.


Lemma init_healthy (x y : float) (effect_type : string)
    (rng : Random float) :
  healthy (fst (Particle.__init__ x y effect_type rng)).
Proof.
  unfold healthy, alive. rewrite init_life.
  split; [vm_compute; reflexivity | ].
  split; [vm_compute; reflexivity | ].
  unfold Particle.__init__, random.
  repeat match goal with
         | |- context [if ?b then _ else _] => destruct b
         end; cbn; lia.
Qed.

Lemma frank_one : frank (lit 1.0) = 2 ^ scale.
Proof.
  vm_compute. reflexivity.
Qed.

(** The step of a tick between 1e-6 and 1e299: twice its rank. *)
Lemma tick_rank (dt : float) :
  within64 1e-6 dt 1e299 ->
  finite_or_zero (Prim2SF (PrimFloat.mul dt (lit 2.0)))
  /\ frank (PrimFloat.mul dt (lit 2.0)) = 2 * frank dt
  /\ 2 ^ (scale - 20) <= frank dt.
Proof.
  intros [Hlo Hhi]. unfold Binary64.le in *.
  apply leb_frank in Hlo, Hhi.
  destruct Hlo as (_ & Nd & Hlo). destruct Hhi as (_ & _ & Hhi).
  assert (2 ^ (scale - 20) <= frank (lit 1e-6)) as H1
    by (vm_compute; discriminate).
  assert (frank (lit 1e299) <= 2 ^ (scale + 1000)) as H2
    by (vm_compute; discriminate).
  destruct (double_rank dt) as [N E]; [lia | exact Nd | ].
  split; [ | split; [exact E | lia]].
  apply finite_of_rank; [exact N | ]. rewrite E.
  assert (2 * 2 ^ (scale + 1000) < top) by (vm_compute; reflexivity).
  assert (0 < 2 ^ (scale - 20)) by (apply Z.pow_pos_nonneg; unfold scale; lia).
  lia.
Qed.

(** While the particle lives, a call takes at least [2*dt], less the
    rounding of a number below 1, off its life. *)
Lemma life_step (p : Particle.t float) (dt : float) :
  healthy p -> within64 1e-6 dt 1e299 ->
  alive (updated dt p) = true ->
  frank (Particle.life (updated dt p))
  <= frank (Particle.life p) - 2 * frank dt + 2 ^ (scale - 52).
Proof.
  intros (Ha & Hl & _) Hdt Ha'.
  destruct (tick_rank dt Hdt) as (Fd & Ed & Hd).
  unfold alive in Ha, Ha'. cbn [fltb binary64] in Ha, Ha'.
  rewrite update_life in Ha' |- *. cbn [fsub fmul binary64] in Ha' |- *.
  assert (finite_or_zero (Prim2SF (Particle.life p))) as Fl.
  { apply (finite_within (lit 0) _ (lit 1.0)); try assumption;
      [vm_compute; exact I | vm_compute; exact I | now apply ltb_leb]. }
  destruct (sub_rank _ _ Fl Fd) as [_ Es]. rewrite Ed in Es. rewrite Es.
  apply ltb_frank in Ha'. destruct Ha' as (_ & _ & Ha').
  rewrite Es in Ha'. change (frank (lit 0)) with 0 in Ha'.
  unfold Binary64.le in Hl. apply leb_frank in Hl.
  destruct Hl as (_ & _ & Hl). rewrite frank_one in Hl.
  assert (0 < 2 ^ (scale - 20)) by (apply Z.pow_pos_nonneg; unfold scale; lia).
  destruct (Z.lt_ge_cases (frank (Particle.life p) - 2 * frank dt) 0)
    as [Hneg | Hpos].
  - pose proof (rounded_monotone _ 0 (Z.lt_le_incl _ _ Hneg)) as Hm.
    rewrite rounded_zero in Hm. lia.
  - apply rounded_near_one. lia.
Qed.


Lemma tick_steady (dt : float) :
  within64 1e-6 dt 1e299 -> within64 0 dt 1e299.
Proof.
  intros [Hlo Hhi]. split; [ | exact Hhi].
  unfold Binary64.le in *. eapply float_leb_trans; [ | exact Hlo].
  vm_compute. reflexivity.
Qed.

(** A particle whose life is at most [m] such steps expires within [m]
    calls, every call before returning [True]. *)
Lemma expires_within (dt : float) (m : nat) :
  within64 1e-6 dt 1e299 ->
  forall p : Particle.t float,
    healthy p ->
    frank (Particle.life p)
    <= Z.of_nat m * (2 * frank dt - 2 ^ (scale - 52)) ->
    exists n : nat,
      (1 <= n <= m)%nat
      /\ Particle.nth_update n p dt = Some false
      /\ forall k : nat,
           (1 <= k < n)%nat -> Particle.nth_update k p dt = Some true.
Proof.
  intros Hdt. induction m as [|m IH]; intros p Hp Hl.
  - destruct Hp as (Ha & _). unfold alive in Ha. cbn [fltb binary64] in Ha.
    apply ltb_frank in Ha. destruct Ha as (_ & _ & Ha).
    change (frank (lit 0)) with 0 in Ha. lia.
  - destruct (healthy_update p dt Hp (tick_steady dt Hdt)) as [Hr Hh].
    destruct (alive (updated dt p)) eqn:Ha.
    + pose proof (life_step p dt Hp Hdt Ha) as Hs.
      destruct (IH (updated dt p) (Hh eq_refl)) as (n & Hn & Hf & Ht);
        [lia | ].
      exists (S n). split; [lia | split].
      * destruct n as [|j]; [lia | exact Hf].
      * intros k Hk. destruct k as [|[|j]]; [lia | exact Hr | ].
        apply (Ht (S j)). lia.
    + exists 1%nat. split; [lia | split]; [exact Hr | ]. intros k Hk. lia.
Qed.

(** [ceil(0.5 / dt) + 1] such steps cover a life of 1.0. *)
Lemma lifetime_calls64_covers (dt : float) :
  within64 1e-6 dt 1e299 ->
  0 <= lifetime_calls64 dt
  /\ 2 ^ scale
     <= lifetime_calls64 dt * (2 * frank dt - 2 ^ (scale - 52)).
Proof.
  intros Hdt. destruct (tick_rank dt Hdt) as (_ & _ & HR).
  assert (finite_or_zero (Prim2SF dt)) as Fd.
  { destruct Hdt as [Hlo Hhi].
    apply (finite_within (lit 1e-6) _ (lit 1e299)); try assumption;
      vm_compute; exact I. }
  unfold lifetime_calls64, Binary64.to_Q. unfold frank in *.
  pose proof (SF2Q_rank (Prim2SF dt)) as Hq.
  specialize (fun q => Hq q (Prim2SF_valid dt)).
  set (R := rank (Prim2SF dt)) in *.
  assert (exists q, Binary64.SF2Q (Prim2SF dt) = Some q) as [q Eq].
  { clear - Fd. destruct (Prim2SF dt); try (exfalso; exact Fd);
      cbn [Binary64.SF2Q]; eauto. }
  rewrite Eq. specialize (Hq q Eq).
  assert (2 ^ scale = 2 ^ 52 * 2 ^ (scale - 52)) as E1.
  { rewrite <- Z.pow_add_r by (unfold scale; lia). f_equal; lia. }
  assert (2 ^ (scale - 20) = 2 ^ 32 * 2 ^ (scale - 52)) as E2.
  { rewrite <- Z.pow_add_r by (unfold scale; lia). f_equal; unfold scale; lia. }
  assert (0 < 2 ^ (scale - 52)) as HE
    by (apply Z.pow_pos_nonneg; unfold scale; lia).
  set (E := 2 ^ (scale - 52)) in *.
  assert (0 < inject_Z (2 ^ scale))%Q as Hone.
  { rewrite <- (Zlt_Qlt 0). rewrite E1. lia. }
  assert (0 < q)%Q as Hpos.
  { assert (0 < inject_Z R)%Q as HRq by (rewrite <- (Zlt_Qlt 0); lia).
    rewrite <- Hq in HRq.
    destruct (Qlt_le_dec 0 q) as [ |Hn]; [assumption | exfalso].
    assert (q * inject_Z (2 ^ scale) <= 0)%Q by nra.
    apply (Qlt_irrefl 0). eapply Qlt_le_trans; eassumption. }
  destruct (lifetime_calls_spec q Hpos) as (Hc1 & Hc2 & Hc3).
  set (c := lifetime_calls q) in *.
  assert (2 ^ scale <= c * (2 * R)) as Z2.
  { rewrite Zle_Qle, !inject_Z_mult, <- Hq.
    change (inject_Z 2) with 2%Q.
    set (x := inject_Z (2 ^ scale)) in *. set (cc := inject_Z c) in *.
    nra. }
  assert ((c - 1) * (2 * R) < 2 ^ scale) as Z3.
  { specialize (Hc3 (c - 1) ltac:(lia)).
    rewrite Zlt_Qlt, !inject_Z_mult, <- Hq.
    change (inject_Z 2) with 2%Q.
    set (x := inject_Z (2 ^ scale)) in *. set (cc := inject_Z (c - 1)) in *.
    nra. }
  split; [lia | ].
  rewrite E1, E2 in *. change (2 ^ 52) with 4503599627370496 in *.
  change (2 ^ 32) with 4294967296 in *.
  assert (c - 1 < 4503599627370496) by nia.
  assert ((c + 1) * E <= 2 * R) by nia.
  nia.
Qed.


(** In exact arithmetic the last call is call number [ceil(0.5 / dt)]. *)
Lemma new_particle_lifetime_exact (x y : Q) (effect_type : string)
    (rng : Random Q) (dt : Q) :
  (0 < dt)%Q ->
  let p := fst (Particle.__init__ x y effect_type rng) in
  let n := Z.to_nat (lifetime_calls dt) in
  (1 <= n)%nat
  /\ Particle.nth_update n p dt = Some false
  /\ (forall k : nat,
        (1 <= k < n)%nat -> Particle.nth_update k p dt = Some true).
Proof.
  intros Hdt p n.
  destruct (lifetime_calls_spec dt Hdt) as (H1 & Hdead & Halive).
  assert (Particle.life p = 1.0%Q) as Hp
    by exact (init_life (F := Q) x y effect_type rng).
  assert (forall k : nat,
            (Particle.life (Particle.updates k p dt)
             == 1 - inject_Z (Z.of_nat k) * (dt * 2))%Q) as Hlife.
  { intros k. rewrite updates_life_exact, Hp. ring. }
  assert (Particle.life p <= 1)%Q as Hle
    by (rewrite Hp; vm_compute; discriminate).
  assert (0 <= dt)%Q as Hdt' by now apply Qlt_le_weak.
  repeat split.
  - subst n. lia.
  - rewrite nth_update_exact by (subst n; lia || assumption). f_equal.
    rewrite (Qltb_comp _ _ _ (Hlife n)). apply Qltb_ge.
    subst n. rewrite Z2Nat.id by lia. lra.
  - intros k Hk. rewrite nth_update_exact by (lia || assumption). f_equal.
    rewrite (Qltb_comp _ _ _ (Hlife k)). apply Qltb_lt.
    assert (inject_Z (Z.of_nat k) * (dt * 2) < 1)%Q by (apply Halive; lia).
    lra.
Qed.

End Lifetime64.

(** C3 as amended.  In binary64, repeated calls [update(dt)] with a fixed
    [dt] between 1e-6 and 1e299 on a newly constructed particle of any
    type return [True] until a call returns [False], and that call is
    one of the first [ceil(0.5 / dt) + 1]; in exact arithmetic, for
    every [dt > 0], it is call number [ceil(0.5 / dt)].  A call returns
    [False] only when the life it leaves, [life - dt*2.0], is not above
    0. *)
Theorem new_particle_lifetime (x y : float) (effect_type : string)
    (rng : Random float) (dt : float) :
  within64 1e-6 dt 1e299 ->
  let p := fst (Particle.__init__ x y effect_type rng) in
  (exists n : nat,
     (1 <= n)%nat /\ (Z.of_nat n <= lifetime_calls64 dt)%Z
     /\ Particle.nth_update n p dt = Some false
     /\ forall k : nat,
          (1 <= k < n)%nat -> Particle.nth_update k p dt = Some true)
  /\ (forall (q : Particle.t float) (d : float),
        snd (Particle.update q d) = Some false ->
        PrimFloat.ltb 0 (PrimFloat.sub (Particle.life q) (PrimFloat.mul d 2))
        = false)
  /\ (forall (xq yq : Q) (rq : Random Q) (dq : Q),
        0 < dq ->
        let pq := fst (Particle.__init__ xq yq effect_type rq) in
        let nq := Z.to_nat (lifetime_calls dq) in
        (1 <= nq)%nat
        /\ Particle.nth_update nq pq dq = Some false
        /\ (forall k : nat,
              (1 <= k < nq)%nat -> Particle.nth_update k pq dq = Some true)).
Proof.
  intros Hdt p. split; [ | split].
  - destruct (lifetime_calls64_covers dt Hdt) as [H0 Hc].
    destruct (expires_within dt (Z.to_nat (lifetime_calls64 dt)) Hdt p
                (init_healthy x y effect_type rng))
      as (n & Hn & Hf & Ht).
    + unfold p. rewrite init_life, frank_one, Z2Nat.id by exact H0.
      exact Hc.
    + exists n. repeat split; try assumption; lia.
  - intros q d Hq. symmetry. apply (update_returned64 q d false Hq).
  - intros xq yq rq dq Hdq.
    exact (new_particle_lifetime_exact xq yq effect_type rq dq Hdq).
Qed.

Lemma new_particle_lifetime_witness :
  let dt : float := lit 0.1 in
  let p := fst (Particle.__init__ (lit 10) (lit 20) "pulse" Sample.draws) in
  (exists n : nat,
     (1 <= n)%nat /\ (Z.of_nat n <= lifetime_calls64 dt)%Z
     /\ Particle.nth_update n p dt = Some false
     /\ forall k : nat,
          (1 <= k < n)%nat -> Particle.nth_update k p dt = Some true)
  /\ (forall (q : Particle.t float) (d : float),
        snd (Particle.update q d) = Some false ->
        PrimFloat.ltb 0 (PrimFloat.sub (Particle.life q) (PrimFloat.mul d 2))
        = false)
  /\ (forall (xq yq : Q) (rq : Random Q) (dq : Q),
        0 < dq ->
        let pq := fst (Particle.__init__ xq yq "pulse" rq) in
        let nq := Z.to_nat (lifetime_calls dq) in
        (1 <= nq)%nat
        /\ Particle.nth_update nq pq dq = Some false
        /\ (forall k : nat,
              (1 <= k < nq)%nat -> Particle.nth_update k pq dq = Some true)).
Proof.
  apply (new_particle_lifetime (lit 10) (lit 20) "pulse" Sample.draws
           (lit 0.1)).
  split; vm_compute; reflexivity.
Defined.

(** ** The glow, in binary64 *)

Section Glow.
Import Rounding.

(** One step of the glow from within [0.3, 1.0] toward one of the two
    targets stays within [0.3, 1.0]. *)
Lemma glow_step_within (c : float) (is_up : bool) :
  within64 0.3 c 1 ->
  within64 0.3
    (fadd c (fmul (fsub (if is_up then lit 1.0 else lit 0.3) c) (lit 0.1)))
    1.
Proof.
  intros [Hlo Hhi]. unfold within64, Binary64.le in *.
  cbn [fadd fsub fmul binary64].
  set (t := if is_up then lit 1.0 else lit 0.3).
  assert (finite_or_zero (Prim2SF c)) as Fc.
  { apply (finite_within (lit 0.3) c (lit 1)); try assumption;
      vm_compute; exact I. }
  assert (finite_or_zero (Prim2SF t)) as Ft
    by (unfold t; destruct is_up; vm_compute; exact I).
  assert (finite_or_zero (Prim2SF (PrimFloat.sub t c))) as Fd.
  { apply (finite_within (PrimFloat.sub t (lit 1)) _
             (PrimFloat.sub t (lit 0.3))).
    - unfold t. destruct is_up; vm_compute; exact I.
    - unfold t. destruct is_up; vm_compute; exact I.
    - now apply sub_antitone.
    - now apply sub_antitone. }
  destruct (glow_step_toward c t Fc Ft Fd) as [Hup Hdown].
  unfold t in *. destruct is_up.
  - destruct (Hup Hhi) as [H1 H2]. split; [ | exact H2].
    eapply float_leb_trans; eassumption.
  - destruct (Hdown Hlo) as [H1 H2]. split; [exact H1 | ].
    eapply float_leb_trans; eassumption.
Qed.

Lemma glow_width_within (c : float) :
  within64 0.3 c 1 -> within64 2.9 (fadd (lit 2) (fmul c (lit 3))) 5.
Proof.
  intros [Hlo Hhi]. unfold within64, Binary64.le in *.
  cbn [fadd fmul binary64]. split.
  - apply float_leb_trans
      with (PrimFloat.add (lit 2) (PrimFloat.mul (lit 0.3) (lit 3)));
      [vm_compute; reflexivity | ].
    apply add_monotone; [vm_compute; exact I | ].
    eapply mul_monotone; [vm_compute; reflexivity | reflexivity | ].
    exact Hlo.
  - apply float_leb_trans
      with (PrimFloat.add (lit 2) (PrimFloat.mul (lit 1) (lit 3)));
      [ | vm_compute; reflexivity].
    apply add_monotone; [vm_compute; exact I | ].
    eapply mul_monotone; [vm_compute; reflexivity | reflexivity | ].
    exact Hhi.
Qed.

Lemma reachable_glow (tick : float -> float -> Prop)
    (self : EnhancedGraph.t float) :
  reachable tick self ->
  within64 0.3 (EnhancedGraph.current_glow_intensity self) 1
  /\ (EnhancedGraph.target_glow_intensity self = lit 0.3
      \/ EnhancedGraph.target_glow_intensity self = lit 1.0)
  /\ forall pen,
       EnhancedGraph.line_pen self = Some pen ->
       within64 2.9 (Pen.width pen) 5.
Proof.
  induction 1 as [now|self data sc up rng _ IH|self now _ IH _|self _ IH].
  - cbn. split; [split; vm_compute; reflexivity | split; [auto | ]].
    intros pen [= <-]. split; vm_compute; reflexivity.
  - destruct IH as (Hc & Ht & Hp).
    unfold EnhancedGraph.update_with_effects. cbn [negb].
    destruct data as [|d data]; [cbn; auto | ].
    pose proof (glow_step_within _ up Hc) as Hc'.
    pose proof (glow_width_within _ Hc') as Hw.
    assert (((if up then lit 1.0 else lit 0.3) = lit 0.3 :> float)
            \/ ((if up then lit 1.0 else lit 0.3) = lit 1.0 :> float))
      as Ht'
      by (destruct up; auto).
    destruct (EnhancedGraphWidget.uptime_line _);
      [ | cbn -[lit]; split; [exact Hc' | split; [exact Ht' | exact Hp]]].
    destruct (EnhancedGraph.gradient_fill self).
    + destruct (EnhancedGraph.status_effects _ _ _ _ _ _).
      cbn -[lit]. split; [exact Hc' | split; [exact Ht' | ]].
      intros pen [= <-]. exact Hw.
    + cbn -[lit]. split; [exact Hc' | split; [exact Ht' | ]].
      intros pen [= <-]. exact Hw.
  - unfold EnhancedGraph.update_effects.
    destruct (EnhancedGraphWidget.update_effects true _ now). exact IH.
  - exact IH.
Qed.

(** X21.  In binary64 the glow of a constructed widget stays between its
    two targets, 0.3 and 1.0, and the pen of the line between the widths
    2.9 and 5 that they give. *)
Theorem glow_stays_within_its_targets (tick : float -> float -> Prop)
    (self : EnhancedGraph.t float) :
  reachable tick self ->
  within64 0.3 (EnhancedGraph.current_glow_intensity self) 1
  /\ (EnhancedGraph.target_glow_intensity self = lit 0.3
      \/ EnhancedGraph.target_glow_intensity self = lit 1.0)
  /\ forall pen,
       EnhancedGraph.line_pen self = Some pen ->
       within64 2.9 (Pen.width pen) 5.
Proof.
  apply reachable_glow.
Qed.

(** X22.  In binary64 a call of [update_with_effects] with data sets the
    target of the status and moves the glow toward it and not past it:
    up, the glow does not decrease and stays at most 1.0; down, it does
    not increase and stays at least 0.3. *)
Theorem glow_moves_toward_its_target (tick : float -> float -> Prop)
    (self : EnhancedGraph.t float) (uptime_data : list float)
    (status_changed is_up : bool) (rng : Random float) :
  reachable tick self -> uptime_data <> [] ->
  let self' :=
    fst (fst (EnhancedGraph.update_with_effects true self uptime_data
                status_changed is_up rng)) in
  let before := EnhancedGraph.current_glow_intensity self in
  let after := EnhancedGraph.current_glow_intensity self' in
  EnhancedGraph.target_glow_intensity self'
  = (if is_up then lit 1.0 else lit 0.3)
  /\ if is_up
     then Binary64.le before after /\ Binary64.le after (lit 1.0)
     else Binary64.le (lit 0.3) after /\ Binary64.le after before.
Proof.
  intros Hr Hd self' before after.
  destruct (reachable_glow tick self Hr) as ([Hlo Hhi] & _ & _).
  destruct (reachable_plot tick self Hr) as (_ & Hl & _ & Hf).
  cbv zeta in Hl. fold before in Hlo, Hhi.
  assert (after
          = fadd before
              (fmul (fsub (if is_up then lit 1.0 else lit 0.3) before)
                    (lit 0.1))
          /\ EnhancedGraph.target_glow_intensity self'
             = (if is_up then lit 1.0 else lit 0.3)) as [-> ->].
  { unfold after, self', before, EnhancedGraph.update_with_effects.
    cbn [negb]. destruct uptime_data as [|d data]; [now destruct Hd | ].
    rewrite Hl.
    destruct (EnhancedGraph.gradient_fill self); [ | now destruct Hf].
    destruct (EnhancedGraph.status_effects _ _ _ _ _ _).
    cbn -[lit]. auto. }
  split; [reflexivity | ].
  unfold Binary64.le in *. cbn [fadd fsub fmul binary64].
  set (t := if is_up then lit 1.0 else lit 0.3).
  assert (finite_or_zero (Prim2SF before)) as Fc.
  { apply (finite_within (lit 0.3) before (lit 1)); try assumption;
      vm_compute; exact I. }
  assert (finite_or_zero (Prim2SF t)) as Ft
    by (unfold t; destruct is_up; vm_compute; exact I).
  assert (finite_or_zero (Prim2SF (PrimFloat.sub t before))) as Fd.
  { apply (finite_within (PrimFloat.sub t (lit 1)) _
             (PrimFloat.sub t (lit 0.3))).
    - unfold t. destruct is_up; vm_compute; exact I.
    - unfold t. destruct is_up; vm_compute; exact I.
    - now apply sub_antitone.
    - now apply sub_antitone. }
  destruct (glow_step_toward before t Fc Ft Fd) as [Hup Hdown].
  unfold t in *. destruct is_up; [apply Hup, Hhi | apply Hdown, Hlo].
Qed.

End Glow.

(** ** The properties above on the sample inputs *)

Lemma system_update_raise_removes_nothing_witness :
  let s := Sample.broken64 in
  let now := lit 100.25 in
  let dt := fsub now (ParticleSystem.last_update s) in
  let s' := fst (ParticleSystem.update s now) in
  ParticleSystem.last_update s' = now
  /\ List.length (ParticleSystem.particles s')
     = List.length (ParticleSystem.particles s)
  /\ exists before bad after,
       ParticleSystem.particles s = before ++ bad :: after
       /\ Forall (fun p => snd (Particle.update p dt) <> None) before
       /\ snd (Particle.update bad dt) = None
       /\ ParticleSystem.particles s'
          = map (updated dt) before ++ updated dt bad :: after.
Proof.
  apply (system_update_raise_removes_nothing Sample.broken64 (lit 100.25)).
  vm_compute. reflexivity.
Defined.

Lemma draw_ignores_the_effect_type_witness :
  let pulse := {| ParticleSystem.particles := [Sample.particle "pulse"];
                  ParticleSystem.last_update := 100 |} in
  let sparkle := {| ParticleSystem.particles := [Sample.disguised];
                    ParticleSystem.last_update := 100 |} in
  let plot_widget := PlotWidget.getViewBox (Some (Sample.view_box 11)) in
  snd (ParticleSystem.draw pulse [] plot_widget)
  = snd (ParticleSystem.draw sparkle [] plot_widget).
Proof.
  apply (draw_ignores_the_effect_type (F := Q)).
  repeat constructor.
Defined.

Lemma dead_particle_stays_dead_witness :
  let p := updated (lit 0.5) Sample.celebration64 in
  let dt := lit 0.016 in
  Binary64.le (Particle.life (updated dt p)) (lit 0)
  /\ snd (Particle.update p dt) <> Some true
  /\ (Binary64.le (lit (-1e300)) (Particle.life (updated dt p)) ->
      snd (Particle.update p dt) = Some false).
Proof.
  apply (dead_particle_stays_dead
           (updated (lit 0.5) Sample.celebration64) (lit 0.016));
    vm_compute; reflexivity.
Defined.

Lemma alpha_is_a_colour_channel_witness :
  (0 <= QColor.alpha (Particle.color (updated (lit 0.25) Sample.pulse64))
   <= if String.eqb (Particle.effect_type Sample.pulse64) "pulse"
      then 200 else 255)%Z.
Proof.
  apply (alpha_is_a_colour_channel Sample.pulse64 (lit 0.25) true);
    vm_compute; reflexivity.
Defined.

Lemma alpha_never_increases_witness :
  let p1 := updated (lit 0.1) Sample.sparkle64 in
  let p2 := updated (lit 0.016) p1 in
  (QColor.alpha (Particle.color p2) <= QColor.alpha (Particle.color p1))%Z.
Proof.
  apply (alpha_never_increases Sample.sparkle64 (lit 0.1) (lit 0.016)
           true true); vm_compute; reflexivity.
Defined.

Lemma pulse_size_range_witness :
  let l := Particle.life (updated (lit 0.25) Sample.pulse64) in
  let size := Particle.size (updated (lit 0.25) Sample.pulse64) in
  (Binary64.le l (lit 1.0) -> Binary64.le (lit 8) size)
  /\ (Binary64.le (lit 0) l -> Binary64.le size (lit 28))
  /\ (Binary64.le l (lit 0) -> Binary64.le (lit 28) size).
Proof.
  apply (pulse_size_range Sample.pulse64 (lit 0.25)). reflexivity.
Defined.

Lemma new_particle_ranges_witness :
  (let p := fst (Particle.__init__ (lit 10) (lit 20) "celebration"
                   (Sample.draws (F := float))) in
   within64 (-10) (Particle.velocity_x p) 10
   /\ within64 (-25) (Particle.velocity_y p) (-10)
   /\ within64 4 (Particle.size p) 7)
  /\ (let p := fst (Particle.__init__ (lit 10) (lit 20) "sparkle"
                      (Sample.draws (F := float))) in
      within64 (-2.5) (Particle.velocity_x p) 2.5
      /\ within64 (-2.5) (Particle.velocity_y p) 2.5
      /\ within64 2 (Particle.size p) 4).
Proof.
  apply (new_particle_ranges (lit 10) (lit 20) Sample.draws).
  intros n. split; vm_compute; reflexivity.
Defined.

Lemma sparkle_moves_uniformly_witness :
  let p := Sample.sparkle64 in
  let dt := lit 0.016 in
  let q := Particle.updates 3 p dt in
  Particle.velocity_x q = Particle.velocity_x p
  /\ Particle.velocity_y q = Particle.velocity_y p
  /\ Particle.size q = Particle.size p
  /\ Particle.x q
     = Nat.iter 3 (fun x => fadd x (fmul (Particle.velocity_x p) dt))
         (Particle.x p)
  /\ Particle.y q
     = Nat.iter 3 (fun y => fadd y (fmul (Particle.velocity_y p) dt))
         (Particle.y p).
Proof.
  apply (sparkle_moves_uniformly Sample.sparkle64 (lit 0.016) 3).
  reflexivity.
Defined.

Lemma celebration_falls_by_euler_steps_witness :
  let p := Sample.celebration64 in
  let dt : float := lit 0.016 in
  let q := Particle.updates 3 p dt in
  Particle.velocity_x q = Particle.velocity_x p
  /\ Particle.size q = Particle.size p
  /\ Particle.x q
     = Nat.iter 3 (fun x => fadd x (fmul (Particle.velocity_x p) dt))
         (Particle.x p)
  /\ (Particle.velocity_y q, Particle.y q)
     = Nat.iter 3
         (fun vy => (fadd (fst vy) (fmul (lit 30) dt),
                     fadd (snd vy) (fmul (fst vy) dt)))
         (Particle.velocity_y p, Particle.y p).
Proof.
  apply (celebration_falls_by_euler_steps Sample.celebration64 (lit 0.016) 3).
  reflexivity.
Defined.

Lemma stale_spawn_is_culled_witness :
  let s := Sample.system64 in
  let now := lit 101 in
  ParticleSystem.update
    (fst (ParticleSystem.add_celebration_burst s (lit 1) (lit 100) None
            Sample.draws)) now
  = ParticleSystem.update s now
  /\ ParticleSystem.update
       (fst (ParticleSystem.add_sparkles s (lit 1) (lit 100) None
               Sample.draws)) now
     = ParticleSystem.update s now
  /\ ParticleSystem.update
       (fst (ParticleSystem.add_pulse s (lit 1) (lit 100) Sample.draws)) now
     = ParticleSystem.update s now.
Proof.
  apply (stale_spawn_is_culled Sample.system64 (lit 1) (lit 100) None
           Sample.draws (lit 101)).
  - split; vm_compute; reflexivity.
  - vm_compute. reflexivity.
Defined.

Lemma constructed_widget_plots_its_history_witness :
  let g := EnhancedGraph.graph Sample.shown64 in
  EnhancedGraphWidget.time_points g
  = abscissas (List.length (EnhancedGraphWidget.uptime_history g))
  /\ List.length (EnhancedGraphWidget.time_points g)
     = List.length (EnhancedGraphWidget.uptime_history g)
  /\ EnhancedGraphWidget.uptime_line g
     = Some (EnhancedGraphWidget.time_points g,
             EnhancedGraphWidget.uptime_history g).
Proof.
  apply (constructed_widget_plots_its_history any_clock Sample.shown64).
  apply reachable_update_with_effects, reachable_init.
Defined.

Lemma update_with_effects_returns_witness :
  snd (EnhancedGraph.update_with_effects true Sample.shown64
         [lit 99.5; lit 100; lit 100] false true Sample.draws) = Some tt.
Proof.
  apply (update_with_effects_returns any_clock Sample.shown64).
  apply reachable_update_with_effects, reachable_init.
Defined.

Lemma widget_particles_are_styled_witness :
  Forall styled (particles_of Sample.shown64).
Proof.
  apply (widget_particles_are_styled any_clock Sample.shown64).
  apply reachable_update_with_effects, reachable_init.
Defined.

Lemma status_change_spawns_a_burst_witness :
  let self := Sample.fresh64 in
  let uptime_data := [lit 99.5; lit 100] in
  let rng := Sample.draws in
  let self' :=
    fst (fst (EnhancedGraph.update_with_effects true self uptime_data
                true true rng)) in
  let burst := true && true in
  let gate := fltb (if burst then rng 36%nat else rng 0%nat) (lit 0.3) in
  let sparkles := true && (1 <? List.length uptime_data)%nat && gate in
  exists added,
    particles_of self' = (particles_of self ++ added)%list
    /\ map Particle.effect_type added
       = ((if burst then repeat "celebration"%string 12 ++ ["pulse"%string]
           else [])
          ++ (if sparkles then repeat "sparkle"%string 2 else []))%list
    /\ Forall (fun p =>
                 Particle.x p
                 = EnhancedGraph.of_int
                     (Z.of_nat (List.length uptime_data) - 1)
                 /\ Particle.y p = last uptime_data (lit 0)
                 /\ Particle.life p = lit 1.0) added.
Proof.
  apply (status_change_spawns_a_burst any_clock Sample.fresh64
           [lit 99.5; lit 100] true true Sample.draws).
  - apply reachable_init.
  - discriminate.
Defined.

Lemma clear_graph_leaves_the_fill_witness :
  let uptime_data : list float := [lit 99.5; lit 100] in
  let shown :=
    fst (fst (EnhancedGraph.update_with_effects true Sample.fresh64
                uptime_data true true Sample.draws)) in
  let cleared := EnhancedGraph.clear_graph true shown in
  let abscissas := abscissas (List.length uptime_data) in
  EnhancedGraphWidget.uptime_history (EnhancedGraph.graph cleared) = []
  /\ EnhancedGraphWidget.time_points (EnhancedGraph.graph cleared) = []
  /\ EnhancedGraphWidget.uptime_line (EnhancedGraph.graph cleared)
     = Some ([], [])
  /\ particles_of cleared = []
  /\ EnhancedGraph.last_status cleared = Some true
  /\ exists brush,
       EnhancedGraph.gradient_fill cleared
       = Some {| FillBetweenItem.curve1 :=
                   FillBetweenItem.PlotCurveItem abscissas uptime_data;
                 FillBetweenItem.curve2 :=
                   FillBetweenItem.PlotCurveItem abscissas
                     (repeat (lit 0) (List.length uptime_data));
                 FillBetweenItem.brush := brush |}.
Proof.
  apply (clear_graph_leaves_the_fill any_clock Sample.fresh64
           [lit 99.5; lit 100] true true Sample.draws).
  - apply reachable_init.
  - discriminate.
Defined.

Lemma steady_widget_is_healthy_witness :
  let self :=
    fst (EnhancedGraph.update_effects true Sample.shown64 (lit 100.016)) in
  Forall healthy (particles_of self)
  /\ forall now,
       steady_clock (clock_of self) now ->
       snd (EnhancedGraph.update_effects true self now)
       = Some (match particles_of
                       (fst (EnhancedGraph.update_effects true self now))
               with [] => false | _ :: _ => true end).
Proof.
  apply (steady_widget_is_healthy
           (fst (EnhancedGraph.update_effects true Sample.shown64
                   (lit 100.016)))).
  apply reachable_update_effects.
  - apply reachable_update_with_effects, reachable_init.
  - split; vm_compute; reflexivity.
Defined.

Lemma glow_stays_within_its_targets_witness :
  within64 0.3 (EnhancedGraph.current_glow_intensity Sample.shown64) 1
  /\ (EnhancedGraph.target_glow_intensity Sample.shown64 = lit 0.3
      \/ EnhancedGraph.target_glow_intensity Sample.shown64 = lit 1.0)
  /\ forall pen,
       EnhancedGraph.line_pen Sample.shown64 = Some pen ->
       within64 2.9 (Pen.width pen) 5.
Proof.
  apply (glow_stays_within_its_targets any_clock Sample.shown64).
  apply reachable_update_with_effects, reachable_init.
Defined.

Lemma glow_moves_toward_its_target_witness :
  let self := Sample.fresh64 in
  let self' :=
    fst (fst (EnhancedGraph.update_with_effects true self
                [lit 99.5; lit 100] true true Sample.draws)) in
  let before := EnhancedGraph.current_glow_intensity self in
  let after := EnhancedGraph.current_glow_intensity self' in
  EnhancedGraph.target_glow_intensity self' = lit 1.0
  /\ Binary64.le before after /\ Binary64.le after (lit 1.0).
Proof.
  apply (glow_moves_toward_its_target any_clock Sample.fresh64
           [lit 99.5; lit 100] true true Sample.draws).
  - apply reachable_init.
  - discriminate.
Defined.
